(** * TSqlDatabasePool: the pooled SQL connections of the application server

    A shallow embedding of [TSqlDatabasePool] (tsqldatabasepool.cpp) and the
    properties of its borrow/return engine, its setup applier, its reaper
    timer and its connection-name scheme. *)

From stdpp Require Import base decidable option list strings gmap pretty.
From Stdlib Require Import ZArith Ascii String Lia Permutation.

Local Open Scope string_scope.
Local Open Scope list_scope.
Local Open Scope Z_scope.

(** ** QString and QChar

    A [QString] is modelled as a [string] of Latin-1 code units.  The
    operations below follow the Qt 5 documentation of the members the pool
    calls: [trimmed], [split] with [QString::SkipEmptyParts], [mid], [toInt],
    [isEmpty], [contains] and [sprintf] with the pool's format. *)

Abbreviation QString := string (only parsing).

Module QChar.

(** [QChar::isSpace]: the ASCII white space 9..13 and 32, and in the Latin-1
    range NEL (0x85) and the no-break space (0xA0). *)
Definition isSpace (c : ascii) : bool :=
  let n := Z.of_N (N_of_ascii c) in
  (n =? 32) || ((9 <=? n) && (n <=? 13)) || (n =? 133) || (n =? 160).

Definition isDigit (c : ascii) : bool :=
  let n := Z.of_N (N_of_ascii c) in (48 <=? n) && (n <=? 57).

Definition digitValue (c : ascii) : option Z :=
  if isDigit c then Some (Z.of_N (N_of_ascii c) - 48) else None.

End QChar.

Module QStr.

Definition isEmpty (s : QString) : bool :=
  match s with "" => true | _ => false end.

Fixpoint skipSpaces (s : QString) : QString :=
  match s with
  | "" => ""
  | String c s' => if QChar.isSpace c then skipSpaces s' else s
  end.

(** [QString::trimmed]: white space removed from the start and the end. *)
Definition trimmed (s : QString) : QString :=
  String.rev (skipSpaces (String.rev (skipSpaces s))).

Fixpoint contains (c : ascii) (s : QString) : bool :=
  match s with
  | "" => false
  | String c' s' => if Ascii.eqb c c' then true else contains c s'
  end.

(** [QString::split(sep)] with [QString::KeepEmptyParts]; [cur] is the
    fragment being read, in reverse. *)
Fixpoint split_go (sep : ascii) (cur : QString) (s : QString) : list QString :=
  match s with
  | "" => [String.rev cur]
  | String c s' =>
      if Ascii.eqb c sep then String.rev cur :: split_go sep "" s'
      else split_go sep (String c cur) s'
  end.

Definition split (sep : ascii) (s : QString) : list QString := split_go sep "" s.

(** [QString::split(sep, QString::SkipEmptyParts)]. *)
Definition split_SkipEmptyParts (sep : ascii) (s : QString) : list QString :=
  List.filter (fun f => negb (isEmpty f)) (split sep s).

(** [QString::mid(position, n)] for non-negative arguments: the result is
    clipped at the end of the string. *)
Definition mid (position n : nat) (s : QString) : QString :=
  String.substring position n s.

Fixpoint parseDigits (s : QString) (acc : Z) : option Z :=
  match s with
  | "" => Some acc
  | String c s' =>
      match QChar.digitValue c with
      | Some v => parseDigits s' (10 * acc + v)
      | None => None
      end
  end.

Definition INT_MIN : Z := - 2 ^ 31.
Definition INT_MAX : Z := 2 ^ 31 - 1.

(** [QString::toInt(&ok)] in base 10: surrounding white space is ignored,
    one sign is accepted, at least one digit is required and the value has
    to fit an [int]; on failure [ok] is false and the value is 0. *)
Definition toInt (s : QString) : bool * Z :=
  let t := trimmed s in
  let '(negative, body) :=
    match t with
    | String "-"%char r => (true, r)
    | String "+"%char r => (false, r)
    | _ => (false, t)
    end in
  if isEmpty body then (false, 0)
  else match parseDigits body 0 with
       | Some v =>
           let v' := if negative then - v else v in
           if (INT_MIN <=? v') && (v' <=? INT_MAX) then (true, v') else (false, 0)
       | None => (false, 0)
       end.

Definition LLONG_MIN : Z := - 2 ^ 63.
Definition LLONG_MAX : Z := 2 ^ 63 - 1.

(** [QString::toLongLong(&ok)] in base 10: as [toInt], the value having to
    fit a [qlonglong]. *)
Definition toLongLong (s : QString) : bool * Z :=
  let t := trimmed s in
  let '(negative, body) :=
    match t with
    | String "-"%char r => (true, r)
    | String "+"%char r => (false, r)
    | _ => (false, t)
    end in
  if isEmpty body then (false, 0)
  else match parseDigits body 0 with
       | Some v =>
           let v' := if negative then - v else v in
           if (LLONG_MIN <=? v') && (v' <=? LLONG_MAX) then (true, v') else (false, 0)
       | None => (false, 0)
       end.

(** The conversion "%d" of [sprintf]. *)
Definition format_d (z : Z) : QString := pretty z.

(** The conversion "%02d" of [sprintf]: zero padding up to two columns, the
    sign included. *)
Definition format_02d (z : Z) : QString :=
  let s := pretty z in
  if (String.length s <? 2)%nat then "0" +:+ s else s.

Fixpoint allDigits (s : QString) : bool :=
  match s with
  | "" => true
  | String c s' => QChar.isDigit c && allDigits s'
  end.

End QStr.

(** ** Connection names *)

(** [QString().sprintf(CONN_NAME_FORMAT, j, i)] with
    [CONN_NAME_FORMAT = "rdb%02d_%d"]. *)
Definition CONN_NAME (j i : Z) : QString :=
  "rdb" +:+ QStr.format_02d j +:+ "_" +:+ QStr.format_d i.

(** The grammar of connection names, [rdb[0-9]{2}_[0-9]+]. *)
Definition matches_conn_name_grammar (s : QString) : bool :=
  match s with
  | String "r" (String "d" (String "b" (String d1 (String d2 (String "_" rest))))) =>
      QChar.isDigit d1 && QChar.isDigit d2
      && QStr.allDigits rest && negb (QStr.isEmpty rest)
  | _ => false
  end.

(** ** Handles

    A [QSqlDatabase] value is a handle on a named connection: copies of it
    share the connection, which lives in the registry below. *)
Record QSqlDatabase := {
  isValid : bool;
  connectionName : QString;
}.

(** [QSqlDatabase()], the invalid object. *)
Definition QSqlDatabase_invalid : QSqlDatabase :=
  {| isValid := false; connectionName := "" |}.

(** [TSqlDatabasePool::getDatabaseId]. *)
Definition getDatabaseId (database : QSqlDatabase) : Z :=
  let '(ok, id) := QStr.toInt (QStr.mid 3 2 (connectionName database)) in
  if ok && (0 <=? id) then id else -1.

(** What the rendering "%02d" has to satisfy for an index to come back. *)
Definition two_digits_ok (d : Z) : bool :=
  match QStr.format_02d d with
  | String a (String b "") =>
      QChar.isDigit a && QChar.isDigit b
      && bool_decide (QStr.toInt (String a (String b "")) = (true, d))
  | _ => false
  end.

(** ** The registry of connections *)

(** Modelled from the spec: [TSqlDatabase] (tsqldatabase.cpp) wraps the
    connection behind a name: the handle, and what the setup applier sets on
    it, namely driver name, database name, host, port, credentials, connect
    options, the post-open statements, the upsert flag and the driver
    extension, together with the open state the driver keeps.  The pool
    reaches these through accessors only. *)
Record TSqlDatabase := {
  sqlDatabase : QSqlDatabase;
  driverName : QString;
  isOpen : bool;
  databaseName : QString;
  hostName : QString;
  port : Z;
  userName : QString;
  password : QString;
  connectOptions : QString;
  postOpenStatements : list QString;
  isUpsertEnabled : bool;
  driverExtension : option QString;
}.

(** [TSqlDatabase()], which wraps the invalid handle. *)
Definition TSqlDatabase_default : TSqlDatabase :=
  {| sqlDatabase := QSqlDatabase_invalid; driverName := ""; isOpen := false;
     databaseName := ""; hostName := ""; port := -1; userName := "";
     password := ""; connectOptions := ""; postOpenStatements := [];
     isUpsertEnabled := false; driverExtension := None |}.

Definition setIsOpen (b : bool) (db : TSqlDatabase) : TSqlDatabase :=
  {| sqlDatabase := sqlDatabase db; driverName := driverName db; isOpen := b;
     databaseName := databaseName db; hostName := hostName db; port := port db;
     userName := userName db; password := password db;
     connectOptions := connectOptions db;
     postOpenStatements := postOpenStatements db;
     isUpsertEnabled := isUpsertEnabled db;
     driverExtension := driverExtension db |}.

(** ** The host application and the driver layer *)

(** What [Tf::app()] answers.  The settings of a database are the string
    values of its keys, as read from the configuration file. *)
Record TWebApplication := {
  isSqlDatabaseAvailable : bool;
  sqlDatabaseSettingsCount : Z;
  maxNumberOfThreadsPerAppServer : Z;
  sqlDatabaseSettings : Z -> gmap QString QString;
  webRootPath : QString;
}.

(** What the pool asks of the driver layer while it registers slots. *)
Record SqlDriverLayer := {
  (** whether [QSqlDatabase::addDatabase(type, name)] yields a valid handle *)
  addDatabase_isValid : QString -> QString -> bool;
  (** whether [dbmsType()] of a driver is [TSqlDatabase::SQLite] *)
  dbmsType_isSQLite : QString -> bool;
  (** [QFileInfo(path).isRelative()] *)
  QFileInfo_isRelative : QString -> bool;
  (** [TSqlDriverExtensionFactory::create], keyed on the driver name *)
  TSqlDriverExtensionFactory_create : QString -> option QString;
}.

Module QVariant.

(** [settings.value(key).toString()]: a missing key reads as the empty
    string. *)
Definition toString (settings : gmap QString QString) (key : QString) : QString :=
  default "" (settings !! key).

(** The conversion of a [qlonglong] to [int]: the low 32 bits, read as a
    signed number. *)
Definition to_int (z : Z) : Z := (z + 2 ^ 31) mod 2 ^ 32 - 2 ^ 31.

(** [settings.value(key).toInt()]: the text is read with
    [QString::toLongLong] and the number narrowed to [int]; 0 when the text
    is not a number. *)
Definition toInt (settings : gmap QString QString) (key : QString) : Z :=
  to_int (snd (QStr.toLongLong (toString settings key))).

Definition toLower (c : ascii) : ascii :=
  let n := N_of_ascii c in
  if ((65 <=? n) && (n <=? 90))%N then ascii_of_N (n + 32) else c.

Fixpoint lower (s : QString) : QString :=
  match s with
  | "" => ""
  | String c s' => String (toLower c) (lower s')
  end.

(** [settings.value(key, false).toBool()]: false for a missing key and for
    the texts "", "0" and "false" in any case. *)
Definition toBool (settings : gmap QString QString) (key : QString) : bool :=
  match settings !! key with
  | None => false
  | Some s =>
      let l := lower s in
      negb (String.eqb l "" || String.eqb l "0" || String.eqb l "false")
  end.

End QVariant.

(** ** The pool *)

(** Modelled from the spec: [TStack<QString>] (tstack.h) is a LIFO container
    whose [push] never fails and whose [pop] yields the last name pushed, or
    false when it is empty.  A stack is a list with its top at the head.

    The record has the members of [TSqlDatabasePool], the three arrays being
    indexed by database id, and with them the two pieces of process-wide
    state its methods work on: the dictionary of [TSqlDatabase] objects and
    the statements sent through [TSqlQuery::exec]. *)
Record TSqlDatabasePool := {
  maxConnects : Z;
  cachedDatabase : list (list QString);
  lastCachedTime : list Z;
  availableNames : list (list QString);
  timer : option Z;
  dbDict : gmap QString TSqlDatabase;
  executed : list (QString * QString);
}.

Definition set_cachedDatabase (v : list (list QString)) (p : TSqlDatabasePool) :=
  {| maxConnects := maxConnects p; cachedDatabase := v;
     lastCachedTime := lastCachedTime p; availableNames := availableNames p;
     timer := timer p; dbDict := dbDict p; executed := executed p |}.

Definition set_lastCachedTime (v : list Z) (p : TSqlDatabasePool) :=
  {| maxConnects := maxConnects p; cachedDatabase := cachedDatabase p;
     lastCachedTime := v; availableNames := availableNames p;
     timer := timer p; dbDict := dbDict p; executed := executed p |}.

Definition set_availableNames (v : list (list QString)) (p : TSqlDatabasePool) :=
  {| maxConnects := maxConnects p; cachedDatabase := cachedDatabase p;
     lastCachedTime := lastCachedTime p; availableNames := v;
     timer := timer p; dbDict := dbDict p; executed := executed p |}.

Definition set_timer (v : option Z) (p : TSqlDatabasePool) :=
  {| maxConnects := maxConnects p; cachedDatabase := cachedDatabase p;
     lastCachedTime := lastCachedTime p; availableNames := availableNames p;
     timer := v; dbDict := dbDict p; executed := executed p |}.

Definition set_dbDict (v : gmap QString TSqlDatabase) (p : TSqlDatabasePool) :=
  {| maxConnects := maxConnects p; cachedDatabase := cachedDatabase p;
     lastCachedTime := lastCachedTime p; availableNames := availableNames p;
     timer := timer p; dbDict := v; executed := executed p |}.

Definition set_executed (v : list (QString * QString)) (p : TSqlDatabasePool) :=
  {| maxConnects := maxConnects p; cachedDatabase := cachedDatabase p;
     lastCachedTime := lastCachedTime p; availableNames := availableNames p;
     timer := timer p; dbDict := dbDict p; executed := v |}.

(** Array subscripts.  An index outside the array is undefined behaviour in
    the source: the model has no result there ([None]). *)
Definition at_index {A} (arr : list A) (i : Z) : option A :=
  if 0 <=? i then arr !! Z.to_nat i else None.

Definition store_index {A} (arr : list A) (i : Z) (x : A) : option (list A) :=
  if (0 <=? i) && (i <? Z.of_nat (List.length arr)) then Some (<[Z.to_nat i := x]> arr)
  else None.

(** [TSqlDatabase::database(name)]: the registered object, or a default one
    when the name is unknown. *)
Definition TSqlDatabase_database (p : TSqlDatabasePool) (name : QString) : TSqlDatabase :=
  default TSqlDatabase_default (dbDict p !! name).

(** [availableNames[id].push(name)] *)
Definition push_available (id : Z) (name : QString) (p : TSqlDatabasePool)
  : option TSqlDatabasePool :=
  stack ← at_index (availableNames p) id;
  arr ← store_index (availableNames p) id (name :: stack);
  Some (set_availableNames arr p).

(** [cachedDatabase[id].push(name)] *)
Definition push_cached (id : Z) (name : QString) (p : TSqlDatabasePool)
  : option TSqlDatabasePool :=
  stack ← at_index (cachedDatabase p) id;
  arr ← store_index (cachedDatabase p) id (name :: stack);
  Some (set_cachedDatabase arr p).

(** [(uint)std::time(nullptr)] for the clock reading [now]. *)
Definition to_uint (now : Z) : Z := now mod 2 ^ 32.

(** What a call of [database] gives its caller: a handle, or the
    [RuntimeException] it throws. *)
Inductive Outcome :=
| Returns (db : QSqlDatabase)
| Throws (what : QString).

Section Pool.

Context (app : TWebApplication) (drv : SqlDriverLayer).

(** The static function [driverType]. *)
Definition driverType (databaseId : Z) : QString :=
  QStr.trimmed (QVariant.toString (sqlDatabaseSettings app databaseId) "DriverType").

(** Modelled from the spec: [TSqlDatabase::addDatabase] (tsqldatabase.cpp)
    is the registry's [add(driverType, name)]: it creates the connection
    behind [name], closed and with the driver's default parameters, stores
    it under that name and returns a reference to the stored object.  The
    handle is valid when the driver layer knows the type. *)
Definition new_connection (type name : QString) : TSqlDatabase :=
  {| sqlDatabase := {| isValid := addDatabase_isValid drv type name;
                       connectionName := name |};
     driverName := type; isOpen := false;
     databaseName := ""; hostName := ""; port := -1; userName := "";
     password := ""; connectOptions := ""; postOpenStatements := [];
     isUpsertEnabled := false; driverExtension := None |}.

Definition TSqlDatabase_addDatabase (type name : QString) (p : TSqlDatabasePool)
  : TSqlDatabase * TSqlDatabasePool :=
  let db := new_connection type name in
  (db, set_dbDict (<[name := db]> (dbDict p)) p).

(** [TSqlDatabasePool::setDatabaseSettings]: the result, and the object
    [database] refers to after the call. *)
Definition setDatabaseSettings (database : TSqlDatabase) (databaseId : Z)
  : bool * TSqlDatabase :=
  let settings := sqlDatabaseSettings app databaseId in
  let databaseName := QStr.trimmed (QVariant.toString settings "DatabaseName") in
  if QStr.isEmpty databaseName then (false, database)
  else
    let databaseName :=
      if dbmsType_isSQLite drv (driverName database) then
        if negb (QStr.contains ":" databaseName) then
          if QFileInfo_isRelative drv databaseName
          then webRootPath app +:+ databaseName
          else databaseName
        else databaseName
      else databaseName in
    let hostName' := QStr.trimmed (QVariant.toString settings "HostName") in
    let port' := QVariant.toInt settings "Port" in
    let userName' := QStr.trimmed (QVariant.toString settings "UserName") in
    let password' := QStr.trimmed (QVariant.toString settings "Password") in
    let connectOptions' := QStr.trimmed (QVariant.toString settings "ConnectOptions") in
    let postOpenStatements' :=
      QStr.split_SkipEmptyParts ";"
        (QStr.trimmed (QVariant.toString settings "PostOpenStatements")) in
    let enableUpsert := QVariant.toBool settings "EnableUpsert" in
    (true,
     {| sqlDatabase := sqlDatabase database;
        driverName := driverName database;
        isOpen := isOpen database;
        databaseName := databaseName;
        hostName := if QStr.isEmpty hostName' then hostName database else hostName';
        port := if 0 <? port' then port' else port database;
        userName := if QStr.isEmpty userName' then userName database else userName';
        password := if QStr.isEmpty password' then password database else password';
        connectOptions :=
          if QStr.isEmpty connectOptions' then connectOptions database
          else connectOptions';
        postOpenStatements :=
          match postOpenStatements' with
          | [] => postOpenStatements database
          | _ => postOpenStatements'
          end;
        isUpsertEnabled := enableUpsert;
        driverExtension := TSqlDriverExtensionFactory_create drv (driverName database) |}).

(** The inner loop of [init], [for (int i = 0; i < maxConnects; ++i)], with
    [n] iterations left. *)
Fixpoint init_slots (j : Z) (type : QString) (n : nat) (i : Z)
    (p : TSqlDatabasePool) : option TSqlDatabasePool :=
  match n with
  | O => Some p
  | S n' =>
      let '(db, p) := TSqlDatabase_addDatabase type (CONN_NAME j i) p in
      if negb (isValid (sqlDatabase db)) then Some p
      else
        let '(_, db) := setDatabaseSettings db j in
        let p := set_dbDict (<[connectionName (sqlDatabase db) := db]> (dbDict p)) p in
        p ← push_available j (connectionName (sqlDatabase db)) p;
        init_slots j type n' (i + 1) p
  end.

(** The outer loop of [init], over the database ids, with [n] ids left. *)
Fixpoint init_databases (n : nat) (j : Z) (aval : bool)
    (p : TSqlDatabasePool) : option (bool * TSqlDatabasePool) :=
  match n with
  | O => Some (aval, p)
  | S n' =>
      let type := driverType j in
      if QStr.isEmpty type then init_databases n' (j + 1) aval p
      else
        p ← init_slots j type (Z.to_nat (maxConnects p)) 0 p;
        init_databases n' (j + 1) true p
  end.

(** [TSqlDatabasePool::init]. *)
Definition init (p : TSqlDatabasePool) : option TSqlDatabasePool :=
  if negb (isSqlDatabaseAvailable app) then Some p
  else
    let count := Z.to_nat (sqlDatabaseSettingsCount app) in
    let p := set_cachedDatabase (replicate count []) p in
    let p := set_lastCachedTime (replicate count 0) p in
    let p := set_availableNames (replicate count []) p in
    '(aval, p) ← init_databases count 0 false p;
    Some (if aval : bool then set_timer (Some 10000) p else p).

(** [TSqlDatabasePool::instance], on first use. *)
Definition instance : option TSqlDatabasePool :=
  init {| maxConnects := maxNumberOfThreadsPerAppServer app;
          cachedDatabase := []; lastCachedTime := []; availableNames := [];
          timer := None; dbDict := ∅; executed := [] |}.

(** [query.exec(st)] on the connection [name]. *)
Definition TSqlQuery_exec (name st : QString) (p : TSqlDatabasePool) : TSqlDatabasePool :=
  set_executed (executed p ++ [(name, st)]) p.

(** The loop [for (;;)] of [database].  [open name] tells whether the
    driver's [open()] succeeds on that connection.  The loop has no bound
    in the source: [fuel] bounds the iterations the model follows, and
    [None] is also the answer when it runs out. *)
Fixpoint database_loop (open : QString -> bool) (databaseId : Z) (fuel : nat)
    (p : TSqlDatabasePool) : option (Outcome * TSqlDatabasePool) :=
  match fuel with
  | O => None
  | S fuel' =>
      cache ← at_index (cachedDatabase p) databaseId;
      match cache with
      | name :: cache' =>
          arr ← store_index (cachedDatabase p) databaseId cache';
          let p := set_cachedDatabase arr p in
          let tdb := TSqlDatabase_database p name in
          if isOpen tdb then Some (Returns (sqlDatabase tdb), p)
          else
            p ← push_available databaseId name p;
            database_loop open databaseId fuel' p
      | [] =>
          stack ← at_index (availableNames p) databaseId;
          match stack with
          | name :: stack' =>
              arr ← store_index (availableNames p) databaseId stack';
              let p := set_availableNames arr p in
              let tdb := TSqlDatabase_database p name in
              if isOpen tdb then Some (Returns (sqlDatabase tdb), p)
              else if negb (open name) then
                p ← push_available databaseId name p;
                Some (Returns QSqlDatabase_invalid, p)
              else
                let p := set_dbDict (alter (setIsOpen true) name (dbDict p)) p in
                let p :=
                  fold_left
                    (fun p st =>
                       TSqlQuery_exec (connectionName (sqlDatabase tdb)) (QStr.trimmed st) p)
                    (postOpenStatements tdb) p in
                Some (Returns (sqlDatabase tdb), p)
          | [] => database_loop open databaseId fuel' p
          end
      end
  end.

(** [TSqlDatabasePool::database]. *)
Definition database (open : QString -> bool) (fuel : nat) (databaseId : Z)
    (p : TSqlDatabasePool) : option (Outcome * TSqlDatabasePool) :=
  if negb (isSqlDatabaseAvailable app)
  then Some (Returns (sqlDatabase TSqlDatabase_default), p)
  else if (0 <=? databaseId) && (databaseId <? sqlDatabaseSettingsCount app)
  then database_loop open databaseId fuel p
  else Some (Throws "No pooled connection", p).

(** [TSqlDatabasePool::closeDatabase]. *)
Definition closeDatabase (database : QSqlDatabase) (p : TSqlDatabasePool)
  : option TSqlDatabasePool :=
  let id := getDatabaseId database in
  let name := connectionName database in
  let p := set_dbDict (alter (setIsOpen false) name (dbDict p)) p in
  push_available id name p.

(** [TSqlDatabasePool::pool]: the pool after the call and the value left in
    the caller's [database]; [now] is the reading of [std::time]. *)
Definition pool (now : Z) (database : QSqlDatabase) (forceClose : bool)
    (p : TSqlDatabasePool) : option (TSqlDatabasePool * QSqlDatabase) :=
  p ← (if isValid database then
         let databaseId := getDatabaseId database in
         if (0 <=? databaseId) && (databaseId <? sqlDatabaseSettingsCount app) then
           if forceClose then closeDatabase database p
           else
             p ← push_cached databaseId (connectionName database) p;
             arr ← store_index (lastCachedTime p) databaseId (to_uint now);
             Some (set_lastCachedTime arr p)
         else Some p
       else Some p);
  Some (p, QSqlDatabase_invalid).

(** The [while] loop of [timerEvent] for database [i]; [cache] is the
    content of [cachedDatabase[i]], which the loop pops from. *)
Fixpoint timerEvent_while (now : Z) (i : Z) (cache : list QString)
    (p : TSqlDatabasePool) : option TSqlDatabasePool :=
  t ← at_index (lastCachedTime p) i;
  if t <? to_uint (to_uint now - 30) then
    match cache with
    | name :: cache' =>
        arr ← store_index (cachedDatabase p) i cache';
        let p := set_cachedDatabase arr p in
        let db := sqlDatabase (TSqlDatabase_database p name) in
        p ← closeDatabase db p;
        timerEvent_while now i cache' p
    | [] => Some p
    end
  else Some p.

(** The [for] loop of [timerEvent], with [n] database ids left. *)
Fixpoint timerEvent_for (now : Z) (n : nat) (i : Z) (p : TSqlDatabasePool)
  : option TSqlDatabasePool :=
  match n with
  | O => Some p
  | S n' =>
      cache ← at_index (cachedDatabase p) i;
      p ← (if (List.length cache =? 0)%nat then Some p
           else timerEvent_while now i cache p);
      timerEvent_for now n' (i + 1) p
  end.

(** [TSqlDatabasePool::timerEvent]; [ownTimer] tells whether the event is
    the pool's timer, [now] is the reading of [std::time] during the
    event. *)
Definition timerEvent (ownTimer : bool) (now : Z) (p : TSqlDatabasePool)
  : option TSqlDatabasePool :=
  if ownTimer then timerEvent_for now (Z.to_nat (sqlDatabaseSettingsCount app)) 0 p
  else Some p.

End Pool.

(** The three arrays have one entry per configured database, as [init]
    allocates them. *)
Definition arrays_sized (app : TWebApplication) (p : TSqlDatabasePool) : Prop :=
  List.length (cachedDatabase p) = Z.to_nat (sqlDatabaseSettingsCount app)
  /\ List.length (availableNames p) = Z.to_nat (sqlDatabaseSettingsCount app)
  /\ List.length (lastCachedTime p) = Z.to_nat (sqlDatabaseSettingsCount app).

(** ** Concrete configurations used to exercise the statements *)

Module Sample.

Definition settings : gmap QString QString :=
  list_to_map [("DriverType", "QSQLITE"); ("DatabaseName", "test.db");
               ("PostOpenStatements", "PRAGMA a ;PRAGMA b")].

(** One database, two workers. *)
Definition app : TWebApplication :=
  {| isSqlDatabaseAvailable := true; sqlDatabaseSettingsCount := 1;
     maxNumberOfThreadsPerAppServer := 2;
     sqlDatabaseSettings := fun _ => settings;
     webRootPath := "/srv/app/" |}.

(** The same host with the SQL subsystem switched off. *)
Definition app_off : TWebApplication :=
  {| isSqlDatabaseAvailable := false; sqlDatabaseSettingsCount := 1;
     maxNumberOfThreadsPerAppServer := 2;
     sqlDatabaseSettings := fun _ => settings;
     webRootPath := "/srv/app/" |}.

(** The same host with no database name configured. *)
Definition app_noname : TWebApplication :=
  {| isSqlDatabaseAvailable := true; sqlDatabaseSettingsCount := 1;
     maxNumberOfThreadsPerAppServer := 2;
     sqlDatabaseSettings := fun _ => list_to_map [("DriverType", "QSQLITE")];
     webRootPath := "/srv/app/" |}.

(** The same host with blank fragments among the post-open statements. *)
Definition app_blank_fragment : TWebApplication :=
  {| isSqlDatabaseAvailable := true; sqlDatabaseSettingsCount := 1;
     maxNumberOfThreadsPerAppServer := 2;
     sqlDatabaseSettings :=
       fun _ => list_to_map [("DriverType", "QSQLITE"); ("DatabaseName", "test.db");
                             ("PostOpenStatements", " ;PRAGMA a; ;PRAGMA b")];
     webRootPath := "/srv/app/" |}.

Definition drv : SqlDriverLayer :=
  {| addDatabase_isValid := fun _ _ => true;
     dbmsType_isSQLite := fun t => String.eqb t "QSQLITE";
     QFileInfo_isRelative :=
       fun s => match s with String "/" _ => false | _ => true end;
     TSqlDriverExtensionFactory_create := fun t => Some t |}.

(** A driver layer that refuses the second slot of every database. *)
Definition drv_second_invalid : SqlDriverLayer :=
  {| addDatabase_isValid := fun _ name => negb (String.eqb name "rdb00_1");
     dbmsType_isSQLite := fun t => String.eqb t "QSQLITE";
     QFileInfo_isRelative :=
       fun s => match s with String "/" _ => false | _ => true end;
     TSqlDriverExtensionFactory_create := fun t => Some t |}.

(** The pool right after [instance()]. *)
Definition fresh : TSqlDatabasePool :=
  Eval vm_compute in default
    {| maxConnects := 0; cachedDatabase := []; lastCachedTime := [];
       availableNames := []; timer := None; dbDict := ∅; executed := [] |}
    (instance app drv).

(** The pool of the host whose SQL subsystem is off: [init] returns before
    it allocates anything. *)
Definition fresh_off : TSqlDatabasePool :=
  Eval vm_compute in default
    {| maxConnects := 0; cachedDatabase := []; lastCachedTime := [];
       availableNames := []; timer := None; dbDict := ∅; executed := [] |}
    (instance app_off drv).

Definition always (b : bool) : QString -> bool := fun _ => b.

(** The pool after one worker has borrowed a connection of database 0 and
    returned it at time 1000. *)
Definition warm : TSqlDatabasePool :=
  Eval vm_compute in default fresh
    ('(out, p) ← database app (always true) 1 0 fresh;
     match out with
     | Returns h => fst <$> pool app 1000 h false p
     | Throws _ => None
     end).

End Sample.


(** ** The specification's reading of PostOpenStatements *)

(** The parse as the specification words it: split on [;], drop the empty
    fragments, trim each fragment. *)
Definition spec_parse_postOpenStatements (s : QString) : list QString :=
  QStr.trimmed <$> List.filter (fun f => negb (QStr.isEmpty f)) (QStr.split ";" s).

(** The other order the same words allow: split on [;], trim each fragment,
    drop the empty ones. *)
Definition spec_parse_postOpenStatements_trim_first (s : QString) : list QString :=
  List.filter (fun f => negb (QStr.isEmpty f)) (QStr.trimmed <$> QStr.split ";" s).

(** What the replay on a successful open sends through [TSqlQuery::exec] for
    a stored list, on connection [name]. *)
Definition replayed (name : QString) (stored : list QString) : list (QString * QString) :=
  (fun st => (name, QStr.trimmed st)) <$> stored.

(** ** What [init] registers *)

Section Registered.

Context (app : TWebApplication) (drv : SqlDriverLayer).

(** The number of slots of database [j], counted from slot [i] with [n]
    slots to go, that the driver layer accepts before it first refuses
    one. *)
Fixpoint valid_slots (type : QString) (j : Z) (n : nat) (i : Z) : nat :=
  match n with
  | O => O
  | S n' =>
      if addDatabase_isValid drv type (CONN_NAME j i)
      then S (valid_slots type j n' (i + 1))
      else O
  end.

(** The names of [k] consecutive slots of database [j], from slot [i]. *)
Definition slot_names (j i : Z) (k : nat) : list QString :=
  (fun x => CONN_NAME j (i + Z.of_nat x)) <$> seq 0 k.

(** The slots [init] sets up for database [d]. *)
Definition slot_count (d : Z) : nat :=
  if QStr.isEmpty (driverType app d) then O
  else valid_slots (driverType app d) d
         (Z.to_nat (maxNumberOfThreadsPerAppServer app)) 0.

Definition registered (d : Z) : list QString := slot_names d 0 (slot_count d).

(** The names [init] passes to [addDatabase] for database [d]: the slots it
    sets up and, when there is one, the slot the driver layer refused. *)
Definition touched (d : Z) : list QString :=
  if QStr.isEmpty (driverType app d) then []
  else slot_names d 0
         (Nat.min (S (slot_count d)) (Z.to_nat (maxNumberOfThreadsPerAppServer app))).

(** The object behind a slot once [init] has set it up. *)
Definition slot_entry (d : Z) (name : QString) : TSqlDatabase :=
  snd (setDatabaseSettings app drv (new_connection drv (driverType app d) name) d).

End Registered.

(** ** Pools the reaper can work on *)

(** The handle the registry holds for a name. *)
Definition handle_of (p : TSqlDatabasePool) (name : QString) : QSqlDatabase :=
  sqlDatabase (TSqlDatabase_database p name).

(** A name belongs to stack [d] when the registry holds it under that very
    name and [getDatabaseId] reads [d] from it. *)
Definition belongs_to (p : TSqlDatabasePool) (d : Z) (name : QString) : Prop :=
  connectionName (handle_of p name) = name /\ getDatabaseId (handle_of p name) = d.

(** Every name on a cached stack belongs to that stack: [pool] pushes a
    name on the stack that [getDatabaseId] gives for it. *)
Definition cached_names_wf (p : TSqlDatabasePool) : Prop :=
  forall d cache name,
    at_index (cachedDatabase p) d = Some cache -> name ∈ cache -> belongs_to p d name.

(** The connections a sweep closes. *)
Definition close_all (names : list QString) (dict : gmap QString TSqlDatabase)
  : gmap QString TSqlDatabase :=
  fold_left (fun m name => alter (setIsOpen false) name m) names dict.

(** The idle test of the reaper, in [uint] arithmetic. *)
Definition idle_too_long (now t : Z) : bool := t <? to_uint (to_uint now - 30).

(** What a sweep at time [now] does to database [d], from pool [p] to pool
    [p']. *)
Definition reaped (now : Z) (p p' : TSqlDatabasePool) (d : Z) : Prop :=
  forall t cache stack,
    at_index (lastCachedTime p) d = Some t ->
    at_index (cachedDatabase p) d = Some cache ->
    at_index (availableNames p) d = Some stack ->
    (idle_too_long now t = true ->
     at_index (cachedDatabase p') d = Some []
     /\ at_index (availableNames p') d = Some (rev cache ++ stack)
     /\ forall name, name ∈ cache -> isOpen (TSqlDatabase_database p' name) = false)
    /\ (idle_too_long now t = false \/ cache = [] ->
        at_index (cachedDatabase p') d = Some cache
        /\ at_index (availableNames p') d = Some stack).

(** The body of the [for] loop of [timerEvent], for database [i]. *)
Definition timerEvent_body (now i : Z) (p : TSqlDatabasePool) : option TSqlDatabasePool :=
  cache ← at_index (cachedDatabase p) i;
  if (List.length cache =? 0)%nat then Some p else timerEvent_while now i cache p.

Module SampleRun.

(** The pool of [Sample] after one successful [database(0)]. *)
Definition after_acquire : TSqlDatabasePool :=
  Eval vm_compute in default Sample.fresh
    (snd <$> database Sample.app (Sample.always true) 1 0 Sample.fresh).

End SampleRun.

(** ** The pool and its borrowers

    A name that [database] has handed out is in neither stack until [pool]
    gets the handle back.  [inUse d] lists the names borrowed from database
    [d]; it is not a member of the pool but the sum of what the workers hold. *)
Record System := {
  the_pool : TSqlDatabasePool;
  inUse : Z -> list QString;
}.

(** [inUse] with the list of database [d] replaced. *)
Definition set_inUse (d : Z) (names : list QString) (inuse : Z -> list QString)
  : Z -> list QString :=
  fun d' => if bool_decide (d' = d) then names else inuse d'.

Section Steps.

Context (app : TWebApplication) (drv : SqlDriverLayer).

(** One completed operation on the pool: a call of [database], whatever it
    gives; a call of [pool] on a handle a worker has borrowed, or on an
    invalid handle; a timer event. *)
Inductive step : System -> System -> Prop :=
| step_acquire open fuel d p inuse h p' :
    database app open fuel d p = Some (Returns h, p') ->
    isValid h = true ->
    step {| the_pool := p; inUse := inuse |}
         {| the_pool := p';
            inUse := set_inUse d (connectionName h :: inuse d) inuse |}
| step_acquire_invalid open fuel d p inuse h p' :
    database app open fuel d p = Some (Returns h, p') ->
    isValid h = false ->
    step {| the_pool := p; inUse := inuse |} {| the_pool := p'; inUse := inuse |}
| step_acquire_throws open fuel d p inuse what p' :
    database app open fuel d p = Some (Throws what, p') ->
    step {| the_pool := p; inUse := inuse |} {| the_pool := p'; inUse := inuse |}
| step_release now name forceClose d before after p inuse p' h' :
    inuse d = before ++ name :: after ->
    pool app now {| isValid := true; connectionName := name |} forceClose p
    = Some (p', h') ->
    step {| the_pool := p; inUse := inuse |}
         {| the_pool := p'; inUse := set_inUse d (before ++ after) inuse |}
| step_release_invalid now h forceClose p inuse p' h' :
    isValid h = false ->
    pool app now h forceClose p = Some (p', h') ->
    step {| the_pool := p; inUse := inuse |} {| the_pool := p'; inUse := inuse |}
| step_timer ownTimer now p inuse p' :
    timerEvent app ownTimer now p = Some p' ->
    step {| the_pool := p; inUse := inuse |} {| the_pool := p'; inUse := inuse |}.

(** The states of a run: [instance()] first, with nothing borrowed, then
    any sequence of operations. *)
Inductive reachable : System -> Prop :=
| reachable_instance p :
    instance app drv = Some p ->
    reachable {| the_pool := p; inUse := fun _ => [] |}
| reachable_step s s' :
    reachable s -> step s s' -> reachable s'.

(** Name conservation as the specification states it, on the stacks
    alone: each database has [M] names on its two stacks, each once. *)
Definition stacks_hold_all_names (p : TSqlDatabasePool) : Prop :=
  forall d, 0 <= d < sqlDatabaseSettingsCount app ->
    exists avail cache,
      at_index (availableNames p) d = Some avail
      /\ at_index (cachedDatabase p) d = Some cache
      /\ (List.length avail + List.length cache
          = Z.to_nat (maxNumberOfThreadsPerAppServer app))%nat
      /\ NoDup (avail ++ cache).

(** The invariant of a run: the arrays are allocated; for each database
    the names on its two stacks and the names borrowed from it are the
    names [init] registered for it, each once; the registry holds a valid
    handle under each of these names; nothing is borrowed from an index
    that is no database. *)
Definition pool_invariant (s : System) : Prop :=
  arrays_sized app (the_pool s)
  /\ (forall d, 0 <= d < sqlDatabaseSettingsCount app ->
        exists avail cache,
          at_index (availableNames (the_pool s)) d = Some avail
          /\ at_index (cachedDatabase (the_pool s)) d = Some cache
          /\ avail ++ cache ++ inUse s d ≡ₚ registered app drv d)
  /\ (forall d name, 0 <= d < sqlDatabaseSettingsCount app ->
        name ∈ registered app drv d ->
        handle_of (the_pool s) name = {| isValid := true; connectionName := name |})
  /\ (forall d, ~ (0 <= d < sqlDatabaseSettingsCount app) -> inUse s d = []).

End Steps.

Module SampleSystem.

(** [Sample] right after [instance()]. *)
Definition started : System :=
  {| the_pool := Sample.fresh; inUse := fun _ => [] |}.

(** [Sample] with the connection "rdb00_1" borrowed by a worker. *)
Definition one_borrowed : System :=
  {| the_pool := SampleRun.after_acquire;
     inUse := set_inUse 0 ["rdb00_1"] (fun _ => []) |}.

End SampleSystem.

(** ** A host with a disabled database *)

Module SampleTwo.

(** Two configured databases, of which the second has no DriverType. *)
Definition app : TWebApplication :=
  {| isSqlDatabaseAvailable := true; sqlDatabaseSettingsCount := 2;
     maxNumberOfThreadsPerAppServer := 2;
     sqlDatabaseSettings := fun d => if d =? 0 then Sample.settings else ∅;
     webRootPath := "/srv/app/" |}.

End SampleTwo.

Module SampleStale.

(** [Sample.warm] after the database engine has dropped the cached
    connection behind the pool's back. *)
Definition dropped : TSqlDatabasePool :=
  Eval vm_compute in
    set_dbDict (alter (setIsOpen false) "rdb00_1" (dbDict Sample.warm)) Sample.warm.

End SampleStale.

(** What the rendering "%02d" of an index of three digits gives: its first two
    characters read back as the index without its last digit. *)
Definition three_digits_ok (d : Z) : bool :=
  match QStr.format_02d d with
  | String a (String b (String c "")) =>
      bool_decide (QStr.toInt (String a (String b "")) = (true, d / 10))
  | _ => false
  end.

Module Sample101.

(** A host with 101 databases of one worker each. *)
Definition app : TWebApplication :=
  {| isSqlDatabaseAvailable := true; sqlDatabaseSettingsCount := 101;
     maxNumberOfThreadsPerAppServer := 1;
     sqlDatabaseSettings := fun _ => Sample.settings;
     webRootPath := "/srv/app/" |}.

(** Its pool right after [instance()]. *)
Definition fresh : TSqlDatabasePool :=
  Eval vm_compute in default Sample.fresh (instance app Sample.drv).

End Sample101.

(** ** Teardown *)

(** Modelled from the spec: [TSqlDatabase::removeDatabase] (tsqldatabase.cpp)
    is the registry's [remove(name)]: the connection registered under the
    name is gone from the registry. *)
Definition TSqlDatabase_removeDatabase (name : QString) (p : TSqlDatabasePool)
  : TSqlDatabasePool :=
  set_dbDict (delete name (dbDict p)) p.

(** The first [while] loop of the destructor for database [j]; [cache] is the
    content of [cachedDatabase[j]], which the loop pops from. *)
Fixpoint destructor_while_cache (j : Z) (cache : list QString) (p : TSqlDatabasePool)
  : option TSqlDatabasePool :=
  match cache with
  | [] => Some p
  | name :: cache' =>
      arr ← store_index (cachedDatabase p) j cache';
      let p := set_cachedDatabase arr p in
      let db := sqlDatabase (TSqlDatabase_database p name) in
      let p := set_dbDict (alter (setIsOpen false) (connectionName db) (dbDict p)) p in
      let p := TSqlDatabase_removeDatabase name p in
      destructor_while_cache j cache' p
  end.

(** The second [while] loop of the destructor for database [j]; [stack] is
    the content of [availableNames[j]]. *)
Fixpoint destructor_while_stack (j : Z) (stack : list QString) (p : TSqlDatabasePool)
  : option TSqlDatabasePool :=
  match stack with
  | [] => Some p
  | name :: stack' =>
      arr ← store_index (availableNames p) j stack';
      let p := set_availableNames arr p in
      let p := TSqlDatabase_removeDatabase name p in
      destructor_while_stack j stack' p
  end.

(** The [for] loop of the destructor, with [n] database ids left. *)
Fixpoint destructor_for (n : nat) (j : Z) (p : TSqlDatabasePool)
  : option TSqlDatabasePool :=
  match n with
  | O => Some p
  | S n' =>
      cache ← at_index (cachedDatabase p) j;
      p ← destructor_while_cache j cache p;
      stack ← at_index (availableNames p) j;
      p ← destructor_while_stack j stack p;
      destructor_for n' (j + 1) p
  end.

(** [TSqlDatabasePool::~TSqlDatabasePool]: the timer is stopped, the stacks
    are drained and the three arrays are deleted.  What is left of the pool
    is the process-wide state: the registry and the executed statements. *)
Definition destructor (app : TWebApplication) (p : TSqlDatabasePool)
  : option TSqlDatabasePool :=
  let p := set_timer None p in
  p ← destructor_for (Z.to_nat (sqlDatabaseSettingsCount app)) 0 p;
  Some (set_cachedDatabase [] (set_lastCachedTime [] (set_availableNames [] p))).

(** The names on the two stacks of the databases [j .. j+n-1]. *)
Fixpoint names_on_stacks (p : TSqlDatabasePool) (n : nat) (j : Z) : list QString :=
  match n with
  | O => []
  | S n' =>
      default [] (at_index (cachedDatabase p) j)
      ++ default [] (at_index (availableNames p) j)
      ++ names_on_stacks p n' (j + 1)
  end.

(** The registry without the connections of the given names. *)
Definition remove_all (names : list QString) (dict : gmap QString TSqlDatabase)
  : gmap QString TSqlDatabase :=
  fold_left (fun m name => delete name m) names dict.

(** The registry holds every connection under its own name, and none under
    the empty name, as [addDatabase] with the names of [init] leaves it. *)
Definition registry_consistent (dict : gmap QString TSqlDatabase) : Prop :=
  map_Forall (fun name tdb => connectionName (sqlDatabase tdb) = name) dict
  /\ dict !! "" = None.

(** ** What a sweep closes *)

(** The names cached for the databases [j .. j+n-1] that have been idle too
    long at time [now]. *)
Fixpoint idle_names (now : Z) (p : TSqlDatabasePool) (n : nat) (j : Z) : list QString :=
  match n with
  | O => []
  | S n' =>
      match at_index (lastCachedTime p) j, at_index (cachedDatabase p) j with
      | Some t, Some cache => if idle_too_long now t then cache else []
      | _, _ => []
      end ++ idle_names now p n' (j + 1)
  end.

(** ** Open connections and the stacks *)

(** For database [d]: the connections whose names are on [availableNames[d]]
    are closed, those whose names are on [cachedDatabase[d]] or borrowed are
    open. *)
Definition open_state_at (p : TSqlDatabasePool) (inuse : Z -> list QString) (d : Z)
  : Prop :=
  forall avail cache,
    at_index (availableNames p) d = Some avail ->
    at_index (cachedDatabase p) d = Some cache ->
    (forall name, name ∈ avail -> isOpen (TSqlDatabase_database p name) = false)
    /\ (forall name, name ∈ cache ++ inuse d ->
                     isOpen (TSqlDatabase_database p name) = true).

Definition open_state_consistent (app : TWebApplication) (s : System) : Prop :=
  forall d, 0 <= d < sqlDatabaseSettingsCount app ->
            open_state_at (the_pool s) (inUse s) d.

Module SampleMinimal.

(** A host whose one database is configured with a driver and a name only. *)
Definition app : TWebApplication :=
  {| isSqlDatabaseAvailable := true; sqlDatabaseSettingsCount := 1;
     maxNumberOfThreadsPerAppServer := 2;
     sqlDatabaseSettings :=
       fun _ => list_to_map [("DriverType", "QPSQL"); ("DatabaseName", "blog")];
     webRootPath := "/srv/app/" |}.

End SampleMinimal.

Module SampleOpen.

(** [Sample.fresh] with the connection on top of the available stack opened
    behind the pool's back. *)
Definition opened : TSqlDatabasePool :=
  Eval vm_compute in
    set_dbDict (alter (setIsOpen true) "rdb00_1" (dbDict Sample.fresh)) Sample.fresh.

End SampleOpen.
(** ** Arrays and records: basic facts *)

Lemma pool_eta (p : TSqlDatabasePool) :
  {| maxConnects := maxConnects p; cachedDatabase := cachedDatabase p;
     lastCachedTime := lastCachedTime p; availableNames := availableNames p;
     timer := timer p; dbDict := dbDict p; executed := executed p |} = p.
Proof. by destruct p. Qed.

Lemma at_index_Some {A} (arr : list A) (i : Z) (x : A) :
  at_index arr i = Some x <-> 0 <= i /\ arr !! Z.to_nat i = Some x.
Proof.
  unfold at_index. destruct (Z.leb_spec 0 i); intuition (try lia; try discriminate).
Qed.

Lemma at_index_in_range {A} (arr : list A) (i : Z) :
  0 <= i < Z.of_nat (List.length arr) -> exists x, at_index arr i = Some x.
Proof.
  intros Hi. destruct (lookup_lt_is_Some_2 arr (Z.to_nat i)) as [x Hx]; [lia|].
  exists x. apply at_index_Some. split; [lia|done].
Qed.

Lemma at_index_range {A} (arr : list A) (i : Z) (x : A) :
  at_index arr i = Some x -> 0 <= i < Z.of_nat (List.length arr).
Proof.
  intros [Hi Hx]%at_index_Some. apply lookup_lt_Some in Hx. lia.
Qed.

Lemma store_index_Some {A} (arr : list A) (i : Z) (x : A) :
  0 <= i < Z.of_nat (List.length arr) ->
  store_index arr i x = Some (<[Z.to_nat i := x]> arr).
Proof.
  intros Hi. unfold store_index.
  destruct (Z.leb_spec 0 i); [|lia].
  destruct (Z.ltb_spec i (Z.of_nat (List.length arr))); [done|lia].
Qed.

Lemma store_index_inv {A} (arr arr' : list A) (i : Z) (x : A) :
  store_index arr i x = Some arr' ->
  0 <= i < Z.of_nat (List.length arr) /\ arr' = <[Z.to_nat i := x]> arr.
Proof.
  unfold store_index.
  destruct (Z.leb_spec 0 i); destruct (Z.ltb_spec i (Z.of_nat (List.length arr)));
    simpl; intros; simplify_eq; auto with lia.
Qed.

Lemma at_index_store_eq {A} (arr : list A) (i : Z) (x : A) :
  0 <= i < Z.of_nat (List.length arr) ->
  at_index (<[Z.to_nat i := x]> arr) i = Some x.
Proof.
  intros Hi. apply at_index_Some. split; [lia|].
  apply list_lookup_insert_eq. lia.
Qed.

Lemma at_index_store_ne {A} (arr : list A) (i j : Z) (x : A) :
  0 <= i -> i <> j ->
  at_index (<[Z.to_nat i := x]> arr) j = at_index arr j.
Proof.
  intros Hi Hne. unfold at_index. destruct (Z.leb_spec 0 j); [|done].
  apply list_lookup_insert_ne. lia.
Qed.

Lemma store_back {A} (arr : list A) (i : Z) (x y : A) :
  at_index arr i = Some x ->
  <[Z.to_nat i := x]> (<[Z.to_nat i := y]> arr) = arr.
Proof.
  intros [Hi Hx]%at_index_Some.
  rewrite list_insert_insert_eq. by apply list_insert_id.
Qed.

Lemma push_available_Some id name p stack :
  at_index (availableNames p) id = Some stack ->
  push_available id name p
  = Some (set_availableNames (<[Z.to_nat id := name :: stack]> (availableNames p)) p).
Proof.
  intros H. unfold push_available. rewrite H. simpl.
  rewrite store_index_Some; [done|]. by eapply at_index_range.
Qed.

Lemma push_cached_Some id name p stack :
  at_index (cachedDatabase p) id = Some stack ->
  push_cached id name p
  = Some (set_cachedDatabase (<[Z.to_nat id := name :: stack]> (cachedDatabase p)) p).
Proof.
  intros H. unfold push_cached. rewrite H. simpl.
  rewrite store_index_Some; [done|]. by eapply at_index_range.
Qed.


(** ** Acquire: the guards of [database] *)

(** C3: with the SQL subsystem available, [database(d)] for an index [d]
    outside [0, N) throws the runtime exception "No pooled connection"; no
    handle is returned and the pool is left as it was, whatever the loop
    bound. *)
Theorem database_out_of_range_throws app open fuel d p :
  isSqlDatabaseAvailable app = true ->
  ~ (0 <= d < sqlDatabaseSettingsCount app) ->
  database app open fuel d p = Some (Throws "No pooled connection", p).
Proof.
  intros Hav Hd. unfold database. rewrite Hav. simpl.
  destruct (Z.leb_spec 0 d); destruct (Z.ltb_spec d (sqlDatabaseSettingsCount app));
    simpl; try done; lia.
Qed.

Lemma database_out_of_range_throws_witness :
  database Sample.app (Sample.always true) 0 7 Sample.fresh
  = Some (Throws "No pooled connection", Sample.fresh).
Proof.
  apply database_out_of_range_throws; [reflexivity | simpl; lia].
Defined.

(** C4 as stated fails: with the subsystem unavailable [database] throws
    nothing. *)
Lemma database_unavailable_does_not_throw :
  ~ (exists what p',
        database Sample.app_off (Sample.always true) 1 0 Sample.fresh_off
        = Some (Throws what, p')).
Proof. intros (what & p' & H). vm_compute in H. discriminate. Qed.

(** C4 (amended): when [isSqlDatabaseAvailable()] is false, [database(d)]
    returns the invalid handle of a default [TSqlDatabase] for every [d], in
    range or not; it throws nothing and leaves the pool untouched. *)
Theorem database_unavailable_returns_invalid app open fuel d p :
  isSqlDatabaseAvailable app = false ->
  database app open fuel d p = Some (Returns QSqlDatabase_invalid, p)
  /\ isValid QSqlDatabase_invalid = false.
Proof. intros Hav. unfold database. by rewrite Hav. Qed.

Lemma database_unavailable_returns_invalid_witness :
  database Sample.app_off (Sample.always true) 0 7 Sample.fresh_off
  = Some (Returns QSqlDatabase_invalid, Sample.fresh_off)
  /\ isValid QSqlDatabase_invalid = false.
Proof. apply database_unavailable_returns_invalid. reflexivity. Defined.

Lemma database_in_range app open fuel d p :
  isSqlDatabaseAvailable app = true ->
  0 <= d < sqlDatabaseSettingsCount app ->
  database app open fuel d p = database_loop open d fuel p.
Proof.
  intros Hav Hd. unfold database. rewrite Hav.
  destruct (Z.leb_spec 0 d); [|lia].
  by destruct (Z.ltb_spec d (sqlDatabaseSettingsCount app)); [|lia].
Qed.

(** With a name on either stack of [d] the loop of [database] comes to an
    end: it needs one turn for each cached name it may have to recycle, and
    one more. *)
Lemma database_loop_terminates open d p avail cache :
  at_index (availableNames p) d = Some avail ->
  at_index (cachedDatabase p) d = Some cache ->
  avail ++ cache <> [] ->
  exists out p', database_loop open d (S (List.length cache)) p = Some (out, p').
Proof.
  revert p avail. induction cache as [|name cache IH]; intros p avail Ha Hc Hne.
  - cbn [List.length database_loop]. rewrite Hc. cbn [mbind option_bind]. rewrite Ha.
    cbn [mbind option_bind].
    destruct avail as [|name stack]; [by rewrite app_nil_r in Hne|].
    pose proof (at_index_range _ _ _ Ha) as Hr.
    rewrite store_index_Some by done. cbn [mbind option_bind].
    destruct (isOpen _); [by eexists _, _|].
    destruct (open name); cbn [negb]; [by eexists _, _|].
    erewrite push_available_Some by (cbn; by apply at_index_store_eq).
    by eexists _, _.
  - cbn [List.length]. cbn [database_loop]. rewrite Hc. cbn [mbind option_bind].
    pose proof (at_index_range _ _ _ Hc) as Hr.
    pose proof (at_index_range _ _ _ Ha) as Hr'.
    rewrite store_index_Some by done. cbn [mbind option_bind].
    destruct (isOpen _); [by eexists _, _|].
    erewrite push_available_Some by (cbn; exact Ha). cbn [mbind option_bind].
    apply (IH _ (name :: avail)); cbn; [by apply at_index_store_eq..|done].
Qed.

(** With both stacks of [d] empty the loop spins: no bound lets the model
    come to a result. *)
Lemma database_loop_spins open d fuel p :
  at_index (availableNames p) d = Some [] ->
  at_index (cachedDatabase p) d = Some [] ->
  database_loop open d fuel p = None.
Proof.
  intros Ha Hc. induction fuel as [|fuel IH]; [done|].
  cbn [database_loop]. rewrite Hc. cbn [mbind option_bind]. rewrite Ha.
  cbn [mbind option_bind]. done.
Qed.

(** ** Acquire: open failure on the slow path *)

(** C5: when [cachedDatabase[d]] is empty, so that [database(d)] takes the
    slow path, and [open()] fails on the name popped from
    [availableNames[d]], the call returns the invalid handle [QSqlDatabase()]
    and throws nothing; the name is back on top of [availableNames[d]], no
    statement has been executed, and indeed the whole pool is as before. *)
Theorem database_open_failure app open fuel d p name rest :
  isSqlDatabaseAvailable app = true ->
  0 <= d < sqlDatabaseSettingsCount app ->
  at_index (cachedDatabase p) d = Some [] ->
  at_index (availableNames p) d = Some (name :: rest) ->
  isOpen (TSqlDatabase_database p name) = false ->
  open name = false ->
  exists p',
    database app open (S fuel) d p = Some (Returns QSqlDatabase_invalid, p')
    /\ at_index (availableNames p') d = Some (name :: rest)
    /\ executed p' = executed p
    /\ p' = p.
Proof.
  intros Hav Hd Hc Ha Hclosed Hopen. exists p.
  split; [|done].
  unfold database. rewrite Hav. simpl.
  destruct (Z.leb_spec 0 d); [|lia].
  destruct (Z.ltb_spec d (sqlDatabaseSettingsCount app)); [|lia].
  simpl. rewrite Hc. simpl. rewrite Ha. simpl.
  pose proof (at_index_range _ _ _ Ha) as Hr.
  rewrite store_index_Some by done. simpl.
  change (TSqlDatabase_database (set_availableNames _ p) name)
    with (TSqlDatabase_database p name).
  rewrite Hclosed, Hopen. simpl.
  erewrite push_available_Some by (simpl; by apply at_index_store_eq).
  simpl. unfold set_availableNames. simpl.
  rewrite (store_back _ _ _ _ Ha). by rewrite pool_eta.
Qed.

Lemma database_open_failure_witness :
  exists p',
    database Sample.app (Sample.always false) 1 0 Sample.fresh
    = Some (Returns QSqlDatabase_invalid, p')
    /\ at_index (availableNames p') 0 = Some ["rdb00_1"; "rdb00_0"]
    /\ executed p' = executed Sample.fresh
    /\ p' = Sample.fresh.
Proof.
  apply (database_open_failure Sample.app (Sample.always false) 0 0 Sample.fresh
           "rdb00_1" ["rdb00_0"]); try reflexivity.
  simpl; lia.
Defined.

(** ** Release *)

(** C9: on a pool whose arrays [init] has allocated, [pool] always completes
    and leaves [QSqlDatabase()], the invalid object, in the caller's handle:
    for a handle pooled normally, force-closed, already invalid, or whose
    name yields no database id in range.  In the last two cases the pool is
    unchanged: no stack and no timestamp is touched. *)
Theorem pool_always_invalidates app now database forceClose p :
  arrays_sized app p ->
  exists p',
    pool app now database forceClose p = Some (p', QSqlDatabase_invalid)
    /\ (isValid database = false
        \/ ~ (0 <= getDatabaseId database < sqlDatabaseSettingsCount app) ->
        p' = p).
Proof.
  intros (Hc & Ha & Ht). unfold pool.
  destruct (isValid database) eqn:Hv; simpl.
  2: { exists p. split; [done|]. done. }
  destruct (Z.leb_spec 0 (getDatabaseId database)) as [H0|H0]; simpl.
  2: { exists p. split; [done|]. done. }
  destruct (Z.ltb_spec (getDatabaseId database) (sqlDatabaseSettingsCount app))
    as [H1|H1]; simpl.
  2: { exists p. split; [done|]. done. }
  destruct forceClose.
  - unfold closeDatabase.
    destruct (at_index_in_range (availableNames p) (getDatabaseId database))
      as [stack Hs]; [lia|].
    erewrite push_available_Some by (simpl; exact Hs). simpl.
    eexists. split; [done|]. intros [?|?]; [discriminate|lia].
  - destruct (at_index_in_range (cachedDatabase p) (getDatabaseId database))
      as [stack Hs]; [lia|].
    erewrite push_cached_Some by exact Hs. simpl.
    rewrite store_index_Some by lia. simpl.
    eexists. split; [done|]. intros [?|?]; [discriminate|lia].
Qed.

Lemma pool_always_invalidates_witness :
  exists p',
    pool Sample.app 1000 {| isValid := true; connectionName := "rdbxx_0" |} false
      Sample.fresh = Some (p', QSqlDatabase_invalid)
    /\ (isValid {| isValid := true; connectionName := "rdbxx_0" |} = false
        \/ ~ (0 <= getDatabaseId {| isValid := true; connectionName := "rdbxx_0" |}
              < sqlDatabaseSettingsCount Sample.app) ->
        p' = Sample.fresh).
Proof.
  apply pool_always_invalidates. repeat split.
Defined.

(** ** Connection names: rendering and parsing back *)

Lemma pretty_N_char_isDigit (x : N) : QChar.isDigit (pretty_N_char x) = true.
Proof. unfold pretty_N_char. by repeat case_match. Qed.

Lemma pretty_N_go_allDigits (x : N) (s : QString) :
  QStr.allDigits s = true -> QStr.allDigits (pretty_N_go x s) = true.
Proof.
  revert s. induction (N.lt_wf_0 x) as [x _ IH]. intros s Hs.
  destruct (decide (x = 0)%N) as [->|Hx].
  - by rewrite pretty_N_go_0.
  - rewrite pretty_N_go_step by lia. apply IH.
    + apply N.div_lt; lia.
    + simpl. by rewrite pretty_N_char_isDigit, Hs.
Qed.

Lemma pretty_N_go_nonempty (x : N) (s : QString) :
  s <> "" -> pretty_N_go x s <> "".
Proof.
  revert s. induction (N.lt_wf_0 x) as [x _ IH]. intros s Hs.
  destruct (decide (x = 0)%N) as [->|Hx].
  - by rewrite pretty_N_go_0.
  - rewrite pretty_N_go_step by lia. apply IH; [apply N.div_lt; lia | done].
Qed.

Lemma format_d_digits (i : Z) :
  0 <= i ->
  QStr.allDigits (QStr.format_d i) = true /\ QStr.isEmpty (QStr.format_d i) = false.
Proof.
  intros Hi. unfold QStr.format_d, pretty, pretty_Z.
  destruct i as [|q|q]; [done| |lia].
  unfold pretty, pretty_positive, pretty, pretty_N.
  case_decide; [done|].
  rewrite pretty_N_go_step by lia. split.
  - apply pretty_N_go_allDigits. simpl. by rewrite pretty_N_char_isDigit.
  - pose proof (pretty_N_go_nonempty (N.pos q `div` 10)
                  (String (pretty_N_char (N.pos q `mod` 10)) "")) as Hne.
    destruct (pretty_N_go _ _); [by destruct Hne|done].
Qed.

Lemma two_digits_ok_below_100 (d : Z) : 0 <= d < 100 -> two_digits_ok d = true.
Proof.
  intros Hd.
  assert (Hall : forallb two_digits_ok (Z.of_nat <$> seq 0 100) = true)
    by (vm_compute; reflexivity).
  rewrite forallb_forall in Hall. apply Hall.
  apply list_elem_of_In, list_elem_of_fmap. exists (Z.to_nat d).
  split; [lia|]. apply elem_of_seq. lia.
Qed.

Lemma CONN_NAME_shape (d i : Z) :
  0 <= d < 100 ->
  exists a b,
    CONN_NAME d i = String "r" (String "d" (String "b"
                      (String a (String b (String "_" (QStr.format_d i))))))
    /\ QChar.isDigit a = true /\ QChar.isDigit b = true
    /\ QStr.toInt (String a (String b "")) = (true, d).
Proof.
  intros Hd%two_digits_ok_below_100. unfold two_digits_ok in Hd.
  unfold CONN_NAME.
  destruct (QStr.format_02d d) as [|a [|b [|]]]; try done.
  apply andb_prop in Hd as [[Ha Hb]%andb_prop Hint%bool_decide_eq_true].
  by exists a, b.
Qed.

Lemma getDatabaseId_CONN_NAME (d i : Z) (valid : bool) :
  0 <= d < 100 ->
  getDatabaseId {| isValid := valid; connectionName := CONN_NAME d i |} = d.
Proof.
  intros Hd. destruct (CONN_NAME_shape d i Hd) as (a & b & Hn & _ & _ & Hint).
  unfold getDatabaseId. cbn [connectionName]. rewrite Hn.
  change (QStr.mid 3 2 _) with (String a (String b "")).
  rewrite Hint. destruct (Z.leb_spec 0 d); [done|lia].
Qed.

(** C8: for a database index [d] in [0, 100) and a slot index [i >= 0], the
    name [sprintf("rdb%02d_%d", d, i)] that [init] registers matches
    [rdb[0-9]{2}_[0-9]+], and [getDatabaseId], which reads the two characters
    at offsets 3 and 4 as a decimal number, gives back exactly [d]. *)
Theorem conn_name_roundtrip (d i : Z) (valid : bool) :
  0 <= d < 100 -> 0 <= i ->
  CONN_NAME d i = "rdb" +:+ QStr.format_02d d +:+ "_" +:+ QStr.format_d i
  /\ matches_conn_name_grammar (CONN_NAME d i) = true
  /\ QStr.mid 3 2 (CONN_NAME d i) = QStr.format_02d d
  /\ getDatabaseId {| isValid := valid; connectionName := CONN_NAME d i |} = d.
Proof.
  intros Hd Hi. split; [done|].
  destruct (CONN_NAME_shape d i Hd) as (a & b & Hn & Ha & Hb & Hint).
  destruct (format_d_digits i Hi) as [Hdig Hne].
  split; [|split].
  - rewrite Hn. simpl. by rewrite Ha, Hb, Hdig, Hne.
  - pose proof (two_digits_ok_below_100 d Hd) as Hok. unfold two_digits_ok in Hok.
    unfold CONN_NAME.
    destruct (QStr.format_02d d) as [|a' [|b' [|]]]; done.
  - by apply getDatabaseId_CONN_NAME.
Qed.

Lemma conn_name_roundtrip_witness :
  CONN_NAME 42 7 = "rdb" +:+ QStr.format_02d 42 +:+ "_" +:+ QStr.format_d 7
  /\ matches_conn_name_grammar (CONN_NAME 42 7) = true
  /\ QStr.mid 3 2 (CONN_NAME 42 7) = QStr.format_02d 42
  /\ getDatabaseId {| isValid := true; connectionName := CONN_NAME 42 7 |} = 42.
Proof. apply conn_name_roundtrip; lia. Defined.

(** ** Post-open statements *)

Lemma fold_exec_replayed (name : QString) (stored : list QString) (p : TSqlDatabasePool) :
  fold_left (fun p st => TSqlQuery_exec name (QStr.trimmed st) p) stored p
  = set_executed (executed p ++ replayed name stored) p.
Proof.
  revert p. induction stored as [|st stored IH]; intros p; simpl.
  - unfold set_executed. rewrite app_nil_r. by rewrite pool_eta.
  - rewrite IH. unfold TSqlQuery_exec, set_executed, replayed. simpl.
    by rewrite <- app_assoc.
Qed.

(** The slow path with a successful [open()]. *)
Lemma database_loop_open_success open fuel d p name rest :
  at_index (cachedDatabase p) d = Some [] ->
  at_index (availableNames p) d = Some (name :: rest) ->
  isOpen (TSqlDatabase_database p name) = false ->
  open name = true ->
  database_loop open d (S fuel) p
  = Some (Returns (sqlDatabase (TSqlDatabase_database p name)),
          set_executed
            (executed p
             ++ replayed (connectionName (sqlDatabase (TSqlDatabase_database p name)))
                  (postOpenStatements (TSqlDatabase_database p name)))
            (set_dbDict (alter (setIsOpen true) name (dbDict p))
               (set_availableNames (<[Z.to_nat d := rest]> (availableNames p)) p))).
Proof.
  intros Hc Ha Hclosed Hopen. simpl. rewrite Hc. simpl. rewrite Ha. simpl.
  rewrite store_index_Some by (by eapply at_index_range). simpl.
  change (TSqlDatabase_database (set_availableNames _ p) name)
    with (TSqlDatabase_database p name).
  rewrite Hclosed, Hopen. simpl. by rewrite fold_exec_replayed.
Qed.

(** C6 as stated fails: the list stored on the slot is not the list of
    trimmed fragments, and with a blank fragment in the string the statements
    executed on open are not that list either, in whichever order the
    fragments are trimmed and the empty ones dropped. *)
Lemma stored_statements_are_not_trimmed :
  let s := QVariant.toString (sqlDatabaseSettings Sample.app_blank_fragment 0)
             "PostOpenStatements" in
  let slot := snd (setDatabaseSettings Sample.app_blank_fragment Sample.drv
                     (new_connection Sample.drv "QSQLITE" "rdb00_1") 0) in
  postOpenStatements slot = ["PRAGMA a"; " "; "PRAGMA b"]
  /\ postOpenStatements slot <> spec_parse_postOpenStatements s
  /\ postOpenStatements slot <> spec_parse_postOpenStatements_trim_first s
  /\ exists p out p',
       instance Sample.app_blank_fragment Sample.drv = Some p
       /\ database Sample.app_blank_fragment (Sample.always true) 1 0 p = Some (out, p')
       /\ snd <$> executed p' = ["PRAGMA a"; ""; "PRAGMA b"]
       /\ snd <$> executed p' <> spec_parse_postOpenStatements s
       /\ snd <$> executed p' <> spec_parse_postOpenStatements_trim_first s.
Proof.
  cbv zeta. split; [reflexivity|]. split; [vm_compute; discriminate|].
  split; [vm_compute; discriminate|].
  eexists _, _, _. split; [vm_compute; reflexivity|].
  split; [vm_compute; reflexivity|].
  split; [reflexivity|]. split; vm_compute; discriminate.
Qed.

(** C6 (amended): when DatabaseName is not empty, [setDatabaseSettings] trims
    the whole PostOpenStatements string, splits it on [;] and drops the empty
    fragments; the fragments are stored on the slot as they are, in order,
    and when there is none the slot keeps the list it had.  On a successful
    open on the slow path of [database], each stored fragment is trimmed and
    executed on the connection, in the stored order, and nothing else is
    executed. *)
Theorem postOpenStatements_stored_and_replayed
    app drv open fuel d p name rest (db : TSqlDatabase) :
  let s := QVariant.toString (sqlDatabaseSettings app d) "PostOpenStatements" in
  let slot := snd (setDatabaseSettings app drv db d) in
  QStr.isEmpty (QStr.trimmed (QVariant.toString (sqlDatabaseSettings app d) "DatabaseName"))
  = false ->
  isSqlDatabaseAvailable app = true ->
  0 <= d < sqlDatabaseSettingsCount app ->
  dbDict p !! name = Some slot ->
  at_index (cachedDatabase p) d = Some [] ->
  at_index (availableNames p) d = Some (name :: rest) ->
  isOpen slot = false ->
  open name = true ->
  postOpenStatements slot
  = match QStr.split_SkipEmptyParts ";" (QStr.trimmed s) with
    | [] => postOpenStatements db
    | fragments => fragments
    end
  /\ exists p',
      database app open (S fuel) d p = Some (Returns (sqlDatabase slot), p')
      /\ executed p'
         = (executed p ++ replayed (connectionName (sqlDatabase slot))
                            (postOpenStatements slot))%list.
Proof.
  intros s slot Hname Hav Hd Hreg Hc Ha Hclosed Hopen. split.
  - subst slot. unfold setDatabaseSettings. rewrite Hname. simpl.
    subst s. by destruct (QStr.split_SkipEmptyParts _ _).
  - assert (Hslot : TSqlDatabase_database p name = slot)
      by (unfold TSqlDatabase_database; by rewrite Hreg).
    eexists. split.
    + rewrite database_in_range by done.
      rewrite (database_loop_open_success open fuel d p name rest Hc Ha);
        [|by rewrite Hslot|done].
      by rewrite Hslot.
    + done.
Qed.

Lemma postOpenStatements_stored_and_replayed_witness :
  let db := fst (TSqlDatabase_addDatabase Sample.drv "QSQLITE" "rdb00_1" Sample.fresh) in
  let slot := snd (setDatabaseSettings Sample.app Sample.drv db 0) in
  postOpenStatements slot = ["PRAGMA a "; "PRAGMA b"]
  /\ exists p',
      database Sample.app (Sample.always true) 1 0 Sample.fresh
      = Some (Returns (sqlDatabase slot), p')
      /\ executed p' = [("rdb00_1", "PRAGMA a"); ("rdb00_1", "PRAGMA b")].
Proof.
  apply (postOpenStatements_stored_and_replayed Sample.app Sample.drv
           (Sample.always true) 0 0 Sample.fresh "rdb00_1" ["rdb00_0"]);
    try reflexivity.
  simpl; lia.
Defined.

(** ** Connection names are pairwise distinct *)

Lemma pretty_N_go_no_leading_zero (x : N) (s r : QString) :
  (0 < x)%N -> pretty_N_go x s <> String "0" r.
Proof.
  revert s. induction (N.lt_wf_0 x) as [x _ IH]. intros s Hx.
  rewrite pretty_N_go_step by done.
  destruct (decide (x `div` 10 = 0)%N) as [Hq|Hq].
  - rewrite Hq, pretty_N_go_0.
    assert (x < 10)%N by (apply N.div_small_iff in Hq; lia).
    rewrite N.mod_small by done.
    assert (x = 1 \/ x = 2 \/ x = 3 \/ x = 4 \/ x = 5 \/ x = 6 \/ x = 7
            \/ x = 8 \/ x = 9)%N as Hcases.
    { clear -Hx H. lia. }
    intros Heq. injection Heq as Hc _. revert Hc.
    by repeat (destruct Hcases as [->|Hcases]; [done|]); subst.
  - apply IH; [apply N.div_lt; lia | by apply N.neq_0_lt_0].
Qed.

Lemma pretty_Z_no_leading_zero (z : Z) (r : QString) :
  0 < z -> pretty z <> String "0" r.
Proof.
  intros Hz. destruct z as [|q|q]; try lia.
  unfold pretty, pretty_Z, pretty, pretty_positive, pretty, pretty_N.
  case_decide; [done|]. by apply pretty_N_go_no_leading_zero.
Qed.

Lemma format_02d_digits (j : Z) : 0 <= j -> QStr.allDigits (QStr.format_02d j) = true.
Proof.
  intros Hj. destruct (format_d_digits j Hj) as [Hd _].
  unfold QStr.format_02d. unfold QStr.format_d in Hd. by case_match.
Qed.

Lemma format_02d_inj (j j' : Z) :
  0 <= j -> 0 <= j' -> QStr.format_02d j = QStr.format_02d j' -> j = j'.
Proof.
  assert (Hmixed : forall a b : Z,
             0 <= a -> 0 <= b ->
             (String.length (pretty a) <? 2)%nat = true ->
             (String.length (pretty b) <? 2)%nat = false ->
             "0" +:+ pretty a = pretty b -> False).
  { intros a b Ha Hb Hla Hlb Heq.
    destruct (decide (b = 0)) as [->|Hb0]; [done|].
    by apply (pretty_Z_no_leading_zero b (pretty a)); [lia|]. }
  intros Hj Hj'. unfold QStr.format_02d.
  destruct (String.length (pretty j) <? 2)%nat eqn:Hl;
    destruct (String.length (pretty j') <? 2)%nat eqn:Hl'; intros Heq.
  - apply (inj pretty). by injection Heq.
  - by destruct (Hmixed j j').
  - by destruct (Hmixed j' j).
  - by apply (inj pretty).
Qed.

Lemma digits_underscore_split (s1 s2 t1 t2 : QString) :
  QStr.allDigits s1 = true -> QStr.allDigits s2 = true ->
  s1 +:+ String "_" t1 = s2 +:+ String "_" t2 -> s1 = s2 /\ t1 = t2.
Proof.
  revert s2. induction s1 as [|c s1 IH]; intros [|c' s2] H1 H2 Heq; simpl in *.
  - by injection Heq.
  - injection Heq as <- _. done.
  - injection Heq as -> _. done.
  - injection Heq as -> Heq.
    apply andb_prop in H1 as [_ H1]. apply andb_prop in H2 as [_ H2].
    destruct (IH s2 H1 H2 Heq) as [-> ->]. done.
Qed.

Lemma CONN_NAME_inj (j j' i i' : Z) :
  0 <= j -> 0 <= j' -> CONN_NAME j i = CONN_NAME j' i' -> j = j' /\ i = i'.
Proof.
  intros Hj Hj' Heq. unfold CONN_NAME in Heq.
  apply (inj (String.app "rdb")) in Heq.
  apply digits_underscore_split in Heq as [Hd Hi]; [|by apply format_02d_digits..].
  split; [by apply format_02d_inj|]. by apply (inj pretty).
Qed.

Lemma CONN_NAME_inj_slot (j i i' : Z) : CONN_NAME j i = CONN_NAME j i' -> i = i'.
Proof.
  unfold CONN_NAME. intros Heq.
  apply (inj (String.app "rdb")), (inj (String.app (QStr.format_02d j))) in Heq.
  apply (inj (String.app "_")) in Heq. by apply (inj pretty).
Qed.

Lemma elem_of_slot_names (name : QString) (j i : Z) (k : nat) :
  name ∈ slot_names j i k <->
  exists x : nat, (x < k)%nat /\ name = CONN_NAME j (i + Z.of_nat x).
Proof.
  unfold slot_names. rewrite list_elem_of_fmap. split.
  - intros (x & -> & Hx%elem_of_seq). exists x. split; [lia|done].
  - intros (x & Hx & ->). exists x. split; [done|]. apply elem_of_seq. lia.
Qed.

Lemma slot_names_S (j i : Z) (k : nat) :
  slot_names j i (S k) = CONN_NAME j i :: slot_names j (i + 1) k.
Proof.
  unfold slot_names. simpl. rewrite Z.add_0_r. f_equal.
  rewrite <- fmap_S_seq, <- list_fmap_compose. apply list_fmap_ext.
  intros _ x _. simpl. f_equal. lia.
Qed.

Lemma slot_names_NoDup (j i : Z) (k : nat) : NoDup (slot_names j i k).
Proof.
  unfold slot_names. apply NoDup_fmap_2_strong; [|apply NoDup_seq].
  intros x y _ _ Heq%CONN_NAME_inj_slot. lia.
Qed.

Lemma slot_names_length (j i : Z) (k : nat) : List.length (slot_names j i k) = k.
Proof. unfold slot_names. by rewrite length_fmap, length_seq. Qed.

(** ** Registration: what [init] leaves behind *)

Local Arguments slot_names : simpl never.
Local Arguments Nat.min : simpl never.

Lemma setDatabaseSettings_sqlDatabase app drv db j :
  sqlDatabase (snd (setDatabaseSettings app drv db j)) = sqlDatabase db.
Proof. unfold setDatabaseSettings. by case_match. Qed.

Lemma setDatabaseSettings_isOpen app drv db j :
  isOpen (snd (setDatabaseSettings app drv db j)) = isOpen db.
Proof. unfold setDatabaseSettings. by case_match. Qed.

Lemma init_slots_spec app drv j type n i p stack :
  at_index (availableNames p) j = Some stack ->
  exists p',
    init_slots app drv j type n i p = Some p'
    /\ availableNames p'
       = <[Z.to_nat j := rev (slot_names j i (valid_slots drv type j n i)) ++ stack]>
           (availableNames p)
    /\ cachedDatabase p' = cachedDatabase p
    /\ lastCachedTime p' = lastCachedTime p
    /\ timer p' = timer p
    /\ executed p' = executed p
    /\ maxConnects p' = maxConnects p
    /\ (forall name,
          name ∉ slot_names j i (Nat.min (S (valid_slots drv type j n i)) n) ->
          dbDict p' !! name = dbDict p !! name)
    /\ (forall name,
          name ∈ slot_names j i (valid_slots drv type j n i) ->
          dbDict p' !! name
          = Some (snd (setDatabaseSettings app drv (new_connection drv type name) j))
          /\ addDatabase_isValid drv type name = true)
    /\ ((valid_slots drv type j n i < n)%nat ->
        let name := CONN_NAME j (i + Z.of_nat (valid_slots drv type j n i)) in
        dbDict p' !! name = Some (new_connection drv type name)
        /\ addDatabase_isValid drv type name = false).
Proof.
  revert i p stack. induction n as [|n IH]; intros i p stack Hstack.
  { exists p. simpl. split; [done|]. split.
    { symmetry. apply list_insert_id. by apply at_index_Some in Hstack as [_ ?]. }
    repeat (split; [done|]). split; [by intros ? ?%elem_of_nil|lia]. }
  cbn. destruct (addDatabase_isValid drv type (CONN_NAME j i)) eqn:Hvalid; cbn.
  2: { eexists. split; [done|]. cbn. split.
       { symmetry. apply list_insert_id. by apply at_index_Some in Hstack as [_ ?]. }
       repeat (split; [done|]). split; [|split].
       - intros name Hname. apply lookup_insert_ne. intros <-. apply Hname.
         apply elem_of_slot_names. exists O. split; [lia|]. f_equal. lia.
       - by intros ? ?%elem_of_nil.
       - intros _. rewrite Z.add_0_r. split; [apply lookup_insert_eq|done]. }
  destruct (setDatabaseSettings app drv (new_connection drv type (CONN_NAME j i)) j)
    as [b db'] eqn:Hset.
  assert (Hdb' : db' = snd (setDatabaseSettings app drv
                              (new_connection drv type (CONN_NAME j i)) j))
    by (by rewrite Hset).
  assert (Hname : connectionName (sqlDatabase db') = CONN_NAME j i)
    by (by rewrite Hdb', setDatabaseSettings_sqlDatabase).
  rewrite Hname.
  erewrite push_available_Some by (cbn; exact Hstack). cbn.
  match goal with |- context [init_slots _ _ _ _ _ _ ?q] => set (p2 := q) end.
  destruct (IH (i + 1) p2 (CONN_NAME j i :: stack)) as (p' & Hrun & Ha & Hc & Ht & Htm & He & Hm & Hframe & Hin & Hstop).
  { subst p2. cbn. apply at_index_store_eq. by eapply at_index_range. }
  exists p'. split; [done|]. subst p2. cbn in Ha, Hc, Ht, Htm, He, Hm, Hframe.
  rewrite <- Nat.succ_min_distr, !slot_names_S.
  split; [|split; [done|split; [done|split; [done|split; [done|split; [done|]]]]]].
  { rewrite Ha, list_insert_insert_eq. f_equal. cbn [rev]. by rewrite <- app_assoc. }
  split; [|split].
  - intros name Hnotin. rewrite Hframe.
    + rewrite !lookup_insert_ne; [done|intros <-; apply Hnotin; left..].
    + intros Hin'. apply Hnotin. by right.
  - intros name [->|Hin']%elem_of_cons.
    + split; [|done]. rewrite Hframe.
      * rewrite lookup_insert_eq. by rewrite Hdb'.
      * intros (x & _ & Heq%CONN_NAME_inj_slot)%elem_of_slot_names. lia.
    + by apply Hin.
  - intros Hlt.
    replace (i + Z.of_nat (S (valid_slots drv type j n (i + 1))))
      with (i + 1 + Z.of_nat (valid_slots drv type j n (i + 1))) by lia.
    apply Hstop. lia.
Qed.

Lemma elem_of_registered app drv d name :
  name ∈ registered app drv d ->
  exists x : nat, (x < slot_count app drv d)%nat /\ name = CONN_NAME d (Z.of_nat x).
Proof.
  unfold registered. intros (x & Hx & ->)%elem_of_slot_names.
  exists x. split; [done|]. f_equal.
Qed.

Lemma elem_of_touched app drv d name :
  name ∈ touched app drv d ->
  exists x : nat,
    (x < Nat.min (S (slot_count app drv d))
           (Z.to_nat (maxNumberOfThreadsPerAppServer app)))%nat
    /\ QStr.isEmpty (driverType app d) = false
    /\ name = CONN_NAME d (Z.of_nat x).
Proof.
  unfold touched. destruct (QStr.isEmpty (driverType app d)) eqn:Htype.
  - by intros ?%elem_of_nil.
  - intros (x & Hx & ->)%elem_of_slot_names. exists x. by repeat split.
Qed.

Lemma touched_other app drv d d' x :
  0 <= d -> 0 <= d' -> d <> d' -> CONN_NAME d x ∉ touched app drv d'.
Proof.
  intros Hd Hd' Hne (y & _ & _ & Heq)%elem_of_touched.
  apply CONN_NAME_inj in Heq as [? _]; done.
Qed.

Lemma init_databases_spec app drv n j aval p :
  0 <= j ->
  maxConnects p = maxNumberOfThreadsPerAppServer app ->
  (forall d, j <= d < j + Z.of_nat n -> at_index (availableNames p) d = Some []) ->
  exists aval' p',
    init_databases app drv n j aval p = Some (aval', p')
    /\ (forall d, j <= d < j + Z.of_nat n ->
          at_index (availableNames p') d = Some (rev (registered app drv d)))
    /\ (forall d, ~ (j <= d < j + Z.of_nat n) ->
          at_index (availableNames p') d = at_index (availableNames p) d)
    /\ List.length (availableNames p') = List.length (availableNames p)
    /\ cachedDatabase p' = cachedDatabase p
    /\ lastCachedTime p' = lastCachedTime p
    /\ timer p' = timer p
    /\ executed p' = executed p
    /\ maxConnects p' = maxConnects p
    /\ (aval' = true <->
        aval = true
        \/ exists d, j <= d < j + Z.of_nat n /\ QStr.isEmpty (driverType app d) = false)
    /\ (forall name,
          (forall d, j <= d < j + Z.of_nat n -> name ∉ touched app drv d) ->
          dbDict p' !! name = dbDict p !! name)
    /\ (forall d name,
          j <= d < j + Z.of_nat n -> name ∈ registered app drv d ->
          dbDict p' !! name = Some (slot_entry app drv d name)
          /\ addDatabase_isValid drv (driverType app d) name = true)
    /\ (forall d,
          j <= d < j + Z.of_nat n ->
          QStr.isEmpty (driverType app d) = false ->
          (slot_count app drv d < Z.to_nat (maxNumberOfThreadsPerAppServer app))%nat ->
          let name := CONN_NAME d (Z.of_nat (slot_count app drv d)) in
          dbDict p' !! name = Some (new_connection drv (driverType app d) name)
          /\ addDatabase_isValid drv (driverType app d) name = false).
Proof.
  revert j aval p. induction n as [|n IH]; intros j aval p Hj Hmax Hempty.
  { exists aval, p. cbn. split; [done|]. split; [intros; lia|].
    repeat (split; [done|]). split; [|split; [done|split; intros; lia]].
    split; [by left|]. intros [?|(d & ? & _)]; [done|lia]. }
  cbn [init_databases].
  destruct (QStr.isEmpty (driverType app j)) eqn:Htype.
  - destruct (IH (j + 1) aval p) as
      (aval' & p' & Hrun & Hav & Hav' & Hlen & Hc & Ht & Htm & He & Hm
       & Haval & Hframe & Hreg & Hstop); [lia|done|intros; apply Hempty; lia|].
    exists aval', p'. split; [done|].
    assert (Hnone : registered app drv j = []).
    { unfold registered, slot_count. by rewrite Htype. }
    split; [|split; [|repeat (split; [done|])]].
    + intros d Hd. destruct (decide (d = j)) as [->|Hne].
      * rewrite Hav' by lia. rewrite Hnone. apply Hempty. lia.
      * apply Hav. lia.
    + intros d Hd. apply Hav'. lia.
    + split; [|split; [|split]].
      * rewrite Haval. split; intros [?|(d & Hd & Hty)]; auto.
        -- right. exists d. split; [lia|done].
        -- right. exists d. split; [|done].
           destruct (decide (d = j)) as [->|]; [congruence|lia].
      * intros name Hname. apply Hframe. intros d Hd. apply Hname. lia.
      * intros d name Hd Hin. destruct (decide (d = j)) as [->|Hne].
        -- rewrite Hnone in Hin. by apply elem_of_nil in Hin.
        -- apply Hreg; [lia|done].
      * intros d Hd Hty. destruct (decide (d = j)) as [->|Hne]; [congruence|].
        apply Hstop; [lia|done].
  - destruct (init_slots_spec app drv j (driverType app j)
                (Z.to_nat (maxConnects p)) 0 p []) as
      (p1 & Hrun1 & Ha1 & Hc1 & Ht1 & Htm1 & He1 & Hm1 & Hframe1 & Hin1 & Hstop1).
    { apply Hempty. lia. }
    rewrite Hrun1. cbn.
    assert (Hcount : valid_slots drv (driverType app j) j (Z.to_nat (maxConnects p)) 0
                     = slot_count app drv j).
    { unfold slot_count. by rewrite Htype, Hmax. }
    rewrite Hcount, app_nil_r in Ha1. rewrite Hcount in Hframe1, Hin1, Hstop1.
    fold (registered app drv j) in Ha1, Hin1.
    assert (Hrange : 0 <= j < Z.of_nat (List.length (availableNames p))).
    { eapply at_index_range, Hempty. lia. }
    destruct (IH (j + 1) true p1) as
      (aval' & p' & Hrun & Hav & Hav' & Hlen & Hc & Ht & Htm & He & Hm
       & Haval & Hframe & Hreg & Hstop); [lia|congruence| |].
    { intros d Hd. rewrite Ha1, at_index_store_ne by lia. apply Hempty. lia. }
    exists aval', p'. split; [done|].
    split; [|split; [|split; [|split; [congruence|split; [congruence|
      split; [congruence|split; [congruence|split; [congruence|]]]]]]]].
    + intros d Hd. destruct (decide (d = j)) as [->|Hne].
      * rewrite Hav' by lia. rewrite Ha1. by apply at_index_store_eq.
      * apply Hav. lia.
    + intros d Hd. rewrite Hav' by lia. rewrite Ha1. apply at_index_store_ne; lia.
    + by rewrite Hlen, Ha1, length_insert.
    + split; [|split; [|split]].
      * rewrite Haval. split; [intros _|by left].
        right. exists j. split; [lia|done].
      * intros name Hname. rewrite Hframe by (intros d Hd; apply Hname; lia).
        apply Hframe1. specialize (Hname j). unfold touched in Hname.
        rewrite Htype, <- Hmax in Hname. apply Hname. lia.
      * intros d name Hd Hin. destruct (decide (d = j)) as [->|Hne].
        -- destruct (Hin1 name Hin) as [Hentry Hvalid]. split; [|done].
           rewrite Hframe; [done|].
           apply elem_of_registered in Hin as (x & _ & ->).
           intros d' Hd'. apply touched_other; lia.
        -- apply Hreg; [lia|done].
      * intros d Hd Hty Hlt. destruct (decide (d = j)) as [->|Hne].
        -- cbn zeta. rewrite Hframe by (intros d' Hd'; apply touched_other; lia).
           apply Hstop1. by rewrite Hmax.
        -- apply Hstop; [lia|done|done].
Qed.

Lemma at_index_replicate {A} (n : nat) (x : A) (d : Z) :
  0 <= d < Z.of_nat n -> at_index (replicate n x) d = Some x.
Proof.
  intros Hd. apply at_index_Some. split; [lia|]. apply lookup_replicate_2. lia.
Qed.

(** The pool that [instance()] builds when the SQL subsystem is available. *)
Lemma instance_spec app drv :
  isSqlDatabaseAvailable app = true ->
  exists p,
    instance app drv = Some p
    /\ arrays_sized app p
    /\ (forall d, 0 <= d < sqlDatabaseSettingsCount app ->
          at_index (availableNames p) d = Some (rev (registered app drv d)))
    /\ (forall d, 0 <= d < sqlDatabaseSettingsCount app ->
          at_index (cachedDatabase p) d = Some [])
    /\ executed p = []
    /\ maxConnects p = maxNumberOfThreadsPerAppServer app
    /\ ((exists d, 0 <= d < sqlDatabaseSettingsCount app
                   /\ QStr.isEmpty (driverType app d) = false) ->
        timer p = Some 10000)
    /\ (~ (exists d, 0 <= d < sqlDatabaseSettingsCount app
                     /\ QStr.isEmpty (driverType app d) = false) ->
        timer p = None)
    /\ (forall name,
          (forall d, 0 <= d < sqlDatabaseSettingsCount app -> name ∉ touched app drv d) ->
          dbDict p !! name = None)
    /\ (forall d name,
          0 <= d < sqlDatabaseSettingsCount app -> name ∈ registered app drv d ->
          dbDict p !! name = Some (slot_entry app drv d name)
          /\ addDatabase_isValid drv (driverType app d) name = true)
    /\ (forall d,
          0 <= d < sqlDatabaseSettingsCount app ->
          QStr.isEmpty (driverType app d) = false ->
          (slot_count app drv d < Z.to_nat (maxNumberOfThreadsPerAppServer app))%nat ->
          let name := CONN_NAME d (Z.of_nat (slot_count app drv d)) in
          dbDict p !! name = Some (new_connection drv (driverType app d) name)
          /\ addDatabase_isValid drv (driverType app d) name = false).
Proof.
  intros Hon. unfold instance, init. rewrite Hon. cbn [negb].
  set (count := Z.to_nat (sqlDatabaseSettingsCount app)).
  match goal with |- context [init_databases _ _ _ _ _ ?q] => set (p0 := q) end.
  assert (Hrange : forall d, 0 <= d < 0 + Z.of_nat count <->
                             0 <= d < sqlDatabaseSettingsCount app) by (subst count; lia).
  destruct (init_databases_spec app drv count 0 false p0) as
    (aval & p & Hrun & Hav & Hav' & Hlen & Hc & Ht & Htm & He & Hm
     & Haval & Hframe & Hreg & Hstop); [lia|done| |].
  { intros d Hd. subst p0. cbn. apply at_index_replicate. lia. }
  rewrite Hrun. cbn [mbind option_bind].
  assert (Hsame : forall q : TSqlDatabasePool,
             availableNames (if aval then set_timer (Some 10000) q else q)
             = availableNames q
             /\ cachedDatabase (if aval then set_timer (Some 10000) q else q)
                = cachedDatabase q
             /\ lastCachedTime (if aval then set_timer (Some 10000) q else q)
                = lastCachedTime q
             /\ executed (if aval then set_timer (Some 10000) q else q) = executed q
             /\ maxConnects (if aval then set_timer (Some 10000) q else q)
                = maxConnects q
             /\ dbDict (if aval then set_timer (Some 10000) q else q) = dbDict q)
    by (intros q; by destruct aval).
  destruct (Hsame p) as (Sa & Sc & St & Se & Sm & Sd).
  eexists. split; [done|]. rewrite Sa, Sc, Se, Sm, Sd.
  split; [|split; [|split; [|split; [|split; [|split; [|split; [|split; [|split]]]]]]]].
  - unfold arrays_sized. rewrite Sa, Sc, St, Hlen, Hc, Ht. subst p0. cbn.
    by rewrite !length_replicate.
  - intros d Hd. apply Hav. by apply Hrange.
  - intros d Hd. rewrite Hc. subst p0. cbn. apply at_index_replicate. lia.
  - by rewrite He.
  - by rewrite Hm.
  - intros (d & Hd & Hty).
    assert (aval = true) as ->.
    { apply Haval. right. exists d. split; [by apply Hrange|done]. }
    done.
  - intros Hnone. destruct aval; [|by rewrite Htm].
    destruct (proj1 Haval eq_refl) as [?|(d & Hd & Hty)]; [done|].
    destruct Hnone. exists d. split; [by apply Hrange|done].
  - intros name Hname. rewrite Hframe; [done|].
    intros d Hd. apply Hname. by apply Hrange.
  - intros d name Hd. apply Hreg. by apply Hrange.
  - intros d Hd. apply Hstop. by apply Hrange.
Qed.

Lemma valid_slots_spec drv type j n i :
  (valid_slots drv type j n i <= n)%nat
  /\ (forall x : nat, (x < valid_slots drv type j n i)%nat ->
        addDatabase_isValid drv type (CONN_NAME j (i + Z.of_nat x)) = true)
  /\ ((valid_slots drv type j n i < n)%nat ->
      addDatabase_isValid drv type
        (CONN_NAME j (i + Z.of_nat (valid_slots drv type j n i))) = false).
Proof.
  revert i. induction n as [|n IH]; intros i; cbn.
  { split; [lia|]. split; intros; lia. }
  destruct (addDatabase_isValid drv type (CONN_NAME j i)) eqn:Hvalid.
  - destruct (IH (i + 1)) as (Hle & Hbelow & Hat). split; [lia|]. split.
    + intros [|x] Hx; [by rewrite Z.add_0_r|].
      replace (i + Z.of_nat (S x)) with (i + 1 + Z.of_nat x) by lia.
      apply Hbelow. lia.
    + intros Hlt.
      replace (i + Z.of_nat (S (valid_slots drv type j n (i + 1))))
        with (i + 1 + Z.of_nat (valid_slots drv type j n (i + 1))) by lia.
      apply Hat. lia.
  - split; [lia|]. split; [intros; lia|]. intros _. by rewrite Z.add_0_r.
Qed.


(** Slots accepted up to and including [i] are all counted. *)
Lemma slot_count_all_valid app drv d (i : nat) :
  QStr.isEmpty (driverType app d) = false ->
  (i < Z.to_nat (maxNumberOfThreadsPerAppServer app))%nat ->
  (forall x : nat, (x <= i)%nat ->
     addDatabase_isValid drv (driverType app d) (CONN_NAME d (Z.of_nat x)) = true) ->
  (i < slot_count app drv d)%nat.
Proof.
  intros Hty Hi Hvalid. unfold slot_count. rewrite Hty.
  destruct (valid_slots_spec drv (driverType app d) d
              (Z.to_nat (maxNumberOfThreadsPerAppServer app)) 0) as (Hle & Hb & Ha).
  set (k := valid_slots _ _ _ _ _) in *.
  destruct (Nat.lt_ge_cases i k) as [|Hge]; [done|].
  specialize (Ha ltac:(lia)). change (0 + Z.of_nat k) with (Z.of_nat k) in Ha.
  rewrite Hvalid in Ha by lia. discriminate.
Qed.

(** ** The setup applier and registration *)

(** C2 as stated fails: the setup applier reports failure for the slot, and
    [init] pushes its name all the same. *)
Lemma failed_setup_slot_is_pushed :
  fst (setDatabaseSettings Sample.app_noname Sample.drv
         (new_connection Sample.drv "QSQLITE" "rdb00_0") 0) = false
  /\ exists p stack,
       instance Sample.app_noname Sample.drv = Some p
       /\ at_index (availableNames p) 0 = Some stack
       /\ "rdb00_0" ∈ stack.
Proof.
  split; [reflexivity|].
  eexists _, _. split; [vm_compute; reflexivity|]. split; [reflexivity|].
  apply list_elem_of_In. simpl. auto.
Qed.

(** C2 (amended): [setDatabaseSettings] returns failure exactly when the
    DatabaseName setting is empty after trimming, and then it has applied
    nothing: the slot is as it was.  [init] does not look at the result:
    every slot the driver layer accepts, up to the first one it refuses, has
    its name pushed onto [availableNames[d]], whatever DatabaseName is. *)
Theorem setDatabaseSettings_failure app drv (db : TSqlDatabase) d (i : nat) :
  isSqlDatabaseAvailable app = true ->
  0 <= d < sqlDatabaseSettingsCount app ->
  QStr.isEmpty (driverType app d) = false ->
  (i < Z.to_nat (maxNumberOfThreadsPerAppServer app))%nat ->
  (forall x : nat, (x <= i)%nat ->
     addDatabase_isValid drv (driverType app d) (CONN_NAME d (Z.of_nat x)) = true) ->
  (fst (setDatabaseSettings app drv db d) = false <->
   QStr.trimmed (QVariant.toString (sqlDatabaseSettings app d) "DatabaseName") = "")
  /\ (fst (setDatabaseSettings app drv db d) = false ->
      snd (setDatabaseSettings app drv db d) = db)
  /\ exists p stack,
       instance app drv = Some p
       /\ at_index (availableNames p) d = Some stack
       /\ CONN_NAME d (Z.of_nat i) ∈ stack.
Proof.
  intros Hon Hd Hty Hi Hvalid. split; [|split].
  - unfold setDatabaseSettings.
    destruct (QStr.trimmed _) eqn:Hname; cbn; split; done.
  - unfold setDatabaseSettings. by case_match.
  - destruct (instance_spec app drv Hon) as (p & Hrun & _ & Hav & _).
    exists p, (rev (registered app drv d)). split; [done|]. split; [by apply Hav|].
    apply list_elem_of_In, in_rev, list_elem_of_In. rewrite rev_involutive.
    apply elem_of_slot_names. exists i. split; [|done].
    by apply slot_count_all_valid.
Qed.

Lemma setDatabaseSettings_failure_witness :
  (fst (setDatabaseSettings Sample.app_noname Sample.drv TSqlDatabase_default 0) = false <->
   QStr.trimmed (QVariant.toString (sqlDatabaseSettings Sample.app_noname 0) "DatabaseName")
   = "")
  /\ (fst (setDatabaseSettings Sample.app_noname Sample.drv TSqlDatabase_default 0) = false ->
      snd (setDatabaseSettings Sample.app_noname Sample.drv TSqlDatabase_default 0)
      = TSqlDatabase_default)
  /\ exists p stack,
       instance Sample.app_noname Sample.drv = Some p
       /\ at_index (availableNames p) 0 = Some stack
       /\ CONN_NAME 0 (Z.of_nat 1) ∈ stack.
Proof.
  apply (setDatabaseSettings_failure Sample.app_noname Sample.drv TSqlDatabase_default 0 1);
    try reflexivity.
  - simpl; lia.
  - simpl; lia.
Defined.




(** ** The reaper *)

Lemma handle_of_alter (b : bool) (n name : QString) (p : TSqlDatabasePool) dict :
  dbDict p = alter (setIsOpen b) n dict ->
  handle_of p name = sqlDatabase (default TSqlDatabase_default (dict !! name)).
Proof.
  intros Hd. unfold handle_of, TSqlDatabase_database. rewrite Hd, lookup_alter.
  case_decide; [subst|done]. by destruct (dict !! name).
Qed.

Lemma handle_of_ext (p q : TSqlDatabasePool) (name : QString) :
  dbDict p !! name = dbDict q !! name -> handle_of p name = handle_of q name.
Proof. intros H. unfold handle_of, TSqlDatabase_database. by rewrite H. Qed.

Lemma close_all_lookup_notin (names : list QString) dict (name : QString) :
  name ∉ names -> close_all names dict !! name = dict !! name.
Proof.
  revert dict. induction names as [|n names IH]; intros dict Hnotin; [done|].
  cbn. rewrite IH by (intros ?; apply Hnotin; by right).
  apply lookup_alter_ne. intros ->. apply Hnotin. by left.
Qed.

Lemma close_all_handle (names : list QString) dict (name : QString) :
  sqlDatabase (default TSqlDatabase_default (close_all names dict !! name))
  = sqlDatabase (default TSqlDatabase_default (dict !! name)).
Proof.
  revert dict. induction names as [|n names IH]; intros dict; [done|].
  cbn. rewrite IH, lookup_alter. case_decide; [subst|done]. by destruct (dict !! name).
Qed.

Lemma close_all_keeps_closed (names : list QString) dict (name : QString) :
  isOpen (default TSqlDatabase_default (dict !! name)) = false ->
  isOpen (default TSqlDatabase_default (close_all names dict !! name)) = false.
Proof.
  revert dict. induction names as [|n names IH]; intros dict Hclosed; [done|].
  cbn. apply IH. rewrite lookup_alter. case_decide; [subst|done].
  by destruct (dict !! name).
Qed.

Lemma close_all_closes (names : list QString) dict (name : QString) :
  name ∈ names ->
  isOpen (default TSqlDatabase_default (close_all names dict !! name)) = false.
Proof.
  revert dict. induction names as [|n names IH]; intros dict Hin.
  { by apply elem_of_nil in Hin. }
  apply elem_of_cons in Hin as [->|Hin]; [|by apply IH].
  cbn. apply close_all_keeps_closed. rewrite lookup_alter_eq.
  by destruct (dict !! n).
Qed.

(** The [while] loop of a sweep on a database that has been idle too long:
    it empties the cached stack onto the available one and closes the
    connections. *)
Lemma timerEvent_while_idle now i cache p t stack :
  at_index (lastCachedTime p) i = Some t ->
  at_index (cachedDatabase p) i = Some cache ->
  at_index (availableNames p) i = Some stack ->
  (forall name, name ∈ cache -> belongs_to p i name) ->
  idle_too_long now t = true ->
  timerEvent_while now i cache p
  = Some (set_dbDict (close_all cache (dbDict p))
            (set_availableNames (<[Z.to_nat i := rev cache ++ stack]> (availableNames p))
               (set_cachedDatabase (<[Z.to_nat i := []]> (cachedDatabase p)) p))).
Proof.
  revert p stack. induction cache as [|name cache IH]; intros p stack Ht Hc Ha Hwf Hidle.
  { cbn. rewrite Ht. cbn. unfold idle_too_long in Hidle. rewrite Hidle.
    f_equal. unfold set_dbDict, set_availableNames, set_cachedDatabase. cbn.
    rewrite !list_insert_id; [by rewrite pool_eta|..].
    - by apply at_index_Some in Ha as [_ ?].
    - by apply at_index_Some in Hc as [_ ?]. }
  cbn [timerEvent_while]. rewrite Ht. cbn [mbind option_bind].
  unfold idle_too_long in Hidle. rewrite Hidle.
  pose proof (at_index_range _ _ _ Hc) as Hrc.
  pose proof (at_index_range _ _ _ Ha) as Hra.
  rewrite store_index_Some by done. cbn [mbind option_bind].
  destruct (Hwf name) as [Hname Hid]; [by left|].
  unfold closeDatabase.
  change (sqlDatabase (TSqlDatabase_database (set_cachedDatabase _ p) name))
    with (handle_of p name).
  rewrite Hname, Hid.
  erewrite push_available_Some by (cbn; exact Ha).
  cbn [mbind option_bind].
  erewrite IH; [| | | | |done].
  - f_equal. unfold set_dbDict, set_availableNames, set_cachedDatabase. cbn.
    rewrite !list_insert_insert_eq. by rewrite <- app_assoc.
  - done.
  - cbn. by apply at_index_store_eq.
  - cbn. by apply at_index_store_eq.
  - intros n Hn. destruct (Hwf n) as [Hn1 Hn2]; [by right|].
    unfold belongs_to.
    rewrite (handle_of_alter false name n _ (dbDict p)) by done.
    done.
Qed.

Lemma timerEvent_while_recent now i cache p t :
  at_index (lastCachedTime p) i = Some t ->
  idle_too_long now t = false ->
  timerEvent_while now i cache p = Some p.
Proof.
  intros Ht Hidle. unfold idle_too_long in Hidle.
  destruct cache; cbn; rewrite Ht; cbn; by rewrite Hidle.
Qed.

Lemma timerEvent_for_S now n i p :
  timerEvent_for now (S n) i p
  = (p1 ← timerEvent_body now i p; timerEvent_for now n (i + 1) p1).
Proof.
  cbn [timerEvent_for]. unfold timerEvent_body.
  by destruct (at_index (cachedDatabase p) i).
Qed.

Lemma timerEvent_body_spec now j p :
  0 <= j < Z.of_nat (List.length (cachedDatabase p)) ->
  List.length (availableNames p) = List.length (cachedDatabase p) ->
  List.length (lastCachedTime p) = List.length (cachedDatabase p) ->
  cached_names_wf p ->
  exists p1,
    timerEvent_body now j p = Some p1
    /\ reaped now p p1 j
    /\ (forall d, d <> j ->
          at_index (cachedDatabase p1) d = at_index (cachedDatabase p) d
          /\ at_index (availableNames p1) d = at_index (availableNames p) d)
    /\ lastCachedTime p1 = lastCachedTime p
    /\ List.length (cachedDatabase p1) = List.length (cachedDatabase p)
    /\ List.length (availableNames p1) = List.length (availableNames p)
    /\ timer p1 = timer p /\ executed p1 = executed p /\ maxConnects p1 = maxConnects p
    /\ (forall name, handle_of p1 name = handle_of p name)
    /\ (forall name, isOpen (TSqlDatabase_database p name) = false ->
                     isOpen (TSqlDatabase_database p1 name) = false)
    /\ (forall name cache, at_index (cachedDatabase p) j = Some cache -> name ∉ cache ->
                           dbDict p1 !! name = dbDict p !! name).
Proof.
  intros Hj Hla Hlt Hwf.
  destruct (at_index_in_range (cachedDatabase p) j) as [cache Hc]; [done|].
  destruct (at_index_in_range (availableNames p) j) as [stack Ha]; [lia|].
  destruct (at_index_in_range (lastCachedTime p) j) as [t Ht]; [lia|].
  assert (Hstay : timerEvent_body now j p = Some p ->
                  idle_too_long now t = false \/ cache = [] ->
                  exists p1, timerEvent_body now j p = Some p1
    /\ reaped now p p1 j
    /\ (forall d, d <> j ->
          at_index (cachedDatabase p1) d = at_index (cachedDatabase p) d
          /\ at_index (availableNames p1) d = at_index (availableNames p) d)
    /\ lastCachedTime p1 = lastCachedTime p
    /\ List.length (cachedDatabase p1) = List.length (cachedDatabase p)
    /\ List.length (availableNames p1) = List.length (availableNames p)
    /\ timer p1 = timer p /\ executed p1 = executed p /\ maxConnects p1 = maxConnects p
    /\ (forall name, handle_of p1 name = handle_of p name)
    /\ (forall name, isOpen (TSqlDatabase_database p name) = false ->
                     isOpen (TSqlDatabase_database p1 name) = false)
    /\ (forall name cache, at_index (cachedDatabase p) j = Some cache -> name ∉ cache ->
                           dbDict p1 !! name = dbDict p !! name)).
  { intros Hrun Hwhy. exists p. split; [done|]. split; [|by repeat split].
    intros t' cache' stack' Ht' Hc' Ha'.
    rewrite Ht in Ht'. rewrite Hc in Hc'. rewrite Ha in Ha'.
    injection Ht' as <-. injection Hc' as <-. injection Ha' as <-.
    split; [|by rewrite Hc, Ha].
    intros Hidle. destruct Hwhy as [Hrecent| ->]; [congruence|].
    rewrite Hc, Ha. repeat split. by intros ? ?%elem_of_nil. }
  destruct cache as [|name0 cache0] eqn:Hcache.
  { apply Hstay; [|by right]. unfold timerEvent_body. by rewrite Hc. }
  rewrite <- Hcache in *. 
  assert (Hbody : timerEvent_body now j p = timerEvent_while now j cache p).
  { unfold timerEvent_body. rewrite Hc. by rewrite Hcache. }
  destruct (idle_too_long now t) eqn:Hidle.
  2: { apply Hstay; [|by left]. rewrite Hbody. by eapply timerEvent_while_recent. }
  clear Hstay. rewrite Hbody.
  rewrite (timerEvent_while_idle now j cache p t stack Ht Hc Ha);
    [|intros; by eapply Hwf|done].
  eexists. split; [done|]. cbn.
  split; [|split; [|split; [done|split; [by rewrite length_insert|
    split; [by rewrite length_insert|split; [done|split; [done|split; [done|]]]]]]]].
  - intros t' cache' stack' Ht' Hc' Ha'.
    rewrite Ht in Ht'. rewrite Hc in Hc'. rewrite Ha in Ha'.
    injection Ht' as <-. injection Hc' as <-. injection Ha' as <-. cbn.
    split.
    + intros _. rewrite !at_index_store_eq by lia. repeat split.
      intros name Hin. by apply close_all_closes.
    + intros [?| ->]; [congruence|]. by subst.
  - intros d Hd. by rewrite !at_index_store_ne by lia.
  - split; [|split].
    + intros name. apply close_all_handle.
    + intros name. apply close_all_keeps_closed.
    + intros name cache' Hc' Hnotin. rewrite Hc in Hc'. injection Hc' as <-.
      by apply close_all_lookup_notin.
Qed.

Lemma timerEvent_for_spec now n j p :
  0 <= j ->
  j + Z.of_nat n <= Z.of_nat (List.length (cachedDatabase p)) ->
  List.length (availableNames p) = List.length (cachedDatabase p) ->
  List.length (lastCachedTime p) = List.length (cachedDatabase p) ->
  cached_names_wf p ->
  exists p',
    timerEvent_for now n j p = Some p'
    /\ (forall d, j <= d < j + Z.of_nat n -> reaped now p p' d)
    /\ (forall d, ~ (j <= d < j + Z.of_nat n) ->
          at_index (cachedDatabase p') d = at_index (cachedDatabase p) d
          /\ at_index (availableNames p') d = at_index (availableNames p) d)
    /\ lastCachedTime p' = lastCachedTime p
    /\ List.length (cachedDatabase p') = List.length (cachedDatabase p)
    /\ List.length (availableNames p') = List.length (availableNames p)
    /\ timer p' = timer p /\ executed p' = executed p /\ maxConnects p' = maxConnects p
    /\ (forall name, handle_of p' name = handle_of p name)
    /\ (forall name, isOpen (TSqlDatabase_database p name) = false ->
                     isOpen (TSqlDatabase_database p' name) = false)
    /\ (forall name,
          (forall d cache, j <= d < j + Z.of_nat n ->
                           at_index (cachedDatabase p) d = Some cache -> name ∉ cache) ->
          dbDict p' !! name = dbDict p !! name).
Proof.
  revert j p. induction n as [|n IH]; intros j p Hj Hn Hla Hlt Hwf.
  { exists p. cbn. split; [done|]. split; [intros; lia|]. by repeat split. }
  rewrite timerEvent_for_S.
  destruct (timerEvent_body_spec now j p) as
    (p1 & Hrun1 & Hreap1 & Hout1 & Ht1 & Hlc1 & Hla1 & Htm1 & He1 & Hm1
     & Hh1 & Hcl1 & Hfr1); [lia|done|done|done|].
  rewrite Hrun1. cbn [mbind option_bind].
  assert (Hwf1 : cached_names_wf p1).
  { intros d cache name Hc Hin. unfold belongs_to. rewrite Hh1.
    destruct (decide (d = j)) as [->|Hne].
    - destruct (at_index_in_range (cachedDatabase p) j) as [cache0 Hc0]; [lia|].
      destruct (at_index_in_range (availableNames p) j) as [stack0 Ha0]; [lia|].
      destruct (at_index_in_range (lastCachedTime p) j) as [t0 Ht0]; [lia|].
      destruct (Hreap1 t0 cache0 stack0 Ht0 Hc0 Ha0) as [Hidle Hrecent].
      destruct (idle_too_long now t0).
      + destruct Hidle as (Hc' & _); [done|]. rewrite Hc in Hc'.
        injection Hc' as ->. by apply elem_of_nil in Hin.
      + destruct Hrecent as (Hc' & _); [by left|]. rewrite Hc in Hc'.
        injection Hc' as ->. by eapply Hwf.
    - destruct (Hout1 d Hne) as [Hc' _]. rewrite Hc' in Hc. by eapply Hwf. }
  destruct (IH (j + 1) p1) as
    (p' & Hrun & Hreap & Hout & Ht & Hlc & Hla' & Htm & He & Hm & Hh & Hcl & Hfr);
    [lia|lia|congruence|congruence|done|].
  exists p'. split; [done|].
  split; [|split; [|split; [congruence|split; [congruence|split; [congruence|
    split; [congruence|split; [congruence|split; [congruence|split; [|split]]]]]]]]].
  - intros d Hd t cache stack Ht0 Hc0 Ha0.
    destruct (decide (d = j)) as [->|Hne].
    + destruct (Hreap1 t cache stack Ht0 Hc0 Ha0) as [Hidle Hrecent].
      destruct (Hout j) as [Hc' Ha']; [lia|]. rewrite Hc', Ha'.
      split; [|done].
      intros Hi. destruct (Hidle Hi) as (? & ? & Hclosed). repeat split; [done..|].
      intros name Hin. apply Hcl. by apply Hclosed.
    + destruct (Hout1 d Hne) as [Hc' Ha'].
      apply (Hreap d); [lia|congruence..].
  - intros d Hd. destruct (Hout d) as [-> ->]; [lia|]. apply Hout1. lia.
  - intros name. by rewrite Hh.
  - intros name Hclosed. by apply Hcl, Hcl1.
  - intros name Hnotin. rewrite Hfr.
    + destruct (at_index_in_range (cachedDatabase p) j) as [cache0 Hc0]; [lia|].
      apply (Hfr1 name cache0 Hc0). apply (Hnotin j); [lia|done].
    + intros d cache Hd Hc. destruct (Hout1 d) as [Hc' _]; [lia|].
      rewrite Hc' in Hc. apply (Hnotin d); [lia|done].
Qed.

(** C7: at a reaper tick, for every database [d] whose [lastCachedTime[d]]
    is below [now - 30] (in the [uint] arithmetic of the source), every name
    of [cachedDatabase[d]] is popped, its connection closed and the name
    pushed onto [availableNames[d]], in pop order, so that
    [cachedDatabase[d]] is left empty; a database whose cached stack is empty
    is skipped with both stacks as they were; and only connections that were
    on a cached stack are touched: nothing else is closed. *)
Theorem timerEvent_reaps app now p :
  arrays_sized app p ->
  cached_names_wf p ->
  exists p',
    timerEvent app true now p = Some p'
    /\ (forall d t cache stack,
          0 <= d < sqlDatabaseSettingsCount app ->
          at_index (lastCachedTime p) d = Some t ->
          at_index (cachedDatabase p) d = Some cache ->
          at_index (availableNames p) d = Some stack ->
          (t < to_uint (to_uint now - 30) ->
           at_index (cachedDatabase p') d = Some []
           /\ at_index (availableNames p') d = Some (rev cache ++ stack)
           /\ forall name, name ∈ cache ->
                isOpen (TSqlDatabase_database p' name) = false)
          /\ (cache = [] ->
              at_index (cachedDatabase p') d = Some []
              /\ at_index (availableNames p') d = Some stack))
    /\ (forall name,
          (forall d cache, at_index (cachedDatabase p) d = Some cache -> name ∉ cache) ->
          dbDict p' !! name = dbDict p !! name)
    /\ lastCachedTime p' = lastCachedTime p.
Proof.
  intros (Hlc & Hla & Hlt) Hwf. unfold timerEvent.
  destruct (timerEvent_for_spec now (Z.to_nat (sqlDatabaseSettingsCount app)) 0 p) as
    (p' & Hrun & Hreap & _ & Ht & _ & _ & _ & _ & _ & _ & _ & Hfr);
    [lia|lia|congruence|congruence|done|].
  exists p'. split; [done|]. split; [|split; [|done]].
  - intros d t cache stack Hd Ht0 Hc0 Ha0.
    destruct (Hreap d ltac:(lia) t cache stack Ht0 Hc0 Ha0) as [Hidle Hrecent].
    split.
    + intros Hlt0. apply Hidle. unfold idle_too_long. by apply Z.ltb_lt.
    + intros ->. apply Hrecent. by right.
  - intros name Hnotin. apply Hfr. intros d cache _. apply Hnotin.
Qed.

Lemma timerEvent_reaps_witness :
  exists p',
    timerEvent Sample.app true 1031 Sample.warm = Some p'
    /\ (forall d t cache stack,
          0 <= d < sqlDatabaseSettingsCount Sample.app ->
          at_index (lastCachedTime Sample.warm) d = Some t ->
          at_index (cachedDatabase Sample.warm) d = Some cache ->
          at_index (availableNames Sample.warm) d = Some stack ->
          (t < to_uint (to_uint 1031 - 30) ->
           at_index (cachedDatabase p') d = Some []
           /\ at_index (availableNames p') d = Some (rev cache ++ stack)
           /\ forall name, name ∈ cache ->
                isOpen (TSqlDatabase_database p' name) = false)
          /\ (cache = [] ->
              at_index (cachedDatabase p') d = Some []
              /\ at_index (availableNames p') d = Some stack))
    /\ (forall name,
          (forall d cache, at_index (cachedDatabase Sample.warm) d = Some cache ->
                           name ∉ cache) ->
          dbDict p' !! name = dbDict Sample.warm !! name)
    /\ lastCachedTime p' = lastCachedTime Sample.warm.
Proof.
  apply timerEvent_reaps.
  - repeat split.
  - intros d cache name Hc Hin.
    pose proof (at_index_range _ _ _ Hc) as Hr. cbn in Hr.
    assert (d = 0) as -> by lia. cbn in Hc. injection Hc as <-.
    apply list_elem_of_singleton in Hin as ->. split; reflexivity.
Defined.

(** ** The invariant of a run *)

Lemma database_loop_spec open d fuel p out p' avail cache :
  at_index (availableNames p) d = Some avail ->
  at_index (cachedDatabase p) d = Some cache ->
  (forall name, name ∈ avail ++ cache ->
     handle_of p name = {| isValid := true; connectionName := name |}) ->
  database_loop open d fuel p = Some (out, p') ->
  exists avail' cache' h,
    at_index (availableNames p') d = Some avail'
    /\ at_index (cachedDatabase p') d = Some cache'
    /\ out = Returns h
    /\ (if isValid h then avail ++ cache ≡ₚ connectionName h :: avail' ++ cache'
        else avail ++ cache ≡ₚ avail' ++ cache')
    /\ (forall d', d' <> d ->
          at_index (availableNames p') d' = at_index (availableNames p) d'
          /\ at_index (cachedDatabase p') d' = at_index (cachedDatabase p) d')
    /\ List.length (availableNames p') = List.length (availableNames p)
    /\ List.length (cachedDatabase p') = List.length (cachedDatabase p)
    /\ lastCachedTime p' = lastCachedTime p
    /\ (forall name, handle_of p' name = handle_of p name).
Proof.
  revert p avail cache. induction fuel as [|fuel IH]; intros p avail cache Ha Hc Hwf Hrun.
  { discriminate. }
  pose proof (at_index_range _ _ _ Ha) as Hra.
  pose proof (at_index_range _ _ _ Hc) as Hrc.
  cbn [database_loop] in Hrun. rewrite Hc in Hrun. cbn [mbind option_bind] in Hrun.
  destruct cache as [|name cache'].
  - rewrite Ha in Hrun. cbn [mbind option_bind] in Hrun.
    destruct avail as [|name stack'].
    { by apply (IH p [] []). }
    rewrite store_index_Some in Hrun by done. cbn [mbind option_bind] in Hrun.
    change (TSqlDatabase_database (set_availableNames _ p) name)
      with (TSqlDatabase_database p name) in Hrun.
    assert (Hh : sqlDatabase (TSqlDatabase_database p name)
                 = {| isValid := true; connectionName := name |}).
    { apply Hwf. by left. }
    destruct (isOpen (TSqlDatabase_database p name)) eqn:Hopen;
      [|destruct (open name) eqn:Hok; cbn [negb] in Hrun].
    + injection Hrun as <- <-. exists stack', [], {| isValid := true; connectionName := name |}.
      cbn. rewrite at_index_store_eq by done. rewrite Hh.
      repeat split; try done.
      * by rewrite !at_index_store_ne by lia.
      * by rewrite length_insert.
    + rewrite fold_exec_replayed in Hrun. injection Hrun as <- <-.
      exists stack', [], {| isValid := true; connectionName := name |}.
      cbn. rewrite at_index_store_eq by done. rewrite Hh.
      repeat split; try done.
      * by rewrite !at_index_store_ne by lia.
      * by rewrite length_insert.
      * intros n. by erewrite handle_of_alter by done.
    + erewrite push_available_Some in Hrun by (cbn; by apply at_index_store_eq).
      cbn in Hrun. injection Hrun as <- <-.
      exists (name :: stack'), [], QSqlDatabase_invalid.
      cbn. rewrite list_insert_insert_eq, at_index_store_eq by done.
      repeat split; try done.
      * by rewrite !at_index_store_ne by lia.
      * by rewrite length_insert.
  - rewrite store_index_Some in Hrun by done. cbn [mbind option_bind] in Hrun.
    change (TSqlDatabase_database (set_cachedDatabase _ p) name)
      with (TSqlDatabase_database p name) in Hrun.
    assert (Hh : sqlDatabase (TSqlDatabase_database p name)
                 = {| isValid := true; connectionName := name |}).
    { apply Hwf. apply elem_of_app. right. by left. }
    destruct (isOpen (TSqlDatabase_database p name)) eqn:Hopen.
    + injection Hrun as <- <-. exists avail, cache', {| isValid := true; connectionName := name |}.
      cbn. rewrite at_index_store_eq by done. rewrite Hh.
      repeat split; try done.
      * by rewrite Permutation_middle.
      * by rewrite !at_index_store_ne by lia.
      * by rewrite length_insert.
    + erewrite push_available_Some in Hrun by (cbn; exact Ha).
      cbn [mbind option_bind] in Hrun.
      apply (IH _ (name :: avail) cache') in Hrun as
        (avail' & cache2 & h & Ha' & Hc' & Hout & Hperm & Hother & Hla & Hlc & Ht & Hh');
        [| cbn; by apply at_index_store_eq | cbn; by apply at_index_store_eq |].
      * exists avail', cache2, h. cbn in *.
        rewrite length_insert in Hla, Hlc.
        split; [done|]. split; [done|]. split; [done|]. split.
        { destruct (isValid h); rewrite <- Hperm; cbn; by rewrite Permutation_middle. }
        split; [|done].
        intros d' Hd'. destruct (Hother d' Hd') as [-> ->].
        by rewrite !at_index_store_ne by lia.
      * intros n Hn. rewrite <- (Hwf n); [done|].
        rewrite elem_of_app, elem_of_cons in Hn. rewrite elem_of_app, elem_of_cons.
        tauto.
Qed.

Section Invariant.

Context (app : TWebApplication) (drv : SqlDriverLayer).

(** Two digits hold the database index: at most 100 databases. *)
Hypothesis two_digits_suffice : sqlDatabaseSettingsCount app <= 100.

Lemma registered_parses_back d name valid :
  0 <= d < sqlDatabaseSettingsCount app ->
  name ∈ registered app drv d ->
  getDatabaseId {| isValid := valid; connectionName := name |} = d.
Proof using two_digits_suffice.
  intros Hd (x & _ & ->)%elem_of_registered.
  apply getDatabaseId_CONN_NAME. lia.
Qed.

Lemma in_range_of_sized p d (x : list QString) :
  arrays_sized app p ->
  at_index (cachedDatabase p) d = Some x \/ at_index (availableNames p) d = Some x ->
  0 <= d < sqlDatabaseSettingsCount app.
Proof using Type.
  intros (Hc & Ha & _) [H|H]; apply at_index_range in H; lia.
Qed.

Lemma invariant_cached_names_wf s :
  pool_invariant app drv s -> cached_names_wf (the_pool s).
Proof using two_digits_suffice.
  intros (Hsized & Hperm & Hreg & _) d cache name Hc Hin.
  assert (Hd : 0 <= d < sqlDatabaseSettingsCount app)
    by (eapply in_range_of_sized; eauto).
  destruct (Hperm d Hd) as (avail & cache0 & _ & Hc0 & Hp).
  rewrite Hc in Hc0. injection Hc0 as <-.
  assert (Hname : name ∈ registered app drv d).
  { rewrite <- Hp. rewrite !elem_of_app. auto. }
  unfold belongs_to. rewrite (Hreg d name Hd Hname). split; [done|].
  by apply registered_parses_back.
Qed.

Lemma instance_invariant p :
  isSqlDatabaseAvailable app = true ->
  instance app drv = Some p ->
  pool_invariant app drv {| the_pool := p; inUse := fun _ => [] |}.
Proof using Type.
  intros Hon Hrun.
  destruct (instance_spec app drv Hon) as
    (p0 & Hrun0 & Hsized & Hav & Hca & _ & _ & _ & _ & _ & Hreg & _).
  rewrite Hrun in Hrun0. injection Hrun0 as <-.
  split; [done|]. split; [|split; [|done]].
  - intros d Hd. exists (rev (registered app drv d)), []. cbn.
    split; [by apply Hav|]. split; [by apply Hca|].
    rewrite !app_nil_r. symmetry. apply Permutation_rev.
  - intros d name Hd Hin. cbn. destruct (Hreg d name Hd Hin) as [Hentry Hvalid].
    unfold handle_of, TSqlDatabase_database. rewrite Hentry. cbn.
    unfold slot_entry. rewrite setDatabaseSettings_sqlDatabase. cbn.
    by rewrite Hvalid.
Qed.

Lemma set_inUse_eq d names inuse : set_inUse d names inuse d = names.
Proof using Type. unfold set_inUse. by rewrite bool_decide_eq_true_2. Qed.

Lemma set_inUse_ne d d' names inuse : d' <> d -> set_inUse d names inuse d' = inuse d'.
Proof using Type. intros ?. unfold set_inUse. by rewrite bool_decide_eq_false_2. Qed.

(** [database] keeps the invariant, with the name it hands out counted as
    borrowed. *)
Lemma database_preserves open fuel d p inuse out p' :
  pool_invariant app drv {| the_pool := p; inUse := inuse |} ->
  database app open fuel d p = Some (out, p') ->
  match out with
  | Returns h =>
      if isValid h
      then pool_invariant app drv
             {| the_pool := p';
                inUse := set_inUse d (connectionName h :: inuse d) inuse |}
      else pool_invariant app drv {| the_pool := p'; inUse := inuse |}
  | Throws _ => pool_invariant app drv {| the_pool := p'; inUse := inuse |}
  end.
Proof using Type.
  intros Hinv Hrun. unfold database in Hrun.
  destruct (isSqlDatabaseAvailable app); cbn [negb] in Hrun.
  2: { by injection Hrun as <- <-. }
  destruct (Z.leb_spec 0 d) as [Hd0|Hd0]; cbn [andb] in Hrun.
  2: { by injection Hrun as <- <-. }
  destruct (Z.ltb_spec d (sqlDatabaseSettingsCount app)) as [Hd1|Hd1].
  2: { by injection Hrun as <- <-. }
  destruct Hinv as (Hsized & Hperm & Hreg & Hout). cbn in *.
  destruct (Hperm d ltac:(lia)) as (avail & cache & Ha & Hc & Hp).
  apply (database_loop_spec open d fuel p out p' avail cache Ha Hc) in Hrun as
    (avail' & cache' & h & Ha' & Hc' & -> & Hmove & Hother & Hla & Hlc & Ht & Hh).
  2: { intros name Hin. apply (Hreg d); [lia|]. rewrite <- Hp.
       rewrite app_assoc. apply elem_of_app. by left. }
  assert (Hsized' : arrays_sized app p').
  { destruct Hsized as (? & ? & ?). unfold arrays_sized. by rewrite Hla, Hlc, Ht. }
  assert (Hothers : forall (inuse' : Z -> list QString) d',
             0 <= d' < sqlDatabaseSettingsCount app -> d' <> d ->
             inuse' d' = inuse d' ->
             exists avail0 cache0,
               at_index (availableNames p') d' = Some avail0
               /\ at_index (cachedDatabase p') d' = Some cache0
               /\ avail0 ++ cache0 ++ inuse' d' ≡ₚ registered app drv d').
  { intros inuse' d' Hd' Hne Hsame. destruct (Hother d' Hne) as [-> ->].
    rewrite Hsame. by apply Hperm. }
  destruct (isValid h) eqn:Hvalid.
  - split; [done|]. cbn. split; [|split].
    + intros d' Hd'. destruct (decide (d' = d)) as [->|Hne].
      * exists avail', cache'. split; [done|]. split; [done|].
        rewrite set_inUse_eq. rewrite <- Hp.
        rewrite (app_assoc avail cache), Hmove.
        rewrite (app_assoc avail' cache'). by rewrite <- Permutation_middle.
      * apply Hothers; [done..|]. by apply set_inUse_ne.
    + intros d' name Hd' Hin. rewrite Hh. by apply (Hreg d').
    + intros d' Hd'. rewrite set_inUse_ne by lia. by apply Hout.
  - split; [done|]. cbn. split; [|split].
    + intros d' Hd'. destruct (decide (d' = d)) as [->|Hne].
      * exists avail', cache'. split; [done|]. split; [done|].
        rewrite <- Hp. by rewrite (app_assoc avail cache), Hmove, <- app_assoc.
      * by apply Hothers.
    + intros d' name Hd' Hin. rewrite Hh. by apply (Hreg d').
    + done.
Qed.

(** [pool] on a borrowed handle keeps the invariant, with the name counted
    as returned. *)
Lemma pool_preserves now name forceClose d before after p inuse p' h' :
  pool_invariant app drv {| the_pool := p; inUse := inuse |} ->
  inuse d = before ++ name :: after ->
  pool app now {| isValid := true; connectionName := name |} forceClose p
  = Some (p', h') ->
  pool_invariant app drv
    {| the_pool := p'; inUse := set_inUse d (before ++ after) inuse |}.
Proof using two_digits_suffice.
  intros (Hsized & Hperm & Hreg & Hout) Hborrowed Hrun. cbn in *.
  assert (Hd : 0 <= d < sqlDatabaseSettingsCount app).
  { destruct (decide (0 <= d < sqlDatabaseSettingsCount app)) as [|Hno]; [done|].
    rewrite (Hout d Hno) in Hborrowed. by destruct before. }
  destruct (Hperm d Hd) as (avail & cache & Ha & Hc & Hp).
  assert (Hname : name ∈ registered app drv d).
  { rewrite <- Hp, Hborrowed. rewrite !elem_of_app, elem_of_cons. auto. }
  pose proof (registered_parses_back d name true Hd Hname) as Hid.
  assert (Hp' : (name :: avail) ++ cache ++ before ++ after ≡ₚ registered app drv d
                /\ avail ++ (name :: cache) ++ before ++ after ≡ₚ registered app drv d).
  { rewrite <- Hp, Hborrowed. split.
    - cbn. rewrite <- !Permutation_middle. done.
    - cbn. rewrite <- !Permutation_middle. done. }
  destruct Hp' as [Hpa Hpc].
  destruct Hsized as (Hlc & Hla & Hlt).
  pose proof (at_index_range _ _ _ Ha) as Hra.
  pose proof (at_index_range _ _ _ Hc) as Hrc.
  unfold pool in Hrun. cbn [isValid connectionName] in Hrun. rewrite Hid in Hrun.
  destruct (Z.leb_spec 0 d); [|lia].
  destruct (Z.ltb_spec d (sqlDatabaseSettingsCount app)); [|lia].
  cbn [andb] in Hrun.
  destruct forceClose.
  - unfold closeDatabase in Hrun. cbn [connectionName] in Hrun. rewrite Hid in Hrun.
    erewrite push_available_Some in Hrun by (cbn; exact Ha).
    cbn in Hrun. injection Hrun as <- <-.
    split; [|split; [|split]]; cbn.
    + unfold arrays_sized. cbn. by rewrite length_insert.
    + intros d' Hd'. destruct (decide (d' = d)) as [->|Hne].
      * exists (name :: avail), cache. rewrite at_index_store_eq by done.
        rewrite set_inUse_eq. done.
      * rewrite at_index_store_ne by lia. rewrite set_inUse_ne by done.
        by apply Hperm.
    + intros d' n Hd' Hin.
      erewrite (handle_of_alter false name n) by done. by apply (Hreg d').
    + intros d' Hd'. rewrite set_inUse_ne by lia. by apply Hout.
  - erewrite push_cached_Some in Hrun by exact Hc.
    cbn in Hrun. rewrite store_index_Some in Hrun by lia.
    cbn in Hrun. injection Hrun as <- <-.
    split; [|split; [|split]]; cbn.
    + unfold arrays_sized. cbn. by rewrite !length_insert.
    + intros d' Hd'. destruct (decide (d' = d)) as [->|Hne].
      * exists avail, (name :: cache). rewrite at_index_store_eq by done.
        rewrite set_inUse_eq. done.
      * rewrite at_index_store_ne by lia. rewrite set_inUse_ne by done.
        by apply Hperm.
    + intros d' n Hd' Hin. by apply (Hreg d').
    + intros d' Hd'. rewrite set_inUse_ne by lia. by apply Hout.
Qed.

(** [pool] on an invalid handle changes nothing. *)
Lemma pool_invalid_unchanged now h forceClose p p' h' :
  isValid h = false -> pool app now h forceClose p = Some (p', h') -> p' = p.
Proof using Type.
  intros Hv Hrun. unfold pool in Hrun. rewrite Hv in Hrun. cbn in Hrun.
  by injection Hrun as <- _.
Qed.

(** A timer event keeps the invariant. *)
Lemma timerEvent_preserves ownTimer now p inuse p' :
  pool_invariant app drv {| the_pool := p; inUse := inuse |} ->
  timerEvent app ownTimer now p = Some p' ->
  pool_invariant app drv {| the_pool := p'; inUse := inuse |}.
Proof using two_digits_suffice.
  intros Hinv Hrun. unfold timerEvent in Hrun.
  destruct ownTimer; [|by injection Hrun as <-].
  pose proof (invariant_cached_names_wf _ Hinv) as Hwf.
  destruct Hinv as ((Hlc & Hla & Hlt) & Hperm & Hreg & Hout). cbn in *.
  destruct (timerEvent_for_spec now (Z.to_nat (sqlDatabaseSettingsCount app)) 0 p) as
    (p0 & Hrun0 & Hreap & _ & Ht & Hlc' & Hla' & _ & _ & _ & Hh & _ & _);
    [lia|lia|congruence|congruence|done|].
  rewrite Hrun in Hrun0. injection Hrun0 as <-.
  split; [|split; [|split]]; cbn.
  - unfold arrays_sized. by rewrite Hlc', Hla', Ht.
  - intros d Hd. destruct (Hperm d Hd) as (avail & cache & Ha & Hc & Hp).
    destruct (at_index_in_range (lastCachedTime p) d) as [t Ht0]; [lia|].
    destruct (Hreap d ltac:(lia) t cache avail Ht0 Hc Ha) as [Hidle Hrecent].
    destruct (idle_too_long now t).
    + destruct Hidle as (Hc' & Ha' & _); [done|].
      exists (rev cache ++ avail), []. split; [done|]. split; [done|].
      rewrite <- Hp. cbn. rewrite <- Permutation_rev.
      by rewrite (Permutation_app_comm cache avail), <- app_assoc.
    + destruct Hrecent as (Hc' & Ha'); [by left|].
      by exists avail, cache.
  - intros d name Hd Hin. rewrite Hh. by apply (Hreg d).
  - done.
Qed.

Lemma step_preserves s s' :
  pool_invariant app drv s -> step app s s' -> pool_invariant app drv s'.
Proof using two_digits_suffice.
  intros Hinv Hstep. destruct Hstep as
    [open fuel d p inuse h p' Hrun Hvalid
    |open fuel d p inuse h p' Hrun Hvalid
    |open fuel d p inuse what p' Hrun
    |now name forceClose d before after p inuse p' h' Hborrowed Hrun
    |now h forceClose p inuse p' h' Hvalid Hrun
    |ownTimer now p inuse p' Hrun].
  - pose proof (database_preserves open fuel d p inuse _ p' Hinv Hrun) as H.
    cbn in H. by rewrite Hvalid in H.
  - pose proof (database_preserves open fuel d p inuse _ p' Hinv Hrun) as H.
    cbn in H. by rewrite Hvalid in H.
  - exact (database_preserves open fuel d p inuse _ p' Hinv Hrun).
  - by eapply pool_preserves.
  - by rewrite (pool_invalid_unchanged now h forceClose p p' h' Hvalid Hrun).
  - by eapply timerEvent_preserves.
Qed.

Lemma reachable_invariant s :
  isSqlDatabaseAvailable app = true ->
  reachable app drv s -> pool_invariant app drv s.
Proof using two_digits_suffice.
  intros Hon Hreach. induction Hreach as [p Hrun|s s' _ IH Hstep].
  - by apply instance_invariant.
  - by eapply step_preserves.
Qed.

End Invariant.

(** ** Name conservation *)

Lemma slot_count_bound app drv d :
  (slot_count app drv d <= Z.to_nat (maxNumberOfThreadsPerAppServer app))%nat.
Proof.
  unfold slot_count. destruct (QStr.isEmpty (driverType app d)); [lia|].
  apply valid_slots_spec.
Qed.

Lemma slot_count_full app drv d :
  QStr.isEmpty (driverType app d) = false ->
  (forall x : nat, (x < Z.to_nat (maxNumberOfThreadsPerAppServer app))%nat ->
     addDatabase_isValid drv (driverType app d) (CONN_NAME d (Z.of_nat x)) = true) ->
  slot_count app drv d = Z.to_nat (maxNumberOfThreadsPerAppServer app).
Proof.
  intros Hty Hvalid. unfold slot_count. rewrite Hty.
  destruct (valid_slots_spec drv (driverType app d) d
              (Z.to_nat (maxNumberOfThreadsPerAppServer app)) 0) as (Hle & _ & Ha).
  set (k := valid_slots _ _ _ _ _) in *.
  destruct (decide (k = Z.to_nat (maxNumberOfThreadsPerAppServer app))) as [|Hne]; [done|].
  specialize (Ha ltac:(lia)). change (0 + Z.of_nat k) with (Z.of_nat k) in Ha.
  rewrite Hvalid in Ha by lia. discriminate.
Qed.

Lemma sample_step_acquire :
  step Sample.app SampleSystem.started SampleSystem.one_borrowed.
Proof.
  apply (step_acquire Sample.app (Sample.always true) 1 0 Sample.fresh (fun _ => [])
           {| isValid := true; connectionName := "rdb00_1" |} SampleRun.after_acquire);
    reflexivity.
Defined.

Lemma sample_reachable : reachable Sample.app Sample.drv SampleSystem.one_borrowed.
Proof.
  apply (reachable_step _ _ SampleSystem.started).
  - apply reachable_instance. reflexivity.
  - exact sample_step_acquire.
Defined.

(** C1 as stated fails.  Right after [instance()], with nothing borrowed, a
    database one of whose slots the registry refused has fewer than [M] names
    on its stacks; and a completed [database] call leaves one name fewer on
    the two stacks of its database. *)
Lemma stacks_do_not_always_hold_M_names :
  (exists p,
      instance Sample.app Sample.drv_second_invalid = Some p
      /\ ~ stacks_hold_all_names Sample.app p)
  /\ stacks_hold_all_names Sample.app (the_pool SampleSystem.started)
  /\ step Sample.app SampleSystem.started SampleSystem.one_borrowed
  /\ ~ stacks_hold_all_names Sample.app (the_pool SampleSystem.one_borrowed).
Proof.
  split; [|split; [|split]].
  - eexists. split; [vm_compute; reflexivity|].
    intros H. destruct (H 0) as (avail & cache & Ha & Hc & Hlen & _); [cbn; lia|].
    cbn in Ha, Hc. injection Ha as <-. injection Hc as <-. cbn in Hlen. lia.
  - intros d Hd. cbn in Hd. assert (d = 0) as -> by lia.
    exists ["rdb00_1"; "rdb00_0"], []. repeat split.
    apply NoDup_ListNoDup. cbn.
    repeat (constructor; [cbn; intuition discriminate|]). constructor.
  - exact sample_step_acquire.
  - intros H. destruct (H 0) as (avail & cache & Ha & Hc & Hlen & _); [cbn; lia|].
    cbn in Ha, Hc. injection Ha as <-. injection Hc as <-. cbn in Hlen. lia.
Qed.

(** C1 (amended): with at most 100 databases configured, in every state
    reached from [instance()] by calls of [database], calls of [pool] on
    handles that are borrowed (or invalid) and timer events, for every
    database [d]: the names on [availableNames[d]], on [cachedDatabase[d]]
    and borrowed from [d] are together exactly the names [init] registered
    for [d], each once.  So no name is twice on a stack or on both stacks,
    the three counts add up to the number of registered slots, which the two
    stacks alone hold whenever nothing is borrowed from [d]; that number is
    at most [M], and it is [M] when DriverType is set and the registry
    accepted every slot. *)
Theorem pool_name_conservation app drv s d :
  isSqlDatabaseAvailable app = true ->
  sqlDatabaseSettingsCount app <= 100 ->
  reachable app drv s ->
  0 <= d < sqlDatabaseSettingsCount app ->
  exists avail cache,
    at_index (availableNames (the_pool s)) d = Some avail
    /\ at_index (cachedDatabase (the_pool s)) d = Some cache
    /\ avail ++ cache ++ inUse s d ≡ₚ registered app drv d
    /\ NoDup (avail ++ cache ++ inUse s d)
    /\ (List.length avail + List.length cache + List.length (inUse s d)
        = slot_count app drv d)%nat
    /\ (inUse s d = [] ->
        (List.length avail + List.length cache = slot_count app drv d)%nat)
    /\ (slot_count app drv d <= Z.to_nat (maxNumberOfThreadsPerAppServer app))%nat
    /\ (QStr.isEmpty (driverType app d) = false ->
        (forall x : nat, (x < Z.to_nat (maxNumberOfThreadsPerAppServer app))%nat ->
           addDatabase_isValid drv (driverType app d) (CONN_NAME d (Z.of_nat x)) = true) ->
        slot_count app drv d = Z.to_nat (maxNumberOfThreadsPerAppServer app)).
Proof.
  intros Hon Hsmall Hreach Hd.
  destruct (reachable_invariant app drv Hsmall s Hon Hreach) as (_ & Hperm & _).
  destruct (Hperm d Hd) as (avail & cache & Ha & Hc & Hp).
  exists avail, cache. split; [done|]. split; [done|]. split; [done|].
  assert (Hlen : (List.length avail + List.length cache + List.length (inUse s d)
                  = slot_count app drv d)%nat).
  { apply Permutation_length in Hp. rewrite !length_app in Hp.
    unfold registered in Hp. rewrite slot_names_length in Hp. lia. }
  split; [|split; [done|split; [|split]]].
  - rewrite Hp. apply slot_names_NoDup.
  - intros Hnone. rewrite Hnone in Hlen. cbn in Hlen. lia.
  - apply slot_count_bound.
  - apply slot_count_full.
Qed.

Lemma pool_name_conservation_witness :
  exists avail cache,
    at_index (availableNames (the_pool SampleSystem.one_borrowed)) 0 = Some avail
    /\ at_index (cachedDatabase (the_pool SampleSystem.one_borrowed)) 0 = Some cache
    /\ avail ++ cache ++ inUse SampleSystem.one_borrowed 0
       ≡ₚ registered Sample.app Sample.drv 0
    /\ NoDup (avail ++ cache ++ inUse SampleSystem.one_borrowed 0)
    /\ (List.length avail + List.length cache
        + List.length (inUse SampleSystem.one_borrowed 0)
        = slot_count Sample.app Sample.drv 0)%nat
    /\ (inUse SampleSystem.one_borrowed 0 = [] ->
        (List.length avail + List.length cache = slot_count Sample.app Sample.drv 0)%nat)
    /\ (slot_count Sample.app Sample.drv 0
        <= Z.to_nat (maxNumberOfThreadsPerAppServer Sample.app))%nat
    /\ (QStr.isEmpty (driverType Sample.app 0) = false ->
        (forall x : nat,
           (x < Z.to_nat (maxNumberOfThreadsPerAppServer Sample.app))%nat ->
           addDatabase_isValid Sample.drv (driverType Sample.app 0)
             (CONN_NAME 0 (Z.of_nat x)) = true) ->
        slot_count Sample.app Sample.drv 0
        = Z.to_nat (maxNumberOfThreadsPerAppServer Sample.app)).
Proof.
  apply pool_name_conservation.
  - reflexivity.
  - simpl; lia.
  - exact sample_reachable.
  - simpl; lia.
Defined.


(** * Further properties of the pool *)

(** ** Start-up *)

(** X1: Cold start.  With the SQL subsystem available, for a database whose
    DriverType is set and all of whose [M] slots the registry accepts,
    [instance()] leaves the [M] names [rdb{d}_0 .. rdb{d}_{M-1}] on
    [availableNames[d]], the last one on top, and nothing on
    [cachedDatabase[d]]; every slot is registered under its name with a valid
    handle, closed, as the setup applier leaves a new connection; and no
    statement has been executed. *)
Theorem instance_cold_start app drv d :
  isSqlDatabaseAvailable app = true ->
  0 <= d < sqlDatabaseSettingsCount app ->
  QStr.isEmpty (driverType app d) = false ->
  (forall x : nat, (x < Z.to_nat (maxNumberOfThreadsPerAppServer app))%nat ->
     addDatabase_isValid drv (driverType app d) (CONN_NAME d (Z.of_nat x)) = true) ->
  exists p,
    instance app drv = Some p
    /\ at_index (availableNames p) d
       = Some (rev (slot_names d 0 (Z.to_nat (maxNumberOfThreadsPerAppServer app))))
    /\ at_index (cachedDatabase p) d = Some []
    /\ executed p = []
    /\ (forall x : nat, (x < Z.to_nat (maxNumberOfThreadsPerAppServer app))%nat ->
          let name := CONN_NAME d (Z.of_nat x) in
          dbDict p !! name = Some (slot_entry app drv d name)
          /\ sqlDatabase (slot_entry app drv d name)
             = {| isValid := true; connectionName := name |}
          /\ isOpen (slot_entry app drv d name) = false).
Proof.
  intros Hon Hd Hty Hvalid.
  pose proof (slot_count_full app drv d Hty Hvalid) as Hcount.
  destruct (instance_spec app drv Hon) as
    (p & Hrun & _ & Hav & Hca & Hex & _ & _ & _ & _ & Hreg & _).
  exists p. split; [done|]. split; [|split; [by apply Hca|split; [done|]]].
  - rewrite Hav by done. unfold registered. by rewrite Hcount.
  - intros x Hx name.
    destruct (Hreg d name Hd) as [Hentry Hv].
    { apply elem_of_slot_names. exists x. split; [by rewrite Hcount|done]. }
    split; [done|]. unfold slot_entry.
    rewrite setDatabaseSettings_sqlDatabase, setDatabaseSettings_isOpen. cbn.
    by rewrite Hv.
Qed.

Lemma instance_cold_start_witness :
  exists p,
    instance Sample.app Sample.drv = Some p
    /\ at_index (availableNames p) 0 = Some ["rdb00_1"; "rdb00_0"]
    /\ at_index (cachedDatabase p) 0 = Some []
    /\ executed p = []
    /\ (forall x : nat, (x < 2)%nat ->
          let name := CONN_NAME 0 (Z.of_nat x) in
          dbDict p !! name = Some (slot_entry Sample.app Sample.drv 0 name)
          /\ sqlDatabase (slot_entry Sample.app Sample.drv 0 name)
             = {| isValid := true; connectionName := name |}
          /\ isOpen (slot_entry Sample.app Sample.drv 0 name) = false).
Proof.
  apply (instance_cold_start Sample.app Sample.drv 0); try reflexivity.
  simpl; lia.
Defined.

(** X2: A disabled database.  When DriverType of a database index in range is
    empty after trimming, [instance()] registers nothing for it: both its
    stacks are empty and the registry has no connection under any of its
    names.  The index is still in range for [database], which then finds
    nothing to pop and stays in its loop: no bound gives a result. *)
Theorem instance_disabled_database app drv d :
  isSqlDatabaseAvailable app = true ->
  0 <= d < sqlDatabaseSettingsCount app ->
  QStr.isEmpty (driverType app d) = true ->
  exists p,
    instance app drv = Some p
    /\ at_index (availableNames p) d = Some []
    /\ at_index (cachedDatabase p) d = Some []
    /\ (forall i, dbDict p !! CONN_NAME d i = None)
    /\ (forall open fuel, database app open fuel d p = None).
Proof.
  intros Hon Hd Hty.
  destruct (instance_spec app drv Hon) as
    (p & Hrun & _ & Hav & Hca & _ & _ & _ & _ & Hnone & _).
  assert (Hnothing : registered app drv d = []).
  { unfold registered, slot_count. by rewrite Hty. }
  assert (Ha : at_index (availableNames p) d = Some []).
  { rewrite Hav by done. by rewrite Hnothing. }
  exists p. split; [done|]. split; [done|]. split; [by apply Hca|]. split.
  - intros i. apply Hnone. intros d' Hd'.
    destruct (decide (d' = d)) as [->|Hne].
    + unfold touched. rewrite Hty. apply not_elem_of_nil.
    + apply touched_other; lia.
  - intros open fuel. rewrite database_in_range by done.
    apply database_loop_spins; [done|by apply Hca].
Qed.

Lemma instance_disabled_database_witness :
  exists p,
    instance SampleTwo.app Sample.drv = Some p
    /\ at_index (availableNames p) 1 = Some []
    /\ at_index (cachedDatabase p) 1 = Some []
    /\ (forall i, dbDict p !! CONN_NAME 1 i = None)
    /\ (forall open fuel, database SampleTwo.app open fuel 1 p = None).
Proof.
  apply (instance_disabled_database SampleTwo.app Sample.drv 1); try reflexivity.
  simpl; lia.
Defined.

Lemma enabled_database_dec app :
  Decision (exists d, 0 <= d < sqlDatabaseSettingsCount app
                      /\ QStr.isEmpty (driverType app d) = false).
Proof.
  destruct (decide (Exists (fun d => QStr.isEmpty (driverType app d) = false)
                      (Z.of_nat <$> seq 0 (Z.to_nat (sqlDatabaseSettingsCount app)))))
    as [Hyes|Hno].
  - left. apply Exists_exists in Hyes as (d & Hin & Hty).
    apply list_elem_of_fmap in Hin as (x & -> & Hx%elem_of_seq).
    exists (Z.of_nat x). split; [lia|done].
  - right. intros (d & Hd & Hty). apply Hno, Exists_exists. exists d. split; [|done].
    apply list_elem_of_fmap. exists (Z.to_nat d). split; [lia|].
    apply elem_of_seq. lia.
Qed.

(** X3: The reaper timer.  [instance()] starts the timer, with its interval of
    10000 ms, exactly when the SQL subsystem is available and some database
    index in range has a DriverType that is not empty; otherwise there is no
    timer. *)
Theorem instance_timer app drv p :
  instance app drv = Some p ->
  (timer p = Some 10000 <->
   isSqlDatabaseAvailable app = true
   /\ exists d, 0 <= d < sqlDatabaseSettingsCount app
                /\ QStr.isEmpty (driverType app d) = false)
  /\ (timer p = None \/ timer p = Some 10000).
Proof.
  intros Hrun. destruct (isSqlDatabaseAvailable app) eqn:Hon.
  - destruct (instance_spec app drv Hon) as
      (p0 & Hrun0 & _ & _ & _ & _ & _ & Hstart & Hnot & _).
    rewrite Hrun in Hrun0. injection Hrun0 as <-.
    destruct (enabled_database_dec app) as [Hex|Hno].
    + rewrite (Hstart Hex). split; [|by right]. split; [by intros _|done].
    + rewrite (Hnot Hno). split; [|by left]. split; [done|].
      intros [_ Hex]. by destruct Hno.
  - unfold instance, init in Hrun. rewrite Hon in Hrun. cbn in Hrun.
    injection Hrun as <-. cbn. split; [|by left]. split; [done|by intros [? _]].
Qed.

Lemma instance_timer_witness :
  (timer Sample.fresh = Some 10000 <->
   isSqlDatabaseAvailable Sample.app = true
   /\ exists d, 0 <= d < sqlDatabaseSettingsCount Sample.app
                /\ QStr.isEmpty (driverType Sample.app d) = false)
  /\ (timer Sample.fresh = None \/ timer Sample.fresh = Some 10000).
Proof. apply (instance_timer Sample.app Sample.drv). reflexivity. Defined.

(** ** Acquire *)

(** The loop of [database] gives handles only: it has no [throw]. *)
Lemma database_loop_returns open d fuel p out p' :
  database_loop open d fuel p = Some (out, p') -> exists h, out = Returns h.
Proof.
  revert p. induction fuel as [|fuel IH]; intros p Hrun; [discriminate|].
  cbn [database_loop] in Hrun.
  destruct (at_index (cachedDatabase p) d) as [cache|]; [|discriminate].
  cbn [mbind option_bind] in Hrun. destruct cache as [|name cache].
  - destruct (at_index (availableNames p) d) as [stack|]; [|discriminate].
    cbn [mbind option_bind] in Hrun. destruct stack as [|name stack]; [by eapply IH|].
    destruct (store_index _ _ _); [|discriminate]. cbn [mbind option_bind] in Hrun.
    destruct (isOpen _); [injection Hrun as <- _; by eexists|].
    destruct (open name); cbn [negb] in Hrun; [injection Hrun as <- _; by eexists|].
    destruct (push_available _ _ _); [|discriminate].
    injection Hrun as <- _. by eexists.
  - destruct (store_index _ _ _); [|discriminate]. cbn [mbind option_bind] in Hrun.
    destruct (isOpen _); [injection Hrun as <- _; by eexists|].
    destruct (push_available _ _ _); [|discriminate]. by eapply IH.
Qed.

(** A result of the loop does not depend on the bound that let the model
    reach it. *)
Lemma database_loop_more_fuel open d fuel fuel' p r :
  database_loop open d fuel p = Some r -> (fuel <= fuel')%nat ->
  database_loop open d fuel' p = Some r.
Proof.
  revert fuel' p. induction fuel as [|fuel IH]; intros fuel' p Hrun Hle; [discriminate|].
  destruct fuel' as [|fuel']; [lia|]. cbn [database_loop] in *.
  destruct (at_index (cachedDatabase p) d) as [cache|]; [|discriminate].
  cbn [mbind option_bind] in *. destruct cache as [|name cache].
  - destruct (at_index (availableNames p) d) as [stack|]; [|discriminate].
    cbn [mbind option_bind] in *. destruct stack as [|name stack]; [|done].
    apply IH; [done|lia].
  - destruct (store_index _ _ _); [|discriminate]. cbn [mbind option_bind] in *.
    destruct (isOpen _); [done|].
    destruct (push_available _ _ _); [|discriminate]. cbn [mbind option_bind] in *.
    apply IH; [done|lia].
Qed.

(** X4: When [database] returns.  With the subsystem available and [d] in range,
    [database(d)] comes back exactly when a name is on one of the two stacks
    of [d].  It then comes back with a handle, never with an exception,
    after at most one turn of its loop for each cached name and one more,
    and the result is the same under every larger bound.  With both stacks
    empty it stays in its loop. *)
Theorem database_returns_iff_a_name_is_free app open d p avail cache :
  isSqlDatabaseAvailable app = true ->
  0 <= d < sqlDatabaseSettingsCount app ->
  at_index (availableNames p) d = Some avail ->
  at_index (cachedDatabase p) d = Some cache ->
  ((exists fuel r, database app open fuel d p = Some r) <-> avail ++ cache <> [])
  /\ (avail ++ cache <> [] ->
      exists h p',
        forall fuel, (List.length cache < fuel)%nat ->
          database app open fuel d p = Some (Returns h, p')).
Proof.
  intros Hon Hd Ha Hc.
  assert (Hfree : avail ++ cache <> [] ->
                  exists h p',
                    forall fuel, (List.length cache < fuel)%nat ->
                      database app open fuel d p = Some (Returns h, p')).
  { intros Hne.
    destruct (database_loop_terminates open d p avail cache Ha Hc Hne)
      as (out & p' & Hrun).
    destruct (database_loop_returns _ _ _ _ _ _ Hrun) as [h ->].
    exists h, p'. intros fuel Hfuel. rewrite database_in_range by done.
    eapply database_loop_more_fuel; [exact Hrun|lia]. }
  split; [|done]. split.
  - intros (fuel & r & Hrun) Hempty.
    apply app_eq_nil in Hempty as [-> ->].
    rewrite database_in_range in Hrun by done.
    by rewrite database_loop_spins in Hrun.
  - intros Hne. destruct (Hfree Hne) as (h & p' & Hall).
    exists (S (List.length cache)), (Returns h, p'). apply Hall. lia.
Qed.

Lemma database_returns_iff_a_name_is_free_witness :
  ((exists fuel r, database Sample.app (Sample.always true) fuel 0 Sample.fresh = Some r)
   <-> ["rdb00_1"; "rdb00_0"] ++ [] <> [])
  /\ (["rdb00_1"; "rdb00_0"] ++ [] <> [] ->
      exists h p',
        forall fuel, (List.length (@nil QString) < fuel)%nat ->
          database Sample.app (Sample.always true) fuel 0 Sample.fresh
          = Some (Returns h, p')).
Proof.
  apply (database_returns_iff_a_name_is_free Sample.app (Sample.always true) 0
           Sample.fresh ["rdb00_1"; "rdb00_0"] []); try reflexivity.
  simpl; lia.
Defined.

(** X5: The fast path.  When the name on top of [cachedDatabase[d]] has an open
    connection, [database(d)] returns the registered handle of that name and
    pops it; nothing else changes: [availableNames], the registry and the
    executed statements stay as they are, whatever the driver would answer
    to [open()]. *)
Theorem database_fast_path app open fuel d p name rest :
  isSqlDatabaseAvailable app = true ->
  0 <= d < sqlDatabaseSettingsCount app ->
  at_index (cachedDatabase p) d = Some (name :: rest) ->
  isOpen (TSqlDatabase_database p name) = true ->
  exists p',
    database app open (S fuel) d p = Some (Returns (handle_of p name), p')
    /\ at_index (cachedDatabase p') d = Some rest
    /\ availableNames p' = availableNames p
    /\ dbDict p' = dbDict p
    /\ executed p' = executed p
    /\ lastCachedTime p' = lastCachedTime p.
Proof.
  intros Hon Hd Hc Hopen. rewrite database_in_range by done.
  cbn [database_loop]. rewrite Hc. cbn [mbind option_bind].
  pose proof (at_index_range _ _ _ Hc) as Hr.
  rewrite store_index_Some by done. cbn [mbind option_bind].
  change (TSqlDatabase_database (set_cachedDatabase _ p) name)
    with (TSqlDatabase_database p name).
  rewrite Hopen. eexists. split; [done|]. cbn.
  by rewrite at_index_store_eq.
Qed.

Lemma database_fast_path_witness :
  exists p',
    database Sample.app (Sample.always false) 1 0 Sample.warm
    = Some (Returns (handle_of Sample.warm "rdb00_1"), p')
    /\ at_index (cachedDatabase p') 0 = Some []
    /\ availableNames p' = availableNames Sample.warm
    /\ dbDict p' = dbDict Sample.warm
    /\ executed p' = executed Sample.warm
    /\ lastCachedTime p' = lastCachedTime Sample.warm.
Proof.
  apply (database_fast_path Sample.app (Sample.always false) 0 0 Sample.warm
           "rdb00_1" []); try reflexivity.
  simpl; lia.
Defined.

(** X6: Available but open.  When nothing is cached for [d] and the connection of
    the name on top of [availableNames[d]] is already open, [database(d)]
    returns its handle and pops the name: the driver is not asked to open it
    again and no post-open statement is executed. *)
Theorem database_available_but_open app open fuel d p name rest :
  isSqlDatabaseAvailable app = true ->
  0 <= d < sqlDatabaseSettingsCount app ->
  at_index (cachedDatabase p) d = Some [] ->
  at_index (availableNames p) d = Some (name :: rest) ->
  isOpen (TSqlDatabase_database p name) = true ->
  exists p',
    database app open (S fuel) d p = Some (Returns (handle_of p name), p')
    /\ at_index (availableNames p') d = Some rest
    /\ cachedDatabase p' = cachedDatabase p
    /\ dbDict p' = dbDict p
    /\ executed p' = executed p.
Proof.
  intros Hon Hd Hc Ha Hopen. rewrite database_in_range by done.
  cbn [database_loop]. rewrite Hc. cbn [mbind option_bind]. rewrite Ha.
  cbn [mbind option_bind].
  pose proof (at_index_range _ _ _ Ha) as Hr.
  rewrite store_index_Some by done. cbn [mbind option_bind].
  change (TSqlDatabase_database (set_availableNames _ p) name)
    with (TSqlDatabase_database p name).
  rewrite Hopen. eexists. split; [done|]. cbn.
  by rewrite at_index_store_eq.
Qed.

Lemma database_available_but_open_witness :
  exists p',
    database Sample.app (Sample.always false) 1 0 SampleOpen.opened
    = Some (Returns (handle_of SampleOpen.opened "rdb00_1"), p')
    /\ at_index (availableNames p') 0 = Some ["rdb00_0"]
    /\ cachedDatabase p' = cachedDatabase SampleOpen.opened
    /\ dbDict p' = dbDict SampleOpen.opened
    /\ executed p' = executed SampleOpen.opened.
Proof.
  apply (database_available_but_open Sample.app (Sample.always false) 0 0
           SampleOpen.opened "rdb00_1" ["rdb00_0"]); try reflexivity.
  simpl; lia.
Defined.

(** What the slow path leaves when [open()] fails, in terms of the loop. *)
Lemma database_loop_open_failure open fuel d p name rest :
  at_index (cachedDatabase p) d = Some [] ->
  at_index (availableNames p) d = Some (name :: rest) ->
  isOpen (TSqlDatabase_database p name) = false ->
  open name = false ->
  database_loop open d (S fuel) p = Some (Returns QSqlDatabase_invalid, p).
Proof.
  intros Hc Ha Hclosed Hopen. cbn [database_loop]. rewrite Hc. cbn [mbind option_bind].
  rewrite Ha. cbn [mbind option_bind].
  pose proof (at_index_range _ _ _ Ha) as Hr.
  rewrite store_index_Some by done. cbn [mbind option_bind].
  change (TSqlDatabase_database (set_availableNames _ p) name)
    with (TSqlDatabase_database p name).
  rewrite Hclosed, Hopen. cbn [negb].
  erewrite push_available_Some by (cbn; by apply at_index_store_eq).
  cbn. unfold set_availableNames. cbn.
  rewrite (store_back _ _ _ _ Ha). by rewrite pool_eta.
Qed.

(** X7: Cached but closed.  When every connection cached for [d] turns out to be
    closed, [database(d)] moves the cached names onto [availableNames[d]],
    one by one and never back to [cachedDatabase[d]], and then takes the slow
    path on the name that is on top: the cached name popped last, or the old
    top of [availableNames[d]] when nothing was cached.  If [open()] succeeds
    that connection is returned, opened, after its post-open statements have
    run; if it fails the invalid handle is returned and the recycled names
    stay on [availableNames[d]]. *)
Theorem database_recycles_closed_cache app open d p cache avail name rest :
  isSqlDatabaseAvailable app = true ->
  0 <= d < sqlDatabaseSettingsCount app ->
  at_index (cachedDatabase p) d = Some cache ->
  at_index (availableNames p) d = Some avail ->
  Forall (fun n => isOpen (TSqlDatabase_database p n) = false) cache ->
  rev cache ++ avail = name :: rest ->
  isOpen (TSqlDatabase_database p name) = false ->
  exists p',
    database app open (S (List.length cache)) d p
    = Some (Returns (if open name then handle_of p name else QSqlDatabase_invalid), p')
    /\ at_index (cachedDatabase p') d = Some []
    /\ at_index (availableNames p') d = Some (if open name then rest else name :: rest)
    /\ dbDict p'
       = (if open name then alter (setIsOpen true) name (dbDict p) else dbDict p)
    /\ executed p'
       = (if open name
          then executed p
               ++ replayed (connectionName (handle_of p name))
                    (postOpenStatements (TSqlDatabase_database p name))
          else executed p).
Proof.
  intros Hon Hd Hc Ha Hclosed Htop Hname. rewrite database_in_range by done.
  clear Hon Hd. revert p avail Hc Ha Hclosed Htop Hname.
  induction cache as [|c cache IH]; intros p avail Hc Ha Hclosed Htop Hname.
  - cbn in Htop. subst avail. cbn [List.length].
    destruct (open name) eqn:Hopen.
    + rewrite (database_loop_open_success open 0 d p name rest Hc Ha Hname Hopen).
      eexists. split; [done|]. cbn.
      pose proof (at_index_range _ _ _ Ha) as Hr.
      by rewrite at_index_store_eq.
    + rewrite (database_loop_open_failure open 0 d p name rest Hc Ha Hname Hopen).
      by exists p.
  - cbn [List.length]. cbn [database_loop]. rewrite Hc. cbn [mbind option_bind].
    pose proof (at_index_range _ _ _ Hc) as Hrc.
    pose proof (at_index_range _ _ _ Ha) as Hra.
    rewrite store_index_Some by done. cbn [mbind option_bind].
    change (TSqlDatabase_database (set_cachedDatabase _ p) c)
      with (TSqlDatabase_database p c).
    apply Forall_cons in Hclosed as [Hc0 Hclosed]. rewrite Hc0.
    erewrite push_available_Some by (cbn; exact Ha). cbn [mbind option_bind].
    match goal with |- context [database_loop _ _ _ ?q] => set (p2 := q) end.
    destruct (IH p2 (c :: avail)) as (p' & Hrun & Hc' & Ha' & Hd' & He').
    + subst p2. cbn. by apply at_index_store_eq.
    + subst p2. cbn. by apply at_index_store_eq.
    + done.
    + rewrite <- Htop. cbn [rev]. by rewrite <- app_assoc.
    + done.
    + exists p'. split; [exact Hrun|]. by repeat split.
Qed.

Lemma database_recycles_closed_cache_witness :
  exists p',
    database Sample.app (Sample.always true) 2 0 SampleStale.dropped
    = Some (Returns (if Sample.always true "rdb00_1"
                     then handle_of SampleStale.dropped "rdb00_1"
                     else QSqlDatabase_invalid), p')
    /\ at_index (cachedDatabase p') 0 = Some []
    /\ at_index (availableNames p') 0
       = Some (if Sample.always true "rdb00_1" then ["rdb00_0"]
               else ["rdb00_1"; "rdb00_0"])
    /\ dbDict p'
       = (if Sample.always true "rdb00_1"
          then alter (setIsOpen true) "rdb00_1" (dbDict SampleStale.dropped)
          else dbDict SampleStale.dropped)
    /\ executed p'
       = (if Sample.always true "rdb00_1"
          then executed SampleStale.dropped
               ++ replayed (connectionName (handle_of SampleStale.dropped "rdb00_1"))
                    (postOpenStatements
                       (TSqlDatabase_database SampleStale.dropped "rdb00_1"))
          else executed SampleStale.dropped).
Proof.
  apply (database_recycles_closed_cache Sample.app (Sample.always true) 0
           SampleStale.dropped ["rdb00_1"] ["rdb00_0"] "rdb00_1" ["rdb00_0"]);
    try reflexivity.
  - simpl; lia.
  - repeat constructor.
Defined.

(** ** Release followed by acquire *)

(** X8: Reuse.  Returning an open connection with [pool(h)] and then calling
    [database(d)] for its database gives the same handle back by the fast
    path: the driver is not asked to open anything, no statement is
    executed, and the pool is again as it was before the release, except
    for [lastCachedTime[d]], which holds the time of the release. *)
Theorem pool_then_database_reuses app now open fuel d p h :
  arrays_sized app p ->
  isSqlDatabaseAvailable app = true ->
  0 <= d < sqlDatabaseSettingsCount app ->
  isValid h = true ->
  getDatabaseId h = d ->
  handle_of p (connectionName h) = h ->
  isOpen (TSqlDatabase_database p (connectionName h)) = true ->
  exists p1,
    pool app now h false p = Some (p1, QSqlDatabase_invalid)
    /\ database app open (S fuel) d p1
       = Some (Returns h,
               set_lastCachedTime (<[Z.to_nat d := to_uint now]> (lastCachedTime p)) p).
Proof.
  intros (Hlc & Hla & Hlt) Hon Hd Hv Hid Hh Hopen.
  destruct (at_index_in_range (cachedDatabase p) d) as [cache Hc]; [lia|].
  unfold pool. rewrite Hv, Hid.
  destruct (Z.leb_spec 0 d); [|lia].
  destruct (Z.ltb_spec d (sqlDatabaseSettingsCount app)); [|lia].
  cbn [andb]. erewrite push_cached_Some by exact Hc. cbn [mbind option_bind].
  cbn [lastCachedTime set_cachedDatabase].
  rewrite store_index_Some by lia. cbn [mbind option_bind].
  eexists. split; [done|].
  rewrite database_in_range by done. cbn [database_loop].
  cbn [cachedDatabase set_lastCachedTime set_cachedDatabase].
  pose proof (at_index_range _ _ _ Hc) as Hr.
  rewrite at_index_store_eq by done. cbn [mbind option_bind].
  rewrite store_index_Some by (by rewrite length_insert). cbn [mbind option_bind].
  match goal with
  | |- context [isOpen (TSqlDatabase_database ?q (connectionName h))] =>
      change (TSqlDatabase_database q (connectionName h))
        with (TSqlDatabase_database p (connectionName h))
  end.
  rewrite Hopen. fold (handle_of p (connectionName h)). rewrite Hh.
  do 2 f_equal. unfold set_lastCachedTime, set_cachedDatabase. cbn.
  by rewrite (store_back _ _ _ _ Hc).
Qed.

Lemma pool_then_database_reuses_witness :
  exists p1,
    pool Sample.app 1000 {| isValid := true; connectionName := "rdb00_1" |} false
      SampleRun.after_acquire = Some (p1, QSqlDatabase_invalid)
    /\ database Sample.app (Sample.always false) 1 0 p1
       = Some (Returns {| isValid := true; connectionName := "rdb00_1" |},
               set_lastCachedTime
                 (<[Z.to_nat 0 := to_uint 1000]> (lastCachedTime SampleRun.after_acquire))
                 SampleRun.after_acquire).
Proof.
  apply (pool_then_database_reuses Sample.app 1000 (Sample.always false) 0 0
           SampleRun.after_acquire {| isValid := true; connectionName := "rdb00_1" |});
    try reflexivity.
  - repeat split.
  - simpl; lia.
Defined.

(** X9: Force close.  [pool(h, true)] closes the connection and puts its name on
    top of [availableNames[d]], leaving [cachedDatabase[d]] and
    [lastCachedTime[d]] alone.  If nothing is cached for [d], the next
    [database(d)] pops that very name, asks the driver to open it and, when
    that succeeds, runs the slot's post-open statements once more and returns
    the same handle; the stacks are then as they were before the release. *)
Theorem pool_force_close_then_database_reopens app now open fuel d p h tdb :
  arrays_sized app p ->
  isSqlDatabaseAvailable app = true ->
  0 <= d < sqlDatabaseSettingsCount app ->
  isValid h = true ->
  getDatabaseId h = d ->
  dbDict p !! connectionName h = Some tdb ->
  sqlDatabase tdb = h ->
  at_index (cachedDatabase p) d = Some [] ->
  open (connectionName h) = true ->
  exists p1 p2 stack,
    pool app now h true p = Some (p1, QSqlDatabase_invalid)
    /\ at_index (availableNames p) d = Some stack
    /\ at_index (availableNames p1) d = Some (connectionName h :: stack)
    /\ cachedDatabase p1 = cachedDatabase p
    /\ lastCachedTime p1 = lastCachedTime p
    /\ isOpen (TSqlDatabase_database p1 (connectionName h)) = false
    /\ database app open (S fuel) d p1 = Some (Returns h, p2)
    /\ availableNames p2 = availableNames p
    /\ cachedDatabase p2 = cachedDatabase p
    /\ isOpen (TSqlDatabase_database p2 (connectionName h)) = true
    /\ executed p2
       = executed p ++ replayed (connectionName h) (postOpenStatements tdb).
Proof.
  intros (Hlc & Hla & Hlt) Hon Hd Hv Hid Hreg Hh Hc Hopen.
  destruct (at_index_in_range (availableNames p) d) as [stack Ha]; [lia|].
  pose proof (at_index_range _ _ _ Ha) as Hr.
  set (name := connectionName h) in *.
  set (p1 := set_availableNames (<[Z.to_nat d := name :: stack]> (availableNames p))
               (set_dbDict (alter (setIsOpen false) name (dbDict p)) p)).
  assert (Hpool : pool app now h true p = Some (p1, QSqlDatabase_invalid)).
  { unfold pool. rewrite Hv, Hid.
    destruct (Z.leb_spec 0 d); [|lia].
    destruct (Z.ltb_spec d (sqlDatabaseSettingsCount app)); [|lia].
    cbn [andb]. unfold closeDatabase. rewrite Hid. fold name.
    erewrite push_available_Some by (cbn; exact Ha). done. }
  assert (Hlook1 : TSqlDatabase_database p1 name = setIsOpen false tdb).
  { unfold TSqlDatabase_database. subst p1. cbn.
    by rewrite lookup_alter_eq, Hreg. }
  assert (Hrun : database_loop open d (S fuel) p1
                 = Some (Returns (sqlDatabase (TSqlDatabase_database p1 name)),
                         set_executed
                           (executed p1
                            ++ replayed
                                 (connectionName
                                    (sqlDatabase (TSqlDatabase_database p1 name)))
                                 (postOpenStatements (TSqlDatabase_database p1 name)))
                           (set_dbDict (alter (setIsOpen true) name (dbDict p1))
                              (set_availableNames
                                 (<[Z.to_nat d := stack]> (availableNames p1)) p1)))).
  { apply database_loop_open_success; [done| |by rewrite Hlook1|done].
    subst p1. cbn. by apply at_index_store_eq. }
  exists p1. eexists. exists stack. split; [done|]. split; [done|].
  split; [subst p1; cbn; by apply at_index_store_eq|].
  split; [done|]. split; [done|]. split; [by rewrite Hlook1|].
  split; [rewrite database_in_range by done; rewrite Hrun, Hlook1; cbn; by rewrite Hh|].
  subst p1. cbn.
  split; [by rewrite (store_back _ _ _ _ Ha)|]. split; [done|]. split; [|done].
  unfold TSqlDatabase_database. cbn. by rewrite !lookup_alter_eq, Hreg.
Qed.

Lemma pool_force_close_then_database_reopens_witness :
  let h := {| isValid := true; connectionName := "rdb00_1" |} in
  exists p1 p2 stack,
    pool Sample.app 1000 h true SampleRun.after_acquire
    = Some (p1, QSqlDatabase_invalid)
    /\ at_index (availableNames SampleRun.after_acquire) 0 = Some stack
    /\ at_index (availableNames p1) 0 = Some ("rdb00_1" :: stack)
    /\ cachedDatabase p1 = cachedDatabase SampleRun.after_acquire
    /\ lastCachedTime p1 = lastCachedTime SampleRun.after_acquire
    /\ isOpen (TSqlDatabase_database p1 "rdb00_1") = false
    /\ database Sample.app (Sample.always true) 1 0 p1 = Some (Returns h, p2)
    /\ availableNames p2 = availableNames SampleRun.after_acquire
    /\ cachedDatabase p2 = cachedDatabase SampleRun.after_acquire
    /\ isOpen (TSqlDatabase_database p2 "rdb00_1") = true
    /\ executed p2
       = executed SampleRun.after_acquire
         ++ replayed "rdb00_1" ["PRAGMA a "; "PRAGMA b"].
Proof.
  apply (pool_force_close_then_database_reopens Sample.app 1000 (Sample.always true)
           0 0 SampleRun.after_acquire
           {| isValid := true; connectionName := "rdb00_1" |}
           (TSqlDatabase_database SampleRun.after_acquire "rdb00_1"));
    try reflexivity.
  - repeat split.
  - simpl; lia.
Defined.

(** ** Database ids read from names *)

Lemma length_rev_app (s1 s2 : QString) :
  String.length (String.rev_app s1 s2) = (String.length s1 + String.length s2)%nat.
Proof.
  revert s2. induction s1 as [|c s1 IH]; intros s2; cbn; [done|].
  rewrite IH. cbn. lia.
Qed.

Lemma length_skipSpaces (s : QString) :
  (String.length (QStr.skipSpaces s) <= String.length s)%nat.
Proof.
  induction s as [|c s IH]; cbn; [done|]. destruct (QChar.isSpace c); cbn; lia.
Qed.

Lemma length_trimmed (s : QString) :
  (String.length (QStr.trimmed s) <= String.length s)%nat.
Proof.
  unfold QStr.trimmed, String.rev. rewrite length_rev_app. cbn.
  etrans; [|apply (length_skipSpaces s)].
  etrans; [rewrite Nat.add_0_r; apply length_skipSpaces|].
  rewrite length_rev_app. cbn. lia.
Qed.

Lemma length_mid (position n : nat) (s : QString) :
  (String.length (QStr.mid position n s) <= n)%nat.
Proof.
  unfold QStr.mid. revert position n.
  induction s as [|c s IH]; intros [|position] [|n]; cbn; try lia.
  - specialize (IH O n). lia.
  - apply (IH position 0%nat).
  - apply (IH position (S n)).
Qed.

Lemma mid_short (position n : nat) (s : QString) :
  (String.length s <= position)%nat -> QStr.mid position n s = "".
Proof.
  unfold QStr.mid. revert position n.
  induction s as [|c s IH]; intros [|position] [|n]; cbn; intros Hs; try done; try lia.
  - apply IH. lia.
  - apply IH. lia.
Qed.

Lemma digitValue_range (c : ascii) (v : Z) :
  QChar.digitValue c = Some v -> 0 <= v <= 9.
Proof.
  unfold QChar.digitValue, QChar.isDigit.
  destruct (Z.leb_spec 48 (Z.of_N (N_of_ascii c)));
    destruct (Z.leb_spec (Z.of_N (N_of_ascii c)) 57); cbn; intros; simplify_eq; lia.
Qed.

Lemma parseDigits_range (s : QString) (acc v : Z) :
  QStr.parseDigits s acc = Some v -> 0 <= acc ->
  acc * 10 ^ Z.of_nat (String.length s) <= v
  < (acc + 1) * 10 ^ Z.of_nat (String.length s).
Proof.
  revert acc. induction s as [|c s IH]; intros acc Hrun Hacc.
  - cbn in *. injection Hrun as <-. lia.
  - cbn [QStr.parseDigits] in Hrun.
    destruct (QChar.digitValue c) as [x|] eqn:Hx; [|discriminate].
    apply digitValue_range in Hx. apply IH in Hrun; [|lia].
    cbn [String.length]. rewrite Nat2Z.inj_succ, Z.pow_succ_r by lia.
    assert (0 < 10 ^ Z.of_nat (String.length s)) by (apply Z.pow_pos_nonneg; lia).
    nia.
Qed.

Lemma toInt_two_chars (s : QString) :
  (String.length s <= 2)%nat -> snd (QStr.toInt s) <= 99.
Proof.
  intros Hs. pose proof (length_trimmed s) as Ht. unfold QStr.toInt.
  set (t := QStr.trimmed s) in *.
  assert (Hbody : forall negative body,
             (String.length body <= 2)%nat ->
             snd (if QStr.isEmpty body then (false, 0)
                  else match QStr.parseDigits body 0 with
                       | Some v =>
                           let v' := if negative : bool then - v else v in
                           if (QStr.INT_MIN <=? v') && (v' <=? QStr.INT_MAX)
                           then (true, v') else (false, 0)
                       | None => (false, 0)
                       end) <= 99).
  { intros negative body Hlen. destruct (QStr.isEmpty body); [cbn; lia|].
    destruct (QStr.parseDigits body 0) as [v|] eqn:Hv; [|cbn; lia].
    apply parseDigits_range in Hv; [|lia]. cbn zeta.
    destruct (_ && _); [|cbn; lia]. cbn [snd].
    assert (10 ^ Z.of_nat (String.length body) <= 10 ^ 2)
      by (apply Z.pow_le_mono_r; lia).
    destruct negative; lia. }
  destruct t as [|c r] eqn:Heq; [apply (Hbody false ""); cbn; lia|].
  cbn [String.length] in Ht.
  destruct (Ascii.eqb_spec c "-") as [->|Hminus];
    [apply (Hbody true r); lia|].
  destruct (Ascii.eqb_spec c "+") as [->|Hplus];
    [apply (Hbody false r); lia|].
  destruct c as [[] [] [] [] [] [] [] []];
    try (by destruct Hminus); try (by destruct Hplus);
    apply (Hbody false (String _ r)); cbn [String.length]; lia.
Qed.

Lemma getDatabaseId_le_99 (database : QSqlDatabase) : getDatabaseId database <= 99.
Proof.
  unfold getDatabaseId.
  pose proof (toInt_two_chars (QStr.mid 3 2 (connectionName database))
                (length_mid 3 2 _)) as Hle.
  destruct (QStr.toInt _) as [ok id]. cbn [snd] in Hle.
  destruct (ok && (0 <=? id)); lia.
Qed.

Lemma three_digits_ok_below_1000 (d : Z) : 100 <= d < 1000 -> three_digits_ok d = true.
Proof.
  intros Hd.
  assert (Hall : forallb three_digits_ok ((fun x => 100 + Z.of_nat x) <$> seq 0 900) = true)
    by (vm_compute; reflexivity).
  rewrite forallb_forall in Hall. apply Hall.
  apply list_elem_of_In, list_elem_of_fmap. exists (Z.to_nat (d - 100)).
  split; [lia|]. apply elem_of_seq. lia.
Qed.

(** X10: The range of [getDatabaseId].  Whatever the connection name, the result
    is -1 or an index between 0 and 99: two characters are read.  It is -1
    for every name of fewer than four characters.  For a database index [d]
    from 100 to 999 the name [sprintf("rdb%02d_%d", d, i)] is read as index
    [d / 10], so the round trip of the name scheme ends at 99. *)
Theorem getDatabaseId_range (database : QSqlDatabase) :
  (getDatabaseId database = -1 \/ 0 <= getDatabaseId database <= 99)
  /\ ((String.length (connectionName database) <= 3)%nat -> getDatabaseId database = -1)
  /\ (forall d i, 100 <= d < 1000 -> connectionName database = CONN_NAME d i ->
        getDatabaseId database = d / 10).
Proof.
  split; [|split].
  - pose proof (getDatabaseId_le_99 database) as Hle. unfold getDatabaseId in *.
    destruct (QStr.toInt _) as [ok id].
    destruct ok; cbn [andb] in *; [|by left].
    destruct (Z.leb_spec 0 id); [right; lia|by left].
  - intros Hshort. unfold getDatabaseId. by rewrite mid_short.
  - intros d i Hd Hname.
    pose proof (three_digits_ok_below_1000 d Hd) as Hok. unfold three_digits_ok in Hok.
    unfold getDatabaseId. rewrite Hname. unfold CONN_NAME.
    destruct (QStr.format_02d d) as [|a [|b [|c [|]]]]; try done.
    apply bool_decide_eq_true in Hok.
    change (QStr.mid 3 2 _) with (String a (String b "")).
    rewrite Hok. destruct (Z.leb_spec 0 (d / 10)); [done|].
    assert (0 <= d / 10) by (apply Z.div_pos; lia). lia.
Qed.

Lemma getDatabaseId_range_witness :
  let database := {| isValid := true; connectionName := "rdb100_0" |} in
  (getDatabaseId database = -1 \/ 0 <= getDatabaseId database <= 99)
  /\ ((String.length (connectionName database) <= 3)%nat -> getDatabaseId database = -1)
  /\ (forall d i, 100 <= d < 1000 -> connectionName database = CONN_NAME d i ->
        getDatabaseId database = d / 10).
Proof. apply getDatabaseId_range. Defined.

(** X11: Databases from index 100 on never get a connection back.  On an
    allocated pool, whatever handle [pool] is given and whether it closes or
    caches, the stacks and the timestamp of every database index of 100 or
    more are left as they were: a name borrowed from such a database is
    pushed onto the stacks of a database below 100, or dropped. *)
Theorem pool_never_reaches_database_100 app now database forceClose p :
  arrays_sized app p ->
  exists p',
    pool app now database forceClose p = Some (p', QSqlDatabase_invalid)
    /\ forall d, 100 <= d ->
         at_index (cachedDatabase p') d = at_index (cachedDatabase p) d
         /\ at_index (availableNames p') d = at_index (availableNames p) d
         /\ at_index (lastCachedTime p') d = at_index (lastCachedTime p) d.
Proof.
  intros (Hc & Ha & Ht). unfold pool.
  pose proof (getDatabaseId_le_99 database) as Hle.
  destruct (isValid database); cbn [mbind option_bind]; [|by exists p].
  destruct (Z.leb_spec 0 (getDatabaseId database)) as [H0|H0]; cbn [andb];
    [|by exists p].
  destruct (Z.ltb_spec (getDatabaseId database) (sqlDatabaseSettingsCount app))
    as [H1|H1]; [|by exists p].
  destruct forceClose.
  - unfold closeDatabase.
    destruct (at_index_in_range (availableNames p) (getDatabaseId database))
      as [stack Hs]; [lia|].
    erewrite push_available_Some by (cbn; exact Hs). cbn.
    eexists. split; [done|]. intros d Hd. cbn.
    by rewrite at_index_store_ne by lia.
  - destruct (at_index_in_range (cachedDatabase p) (getDatabaseId database))
      as [stack Hs]; [lia|].
    erewrite push_cached_Some by exact Hs. cbn.
    rewrite store_index_Some by lia. cbn.
    eexists. split; [done|]. intros d Hd. cbn.
    by rewrite !at_index_store_ne by lia.
Qed.

Lemma pool_never_reaches_database_100_witness :
  exists p',
    pool Sample101.app 1000 {| isValid := true; connectionName := "rdb100_0" |} false
      Sample101.fresh = Some (p', QSqlDatabase_invalid)
    /\ forall d, 100 <= d ->
         at_index (cachedDatabase p') d = at_index (cachedDatabase Sample101.fresh) d
         /\ at_index (availableNames p') d = at_index (availableNames Sample101.fresh) d
         /\ at_index (lastCachedTime p') d = at_index (lastCachedTime Sample101.fresh) d.
Proof.
  apply pool_never_reaches_database_100. repeat split.
Defined.

(** ** Teardown *)

Lemma remove_all_app (a b : list QString) dict :
  remove_all (a ++ b) dict = remove_all b (remove_all a dict).
Proof. unfold remove_all. apply fold_left_app. Qed.

Lemma remove_all_lookup_in (names : list QString) dict (name : QString) :
  name ∈ names -> remove_all names dict !! name = None.
Proof.
  revert dict. induction names as [|n names IH]; intros dict Hin.
  { by apply elem_of_nil in Hin. }
  cbn. destruct (decide (name ∈ names)) as [Hlater|Hnot]; [by apply IH|].
  apply elem_of_cons in Hin as [->|?]; [|done].
  clear IH. revert dict. induction names as [|m names IH]; intros dict.
  - cbn. apply lookup_delete_eq.
  - cbn. rewrite delete_delete. apply IH. intros ?. apply Hnot. by right.
Qed.

Lemma remove_all_lookup_notin (names : list QString) dict (name : QString) :
  name ∉ names -> remove_all names dict !! name = dict !! name.
Proof.
  revert dict. induction names as [|n names IH]; intros dict Hnotin; [done|].
  cbn. rewrite IH by (intros ?; apply Hnotin; by right).
  apply lookup_delete_ne. intros ->. apply Hnotin. by left.
Qed.

Lemma registry_consistent_delete name dict :
  registry_consistent dict -> registry_consistent (delete name dict).
Proof.
  intros [Hk He]. split.
  - by apply map_Forall_delete.
  - destruct (decide (name = "")) as [->|Hne];
      [apply lookup_delete_eq|by rewrite lookup_delete_ne].
Qed.

Lemma registry_consistent_alter b name dict :
  registry_consistent dict -> registry_consistent (alter (setIsOpen b) name dict).
Proof.
  intros [Hk He]. split.
  - intros n tdb Hlook. rewrite lookup_alter in Hlook. case_decide.
    + subst. destruct (dict !! n) as [tdb0|] eqn:Hn; [|discriminate].
      cbn in Hlook. injection Hlook as <-. cbn. by apply (Hk n).
    + by apply (Hk n).
  - rewrite lookup_alter. case_decide; [subst; by rewrite He|done].
Qed.

Lemma registry_consistent_remove_all names dict :
  registry_consistent dict -> registry_consistent (remove_all names dict).
Proof.
  revert dict. induction names as [|n names IH]; intros dict H; [done|].
  cbn. by apply IH, registry_consistent_delete.
Qed.

(** Closing the connection behind the handle the registry gives for a name
    and then removing the name amounts to removing the name. *)
Lemma delete_after_close (name : QString) dict :
  registry_consistent dict ->
  delete name
    (alter (setIsOpen false)
       (connectionName (sqlDatabase (default TSqlDatabase_default (dict !! name))))
       dict)
  = delete name dict.
Proof.
  intros [Hk He]. destruct (dict !! name) as [tdb|] eqn:Hlook; cbn.
  - rewrite (Hk name tdb Hlook). apply map_eq. intros i.
    destruct (decide (i = name)) as [->|Hne].
    + by rewrite !lookup_delete_eq.
    + by rewrite !lookup_delete_ne, lookup_alter_ne.
  - f_equal. apply map_eq. intros i. rewrite lookup_alter. case_decide; [|done].
    subst. by rewrite He.
Qed.

Lemma destructor_while_cache_spec j cache p :
  at_index (cachedDatabase p) j = Some cache ->
  registry_consistent (dbDict p) ->
  destructor_while_cache j cache p
  = Some (set_dbDict (remove_all cache (dbDict p))
            (set_cachedDatabase (<[Z.to_nat j := []]> (cachedDatabase p)) p)).
Proof.
  revert p. induction cache as [|name cache IH]; intros p Hc Hreg.
  { cbn. f_equal. unfold set_dbDict, set_cachedDatabase. cbn.
    rewrite list_insert_id; [by rewrite pool_eta|].
    by apply at_index_Some in Hc as [_ ?]. }
  cbn [destructor_while_cache].
  pose proof (at_index_range _ _ _ Hc) as Hr.
  rewrite store_index_Some by done. cbn [mbind option_bind].
  unfold TSqlDatabase_removeDatabase, TSqlDatabase_database.
  cbn [dbDict set_dbDict set_cachedDatabase].
  rewrite delete_after_close by done.
  rewrite IH.
  - f_equal. unfold set_dbDict, set_cachedDatabase. cbn.
    by rewrite list_insert_insert_eq.
  - cbn. by apply at_index_store_eq.
  - cbn. by apply registry_consistent_delete.
Qed.

Lemma destructor_while_stack_spec j stack p :
  at_index (availableNames p) j = Some stack ->
  destructor_while_stack j stack p
  = Some (set_dbDict (remove_all stack (dbDict p))
            (set_availableNames (<[Z.to_nat j := []]> (availableNames p)) p)).
Proof.
  revert p. induction stack as [|name stack IH]; intros p Ha.
  { cbn. f_equal. unfold set_dbDict, set_availableNames. cbn.
    rewrite list_insert_id; [by rewrite pool_eta|].
    by apply at_index_Some in Ha as [_ ?]. }
  cbn [destructor_while_stack].
  pose proof (at_index_range _ _ _ Ha) as Hr.
  rewrite store_index_Some by done. cbn [mbind option_bind].
  unfold TSqlDatabase_removeDatabase. rewrite IH.
  - f_equal. unfold set_dbDict, set_availableNames. cbn.
    by rewrite list_insert_insert_eq.
  - cbn. by apply at_index_store_eq.
Qed.

Lemma names_on_stacks_ext (p q : TSqlDatabasePool) (n : nat) (j : Z) :
  (forall d, j <= d ->
     at_index (cachedDatabase q) d = at_index (cachedDatabase p) d
     /\ at_index (availableNames q) d = at_index (availableNames p) d) ->
  names_on_stacks q n j = names_on_stacks p n j.
Proof.
  revert j. induction n as [|n IH]; intros j Hsame; [done|].
  cbn. destruct (Hsame j) as [-> ->]; [lia|]. rewrite IH; [done|].
  intros d Hd. apply Hsame. lia.
Qed.

Lemma destructor_for_spec n j p :
  0 <= j ->
  j + Z.of_nat n <= Z.of_nat (List.length (cachedDatabase p)) ->
  List.length (availableNames p) = List.length (cachedDatabase p) ->
  registry_consistent (dbDict p) ->
  exists p',
    destructor_for n j p = Some p'
    /\ dbDict p' = remove_all (names_on_stacks p n j) (dbDict p)
    /\ executed p' = executed p
    /\ timer p' = timer p.
Proof.
  revert j p. induction n as [|n IH]; intros j p Hj Hn Hla Hreg.
  { by exists p. }
  cbn [destructor_for names_on_stacks].
  destruct (at_index_in_range (cachedDatabase p) j) as [cache Hc]; [lia|].
  destruct (at_index_in_range (availableNames p) j) as [stack Ha]; [lia|].
  rewrite Hc, Ha. cbn [mbind option_bind default].
  rewrite (destructor_while_cache_spec j cache p Hc Hreg). cbn [mbind option_bind].
  cbn [availableNames set_dbDict set_cachedDatabase]. rewrite Ha.
  cbn [mbind option_bind].
  rewrite destructor_while_stack_spec by (cbn; exact Ha).
  cbn [mbind option_bind].
  match goal with |- context [destructor_for n (j + 1) ?q] => set (p2 := q) end.
  destruct (IH (j + 1) p2) as (p' & Hrun & Hd & He & Ht).
  - lia.
  - subst p2. cbn. rewrite length_insert. lia.
  - subst p2. cbn. by rewrite !length_insert.
  - subst p2. cbn. by do 2 apply registry_consistent_remove_all.
  - exists p'. split; [done|]. split; [|by split].
    rewrite Hd. rewrite (names_on_stacks_ext p p2).
    + subst p2. cbn. by rewrite !remove_all_app.
    + intros d Hd'. subst p2. cbn. by rewrite !at_index_store_ne by lia.
Qed.

(** X12: Teardown.  On an allocated pool whose registry is consistent, the
    destructor stops the timer, deletes the arrays and removes from the
    registry exactly the connections whose names are on a stack at that
    moment.  A connection whose name is on no stack, such as one a worker
    still holds, stays registered as it is, open if it was open. *)
Theorem destructor_unregisters_stacked_names app p :
  arrays_sized app p ->
  registry_consistent (dbDict p) ->
  exists p',
    destructor app p = Some p'
    /\ timer p' = None
    /\ cachedDatabase p' = [] /\ availableNames p' = [] /\ lastCachedTime p' = []
    /\ executed p' = executed p
    /\ (forall name,
          name ∈ names_on_stacks p (Z.to_nat (sqlDatabaseSettingsCount app)) 0 ->
          dbDict p' !! name = None)
    /\ (forall name,
          name ∉ names_on_stacks p (Z.to_nat (sqlDatabaseSettingsCount app)) 0 ->
          dbDict p' !! name = dbDict p !! name).
Proof.
  intros (Hlc & Hla & Hlt) Hreg. unfold destructor.
  destruct (destructor_for_spec (Z.to_nat (sqlDatabaseSettingsCount app)) 0
              (set_timer None p)) as (p' & Hrun & Hd & He & Ht);
    [lia|cbn; lia|cbn; congruence|done|].
  rewrite Hrun. cbn [mbind option_bind]. eexists. split; [done|]. cbn.
  rewrite (names_on_stacks_ext p (set_timer None p)) in Hd by done.
  cbn in Hd. rewrite Hd.
  repeat split; try done.
  - intros name Hin. by apply remove_all_lookup_in.
  - intros name Hnotin. by apply remove_all_lookup_notin.
Qed.

Lemma sample_registry_consistent : registry_consistent (dbDict SampleRun.after_acquire).
Proof.
  split; [|reflexivity].
  apply (bool_decide_unpack _). by vm_compute.
Defined.

Lemma destructor_unregisters_stacked_names_witness :
  exists p',
    destructor Sample.app SampleRun.after_acquire = Some p'
    /\ timer p' = None
    /\ cachedDatabase p' = [] /\ availableNames p' = [] /\ lastCachedTime p' = []
    /\ executed p' = executed SampleRun.after_acquire
    /\ (forall name,
          name ∈ names_on_stacks SampleRun.after_acquire
                   (Z.to_nat (sqlDatabaseSettingsCount Sample.app)) 0 ->
          dbDict p' !! name = None)
    /\ (forall name,
          name ∉ names_on_stacks SampleRun.after_acquire
                   (Z.to_nat (sqlDatabaseSettingsCount Sample.app)) 0 ->
          dbDict p' !! name = dbDict SampleRun.after_acquire !! name).
Proof.
  apply destructor_unregisters_stacked_names.
  - repeat split.
  - exact sample_registry_consistent.
Defined.

(** ** The reaper: what it closes and what it keeps *)

Lemma close_all_app (a b : list QString) dict :
  close_all (a ++ b) dict = close_all b (close_all a dict).
Proof. unfold close_all. apply fold_left_app. Qed.

Lemma idle_names_ext now (p q : TSqlDatabasePool) (n : nat) (j : Z) :
  lastCachedTime q = lastCachedTime p ->
  (forall d, j <= d -> at_index (cachedDatabase q) d = at_index (cachedDatabase p) d) ->
  idle_names now q n j = idle_names now p n j.
Proof.
  intros Ht. revert j. induction n as [|n IH]; intros j Hsame; [done|].
  cbn. rewrite Ht, (Hsame j) by lia. rewrite IH; [done|].
  intros d Hd. apply Hsame. lia.
Qed.

Lemma elem_of_idle_names now p n j name :
  name ∈ idle_names now p n j ->
  exists d t cache,
    j <= d < j + Z.of_nat n
    /\ at_index (lastCachedTime p) d = Some t
    /\ at_index (cachedDatabase p) d = Some cache
    /\ idle_too_long now t = true
    /\ name ∈ cache.
Proof.
  revert j. induction n as [|n IH]; intros j Hin; [by apply elem_of_nil in Hin|].
  cbn in Hin. apply elem_of_app in Hin as [Hin|Hin].
  - destruct (at_index (lastCachedTime p) j) as [t|] eqn:Ht;
      [|by apply elem_of_nil in Hin].
    destruct (at_index (cachedDatabase p) j) as [cache|] eqn:Hc;
      [|by apply elem_of_nil in Hin].
    destruct (idle_too_long now t) eqn:Hidle; [|by apply elem_of_nil in Hin].
    exists j, t, cache. repeat split; try done; lia.
  - destruct (IH _ Hin) as (d & t & cache & Hd & ?). exists d, t, cache.
    split; [lia|done].
Qed.

(** The registry after the body of the sweep for database [j]. *)
Lemma timerEvent_body_dict now j p p1 t cache :
  at_index (lastCachedTime p) j = Some t ->
  at_index (cachedDatabase p) j = Some cache ->
  0 <= j < Z.of_nat (List.length (availableNames p)) ->
  cached_names_wf p ->
  timerEvent_body now j p = Some p1 ->
  dbDict p1 = close_all (if idle_too_long now t then cache else []) (dbDict p)
  /\ executed p1 = executed p /\ timer p1 = timer p.
Proof.
  intros Ht Hc Hj Hwf Hrun. unfold timerEvent_body in Hrun. rewrite Hc in Hrun.
  cbn [mbind option_bind] in Hrun.
  destruct (at_index_in_range (availableNames p) j) as [stack Ha]; [done|].
  destruct (idle_too_long now t) eqn:Hidle.
  - assert (Hwhile : timerEvent_while now j cache p = Some p1).
    { destruct cache as [|name cache]; [|exact Hrun].
      cbn in Hrun. injection Hrun as <-. cbn. rewrite Ht. cbn.
      unfold idle_too_long in Hidle. by rewrite Hidle. }
    rewrite (timerEvent_while_idle now j cache p t stack Ht Hc Ha) in Hwhile;
      [|intros; by eapply Hwf|done].
    by injection Hwhile as <-.
  - assert (p1 = p) as ->; [|done].
    destruct cache as [|name cache]; [cbn in Hrun; by injection Hrun|].
    cbn [List.length Nat.eqb] in Hrun.
    rewrite (timerEvent_while_recent now j _ p t Ht Hidle) in Hrun.
    by injection Hrun.
Qed.

Lemma timerEvent_for_dict now n j p :
  0 <= j ->
  j + Z.of_nat n <= Z.of_nat (List.length (cachedDatabase p)) ->
  List.length (availableNames p) = List.length (cachedDatabase p) ->
  List.length (lastCachedTime p) = List.length (cachedDatabase p) ->
  cached_names_wf p ->
  exists p',
    timerEvent_for now n j p = Some p'
    /\ dbDict p' = close_all (idle_names now p n j) (dbDict p)
    /\ executed p' = executed p
    /\ timer p' = timer p.
Proof.
  revert j p. induction n as [|n IH]; intros j p Hj Hn Hla Hlt Hwf.
  { by exists p. }
  rewrite timerEvent_for_S.
  destruct (timerEvent_body_spec now j p) as
    (p1 & Hrun1 & Hreap1 & Hout1 & Ht1 & Hlc1 & Hla1 & _ & _ & _ & Hh1 & _ & _);
    [lia|done|done|done|].
  destruct (at_index_in_range (cachedDatabase p) j) as [cache Hc]; [lia|].
  destruct (at_index_in_range (availableNames p) j) as [stack Ha]; [lia|].
  destruct (at_index_in_range (lastCachedTime p) j) as [t Ht]; [lia|].
  destruct (timerEvent_body_dict now j p p1 t cache Ht Hc ltac:(lia) Hwf Hrun1)
    as (Hd1 & He1 & Htm1).
  rewrite Hrun1. cbn [mbind option_bind].
  assert (Hwf1 : cached_names_wf p1).
  { intros d cache0 name Hc0 Hin. unfold belongs_to. rewrite Hh1.
    destruct (decide (d = j)) as [->|Hne].
    - destruct (Hreap1 t cache stack Ht Hc Ha) as [Hidle Hrecent].
      destruct (idle_too_long now t).
      + destruct Hidle as (Hc' & _); [done|]. rewrite Hc0 in Hc'.
        injection Hc' as ->. by apply elem_of_nil in Hin.
      + destruct Hrecent as (Hc' & _); [by left|]. rewrite Hc0 in Hc'.
        injection Hc' as ->. by eapply Hwf.
    - destruct (Hout1 d Hne) as [Hc' _]. rewrite Hc' in Hc0. by eapply Hwf. }
  destruct (IH (j + 1) p1) as (p' & Hrun & Hd & He & Htm);
    [lia|lia|congruence|congruence|done|].
  exists p'. split; [done|]. split; [|split; congruence].
  rewrite Hd, Hd1. cbn [idle_names]. rewrite Ht, Hc, close_all_app.
  f_equal. apply idle_names_ext; [done|].
  intros d Hd'. apply Hout1. lia.
Qed.

(** X13: What a sweep does to the connections.  On an allocated pool whose cached
    names belong to their stacks, a tick of the pool's timer closes exactly
    the connections cached for the databases that have been idle too long;
    every other connection is left as it is.  The tick executes no
    statement, and leaves the timer and the timestamps alone. *)
Theorem timerEvent_closes_idle_only app now p :
  arrays_sized app p ->
  cached_names_wf p ->
  exists p',
    timerEvent app true now p = Some p'
    /\ dbDict p'
       = close_all (idle_names now p (Z.to_nat (sqlDatabaseSettingsCount app)) 0)
           (dbDict p)
    /\ (forall name,
          name ∈ idle_names now p (Z.to_nat (sqlDatabaseSettingsCount app)) 0 ->
          isOpen (TSqlDatabase_database p' name) = false)
    /\ (forall name,
          name ∉ idle_names now p (Z.to_nat (sqlDatabaseSettingsCount app)) 0 ->
          dbDict p' !! name = dbDict p !! name)
    /\ executed p' = executed p
    /\ timer p' = timer p
    /\ lastCachedTime p' = lastCachedTime p.
Proof.
  intros (Hlc & Hla & Hlt) Hwf. unfold timerEvent.
  destruct (timerEvent_for_dict now (Z.to_nat (sqlDatabaseSettingsCount app)) 0 p)
    as (p' & Hrun & Hd & He & Htm); [lia|lia|congruence|congruence|done|].
  destruct (timerEvent_for_spec now (Z.to_nat (sqlDatabaseSettingsCount app)) 0 p)
    as (p0 & Hrun0 & _ & _ & Ht & _); [lia|lia|congruence|congruence|done|].
  rewrite Hrun in Hrun0. injection Hrun0 as <-.
  exists p'. split; [done|]. split; [done|].
  split; [|split; [|done]].
  - intros name Hin. unfold TSqlDatabase_database. rewrite Hd.
    by apply close_all_closes.
  - intros name Hnotin. rewrite Hd. by apply close_all_lookup_notin.
Qed.

Lemma timerEvent_closes_idle_only_witness :
  exists p',
    timerEvent Sample.app true 1031 Sample.warm = Some p'
    /\ dbDict p'
       = close_all (idle_names 1031 Sample.warm
                      (Z.to_nat (sqlDatabaseSettingsCount Sample.app)) 0)
           (dbDict Sample.warm)
    /\ (forall name,
          name ∈ idle_names 1031 Sample.warm
                   (Z.to_nat (sqlDatabaseSettingsCount Sample.app)) 0 ->
          isOpen (TSqlDatabase_database p' name) = false)
    /\ (forall name,
          name ∉ idle_names 1031 Sample.warm
                   (Z.to_nat (sqlDatabaseSettingsCount Sample.app)) 0 ->
          dbDict p' !! name = dbDict Sample.warm !! name)
    /\ executed p' = executed Sample.warm
    /\ timer p' = timer Sample.warm
    /\ lastCachedTime p' = lastCachedTime Sample.warm.
Proof.
  apply timerEvent_closes_idle_only.
  - repeat split.
  - intros d cache name Hc Hin.
    pose proof (at_index_range _ _ _ Hc) as Hr. cbn in Hr.
    assert (d = 0) as -> by lia. cbn in Hc. injection Hc as <-.
    apply list_elem_of_singleton in Hin as ->. split; reflexivity.
Defined.

Lemma idle_too_long_recent (now0 now1 : Z) :
  0 <= now0 < 2 ^ 32 -> 30 <= now1 < 2 ^ 32 -> now1 - 30 <= now0 ->
  idle_too_long now1 (to_uint now0) = false.
Proof.
  intros H0 H1 Hle. unfold idle_too_long, to_uint.
  rewrite (Z.mod_small now0), (Z.mod_small now1), (Z.mod_small (now1 - 30)) by lia.
  apply Z.ltb_ge. lia.
Qed.

(** X14: A recent return keeps the database warm.  When a connection is
    returned with [pool(h)] at clock reading [now0] and the reaper ticks at a
    clock reading [now1] for which its own test on the time stamp the release
    stored, [(uint)now0 < (uint)now1 - 30] in [uint] arithmetic, is false,
    the tick leaves both stacks of that database as the release left them,
    the returned name on top of [cachedDatabase[d]], and every connection
    cached for the database is as it was: none of them is closed, however
    long the others have been cached.  The test is stated as the code has
    it: no range of the clock is assumed. *)
Theorem pool_then_timerEvent_keeps_recent app now0 now1 d p h :
  arrays_sized app p ->
  cached_names_wf p ->
  0 <= d < sqlDatabaseSettingsCount app ->
  isValid h = true ->
  getDatabaseId h = d ->
  handle_of p (connectionName h) = h ->
  idle_too_long now1 (to_uint now0) = false ->
  exists p1 p2 cache,
    at_index (cachedDatabase p) d = Some cache
    /\ pool app now0 h false p = Some (p1, QSqlDatabase_invalid)
    /\ timerEvent app true now1 p1 = Some p2
    /\ at_index (cachedDatabase p2) d = Some (connectionName h :: cache)
    /\ at_index (availableNames p2) d = at_index (availableNames p) d
    /\ (forall name, name ∈ connectionName h :: cache ->
          dbDict p2 !! name = dbDict p !! name).
Proof.
  intros (Hlc & Hla & Hlt) Hwf Hd Hv Hid Hh Hrecent.
  destruct (at_index_in_range (cachedDatabase p) d) as [cache Hc]; [lia|].
  destruct (at_index_in_range (availableNames p) d) as [stack Ha]; [lia|].
  pose proof (at_index_range _ _ _ Hc) as Hr.
  set (name := connectionName h) in *.
  set (p1 := set_lastCachedTime (<[Z.to_nat d := to_uint now0]> (lastCachedTime p))
               (set_cachedDatabase (<[Z.to_nat d := name :: cache]> (cachedDatabase p)) p)).
  assert (Hpool : pool app now0 h false p = Some (p1, QSqlDatabase_invalid)).
  { unfold pool. rewrite Hv, Hid.
    destruct (Z.leb_spec 0 d); [|lia].
    destruct (Z.ltb_spec d (sqlDatabaseSettingsCount app)); [|lia].
    cbn [andb]. fold name. erewrite push_cached_Some by exact Hc.
    cbn [mbind option_bind]. cbn [lastCachedTime set_cachedDatabase].
    by rewrite store_index_Some by lia. }
  assert (Hc1 : at_index (cachedDatabase p1) d = Some (name :: cache))
    by (subst p1; cbn; by apply at_index_store_eq).
  assert (Ht1 : at_index (lastCachedTime p1) d = Some (to_uint now0))
    by (subst p1; cbn; apply at_index_store_eq; lia).
  assert (Ha1 : at_index (availableNames p1) d = Some stack) by done.
  assert (Hwf1 : cached_names_wf p1).
  { intros d' cache' n Hc' Hin. 
    change (belongs_to p1 d' n) with (belongs_to p d' n).
    destruct (decide (d' = d)) as [->|Hne].
    - rewrite Hc1 in Hc'. injection Hc' as <-.
      apply elem_of_cons in Hin as [->|Hin]; [|by eapply Hwf].
      unfold belongs_to. by rewrite Hh.
    - unfold p1 in Hc'. cbn in Hc'. rewrite at_index_store_ne in Hc' by lia.
      by eapply Hwf. }
  assert (Hsized1 : arrays_sized app p1).
  { unfold arrays_sized. subst p1. cbn. by rewrite !length_insert. }
  destruct Hsized1 as (Hlc1 & Hla1 & Hlt1).
  destruct (timerEvent_for_dict now1 (Z.to_nat (sqlDatabaseSettingsCount app)) 0 p1)
    as (p2 & Hrun & Hdict & _); [lia|lia|congruence|congruence|done|].
  assert (Hkeep : forall n,
             n ∉ idle_names now1 p1 (Z.to_nat (sqlDatabaseSettingsCount app)) 0 ->
             dbDict p2 !! n = dbDict p !! n).
  { intros n Hn. rewrite Hdict. by rewrite close_all_lookup_notin. }
  destruct (timerEvent_for_spec now1 (Z.to_nat (sqlDatabaseSettingsCount app)) 0 p1)
    as (p0 & Hrun0 & Hreap & _); [lia|lia|congruence|congruence|done|].
  rewrite Hrun in Hrun0. injection Hrun0 as <-.
  destruct (Hreap d ltac:(lia) _ _ _ Ht1 Hc1 Ha1) as [_ Hsame].
  destruct Hsame as [Hc2 Ha2]; [by left|].
  exists p1, p2, cache. split; [done|]. split; [done|]. split; [done|].
  split; [done|]. split; [by rewrite Ha2, Ha|].
  intros n Hin. rewrite Hkeep; [done|].
  intros (d' & t & cache' & Hd' & Ht' & Hc' & Hidle & Hin')%elem_of_idle_names.
  assert (d' = d) as ->.
  { destruct (Hwf1 d' cache' n Hc' Hin') as [_ E1].
    destruct (Hwf1 d (name :: cache) n Hc1 Hin) as [_ E2]. congruence. }
  rewrite Ht1 in Ht'. injection Ht' as <-. congruence.
Qed.

Lemma pool_then_timerEvent_keeps_recent_witness :
  let h := {| isValid := true; connectionName := "rdb00_1" |} in
  exists p1 p2 cache,
    at_index (cachedDatabase SampleRun.after_acquire) 0 = Some cache
    /\ pool Sample.app 1000 h false SampleRun.after_acquire
       = Some (p1, QSqlDatabase_invalid)
    /\ timerEvent Sample.app true 1030 p1 = Some p2
    /\ at_index (cachedDatabase p2) 0 = Some ("rdb00_1" :: cache)
    /\ at_index (availableNames p2) 0
       = at_index (availableNames SampleRun.after_acquire) 0
    /\ (forall name, name ∈ "rdb00_1" :: cache ->
          dbDict p2 !! name = dbDict SampleRun.after_acquire !! name).
Proof.
  apply (pool_then_timerEvent_keeps_recent Sample.app 1000 1030 0
           SampleRun.after_acquire {| isValid := true; connectionName := "rdb00_1" |});
    try reflexivity; try (simpl; lia).
  - repeat split.
  - intros d cache name Hc Hin.
    pose proof (at_index_range _ _ _ Hc) as Hr. cbn in Hr.
    assert (d = 0) as -> by lia. cbn in Hc. injection Hc as <-.
    by apply elem_of_nil in Hin.
Defined.

(** ** The registry stays consistent *)

Lemma CONN_NAME_not_empty (j i : Z) : CONN_NAME j i <> "".
Proof. unfold CONN_NAME. done. Qed.

Lemma registry_consistent_insert name tdb dict :
  name <> "" -> connectionName (sqlDatabase tdb) = name ->
  registry_consistent dict -> registry_consistent (<[name := tdb]> dict).
Proof.
  intros Hne Hname [Hk He]. split.
  - by apply map_Forall_insert_2.
  - by rewrite lookup_insert_ne.
Qed.

Lemma registry_consistent_close_all names dict :
  registry_consistent dict -> registry_consistent (close_all names dict).
Proof.
  revert dict. induction names as [|n names IH]; intros dict H; [done|].
  cbn. by apply IH, registry_consistent_alter.
Qed.

Lemma push_available_dbDict id name p p' :
  push_available id name p = Some p' -> dbDict p' = dbDict p.
Proof.
  unfold push_available. destruct (at_index _ _); [|discriminate]. cbn.
  destruct (store_index _ _ _); [|discriminate]. cbn. by intros [= <-].
Qed.

Lemma init_slots_consistent app drv j type n i p p' :
  registry_consistent (dbDict p) ->
  init_slots app drv j type n i p = Some p' ->
  registry_consistent (dbDict p').
Proof.
  revert i p. induction n as [|n IH]; intros i p Hreg Hrun.
  { cbn in Hrun. by injection Hrun as <-. }
  cbn in Hrun.
  assert (Hnew : registry_consistent
                   (<[CONN_NAME j i := new_connection drv type (CONN_NAME j i)]> (dbDict p)))
    by (apply registry_consistent_insert; [apply CONN_NAME_not_empty|done..]).
  destruct (addDatabase_isValid drv type (CONN_NAME j i)); cbn in Hrun.
  2: { by injection Hrun as <-. }
  destruct (setDatabaseSettings app drv (new_connection drv type (CONN_NAME j i)) j)
    as [b db'] eqn:Hset.
  assert (Hname : connectionName (sqlDatabase db') = CONN_NAME j i).
  { replace db' with (snd (setDatabaseSettings app drv
                              (new_connection drv type (CONN_NAME j i)) j))
      by (by rewrite Hset).
    by rewrite setDatabaseSettings_sqlDatabase. }
  rewrite Hname in Hrun.
  destruct (push_available _ _ _) as [p2|] eqn:Hpush; [|discriminate].
  cbn in Hrun. apply (IH (i + 1) p2); [|done].
  rewrite (push_available_dbDict _ _ _ _ Hpush). cbn.
  apply registry_consistent_insert; [apply CONN_NAME_not_empty|done..].
Qed.

Lemma init_databases_consistent app drv n j aval p aval' p' :
  registry_consistent (dbDict p) ->
  init_databases app drv n j aval p = Some (aval', p') ->
  registry_consistent (dbDict p').
Proof.
  revert j aval p. induction n as [|n IH]; intros j aval p Hreg Hrun.
  { cbn in Hrun. by injection Hrun as _ <-. }
  cbn [init_databases] in Hrun.
  destruct (QStr.isEmpty (driverType app j)); [by eapply IH|].
  destruct (init_slots _ _ _ _ _ _ _) as [p1|] eqn:Hslots; [|discriminate].
  cbn in Hrun. eapply IH; [|exact Hrun]. by eapply init_slots_consistent.
Qed.

Lemma instance_consistent app drv p :
  instance app drv = Some p -> registry_consistent (dbDict p).
Proof.
  unfold instance, init. intros Hrun.
  assert (Hempty : registry_consistent (∅ : gmap QString TSqlDatabase)).
  { split; [apply map_Forall_empty|done]. }
  destruct (isSqlDatabaseAvailable app); cbn in Hrun.
  2: { by injection Hrun as <-. }
  destruct (init_databases _ _ _ _ _ _) as [[aval p1]|] eqn:Hdb; [|discriminate].
  cbn in Hrun. injection Hrun as <-.
  apply init_databases_consistent in Hdb; [|done].
  by destruct aval.
Qed.

Lemma database_loop_consistent open d fuel p out p' :
  registry_consistent (dbDict p) ->
  database_loop open d fuel p = Some (out, p') ->
  registry_consistent (dbDict p').
Proof.
  revert p. induction fuel as [|fuel IH]; intros p Hreg Hrun; [discriminate|].
  cbn [database_loop] in Hrun.
  destruct (at_index (cachedDatabase p) d) as [cache|]; [|discriminate].
  cbn [mbind option_bind] in Hrun. destruct cache as [|name cache].
  - destruct (at_index (availableNames p) d) as [stack|]; [|discriminate].
    cbn [mbind option_bind] in Hrun. destruct stack as [|name stack]; [by eapply IH|].
    destruct (store_index _ _ _); [|discriminate]. cbn [mbind option_bind] in Hrun.
    destruct (isOpen _); [by injection Hrun as _ <-|].
    destruct (open name); cbn [negb] in Hrun.
    + rewrite fold_exec_replayed in Hrun. injection Hrun as _ <-. cbn.
      by apply registry_consistent_alter.
    + destruct (push_available _ _ _) as [p2|] eqn:Hpush; [|discriminate].
      cbn in Hrun. injection Hrun as _ <-.
      by rewrite (push_available_dbDict _ _ _ _ Hpush).
  - destruct (store_index _ _ _); [|discriminate]. cbn [mbind option_bind] in Hrun.
    destruct (isOpen _); [by injection Hrun as _ <-|].
    destruct (push_available _ _ _) as [p2|] eqn:Hpush; [|discriminate].
    cbn [mbind option_bind] in Hrun. eapply IH; [|exact Hrun].
    by rewrite (push_available_dbDict _ _ _ _ Hpush).
Qed.

Lemma database_consistent app open fuel d p out p' :
  registry_consistent (dbDict p) ->
  database app open fuel d p = Some (out, p') ->
  registry_consistent (dbDict p').
Proof.
  intros Hreg Hrun. unfold database in Hrun.
  destruct (negb _); [by injection Hrun as _ <-|].
  destruct (_ && _); [by eapply database_loop_consistent|by injection Hrun as _ <-].
Qed.

Lemma closeDatabase_consistent database p p' :
  registry_consistent (dbDict p) ->
  closeDatabase database p = Some p' ->
  registry_consistent (dbDict p').
Proof.
  intros Hreg Hrun. unfold closeDatabase in Hrun.
  rewrite (push_available_dbDict _ _ _ _ Hrun). cbn.
  by apply registry_consistent_alter.
Qed.

Lemma pool_consistent app now database forceClose p p' h' :
  registry_consistent (dbDict p) ->
  pool app now database forceClose p = Some (p', h') ->
  registry_consistent (dbDict p').
Proof.
  intros Hreg Hrun. unfold pool in Hrun.
  destruct (isValid database); cbn in Hrun; [|by injection Hrun as <- _].
  destruct (_ && _); cbn in Hrun; [|by injection Hrun as <- _].
  destruct forceClose.
  - destruct (closeDatabase database p) as [p1|] eqn:Hclose; [|discriminate].
    cbn in Hrun. injection Hrun as <- _. by eapply closeDatabase_consistent.
  - unfold push_cached in Hrun.
    destruct (at_index _ _); [|discriminate]. cbn in Hrun.
    destruct (store_index _ _ _); [|discriminate]. cbn in Hrun.
    destruct (store_index _ _ _); [|discriminate]. cbn in Hrun.
    by injection Hrun as <- _.
Qed.

Lemma timerEvent_while_consistent now i cache p p' :
  registry_consistent (dbDict p) ->
  timerEvent_while now i cache p = Some p' ->
  registry_consistent (dbDict p').
Proof.
  revert p. induction cache as [|name cache IH]; intros p Hreg Hrun.
  - cbn in Hrun. destruct (at_index _ _); [|discriminate]. cbn in Hrun.
    destruct (_ <? _); by injection Hrun as <-.
  - cbn [timerEvent_while] in Hrun.
    destruct (at_index _ _); [|discriminate]. cbn [mbind option_bind] in Hrun.
    destruct (_ <? _); [|by injection Hrun as <-].
    destruct (store_index _ _ _); [|discriminate]. cbn [mbind option_bind] in Hrun.
    destruct (closeDatabase _ _) as [p1|] eqn:Hclose; [|discriminate].
    cbn [mbind option_bind] in Hrun. eapply IH; [|exact Hrun].
    by eapply closeDatabase_consistent; [|exact Hclose].
Qed.

Lemma timerEvent_for_consistent now n i p p' :
  registry_consistent (dbDict p) ->
  timerEvent_for now n i p = Some p' ->
  registry_consistent (dbDict p').
Proof.
  revert i p. induction n as [|n IH]; intros i p Hreg Hrun.
  { cbn in Hrun. by injection Hrun as <-. }
  cbn [timerEvent_for] in Hrun.
  destruct (at_index _ _) as [cache|]; [|discriminate]. cbn [mbind option_bind] in Hrun.
  destruct (List.length cache =? 0)%nat; cbn [mbind option_bind] in Hrun;
    [by eapply IH|].
  destruct (timerEvent_while _ _ _ _) as [p1|] eqn:Hwhile; [|discriminate].
  cbn [mbind option_bind] in Hrun. eapply IH; [|exact Hrun].
  by eapply timerEvent_while_consistent.
Qed.

Lemma step_consistent app s s' :
  registry_consistent (dbDict (the_pool s)) -> step app s s' ->
  registry_consistent (dbDict (the_pool s')).
Proof.
  intros Hreg Hstep. destruct Hstep as
    [open fuel d p inuse h p' Hrun Hvalid
    |open fuel d p inuse h p' Hrun Hvalid
    |open fuel d p inuse what p' Hrun
    |now name forceClose d before after p inuse p' h' Hborrowed Hrun
    |now h forceClose p inuse p' h' Hvalid Hrun
    |ownTimer now p inuse p' Hrun]; cbn [the_pool] in *.
  - exact (database_consistent _ _ _ _ _ _ _ Hreg Hrun).
  - exact (database_consistent _ _ _ _ _ _ _ Hreg Hrun).
  - exact (database_consistent _ _ _ _ _ _ _ Hreg Hrun).
  - exact (pool_consistent _ _ _ _ _ _ _ Hreg Hrun).
  - exact (pool_consistent _ _ _ _ _ _ _ Hreg Hrun).
  - unfold timerEvent in Hrun. destruct ownTimer; [|by injection Hrun as <-].
    exact (timerEvent_for_consistent _ _ _ _ _ Hreg Hrun).
Qed.

Lemma reachable_consistent app drv s :
  reachable app drv s -> registry_consistent (dbDict (the_pool s)).
Proof.
  intros Hreach. induction Hreach as [p Hrun|s s' _ IH Hstep].
  - by eapply instance_consistent.
  - by eapply step_consistent.
Qed.

(** ** Reachable states *)

Lemma elem_of_names_on_stacks p n j name :
  name ∈ names_on_stacks p n j <->
  exists d stack,
    j <= d < j + Z.of_nat n
    /\ (at_index (cachedDatabase p) d = Some stack
        \/ at_index (availableNames p) d = Some stack)
    /\ name ∈ stack.
Proof.
  revert j. induction n as [|n IH]; intros j.
  { cbn. split; [by intros ?%elem_of_nil|]. intros (d & _ & Hd & _). lia. }
  cbn [names_on_stacks]. rewrite !elem_of_app, IH. split.
  - intros [Hin|[Hin|(d & stack & Hd & Hs & Hin)]].
    + destruct (at_index (cachedDatabase p) j) as [cache|] eqn:Hc;
        [|by apply elem_of_nil in Hin].
      exists j, cache. split; [lia|]. split; [by left|done].
    + destruct (at_index (availableNames p) j) as [stack|] eqn:Ha;
        [|by apply elem_of_nil in Hin].
      exists j, stack. split; [lia|]. split; [by right|done].
    + exists d, stack. split; [lia|done].
  - intros (d & stack & Hd & Hs & Hin).
    destruct (decide (d = j)) as [->|Hne].
    + destruct Hs as [Hs|Hs]; rewrite Hs; cbn; auto.
    + right. right. exists d, stack. split; [lia|done].
Qed.

(** X15: A timer event always completes.  With the subsystem available and at most
    100 databases configured, in every state reached from [instance()] by
    calls of [database], calls of [pool] on borrowed or invalid handles and
    timer events, a further timer event has a result: the index
    [closeDatabase] reads from a cached name, which it does not check, is
    always the index of an allocated stack. *)
Theorem reachable_timerEvent_completes app drv s ownTimer now :
  isSqlDatabaseAvailable app = true ->
  sqlDatabaseSettingsCount app <= 100 ->
  reachable app drv s ->
  exists p', timerEvent app ownTimer now (the_pool s) = Some p'.
Proof.
  intros Hon Hsmall Hreach.
  pose proof (reachable_invariant app drv Hsmall s Hon Hreach) as Hinv.
  pose proof (invariant_cached_names_wf app drv Hsmall s Hinv) as Hwf.
  destruct Hinv as ((Hlc & Hla & Hlt) & _).
  unfold timerEvent. destruct ownTimer; [|by eexists].
  destruct (timerEvent_for_spec now (Z.to_nat (sqlDatabaseSettingsCount app)) 0
              (the_pool s)) as (p' & Hrun & _);
    [lia|lia|congruence|congruence|done|].
  by exists p'.
Qed.

Lemma sample_warm_step :
  step Sample.app SampleSystem.one_borrowed
    {| the_pool := Sample.warm; inUse := set_inUse 0 [] (inUse SampleSystem.one_borrowed) |}.
Proof.
  apply (step_release Sample.app 1000 "rdb00_1" false 0 [] []
           SampleRun.after_acquire (inUse SampleSystem.one_borrowed)
           Sample.warm QSqlDatabase_invalid); reflexivity.
Defined.

Lemma sample_warm_reachable :
  reachable Sample.app Sample.drv
    {| the_pool := Sample.warm; inUse := set_inUse 0 [] (inUse SampleSystem.one_borrowed) |}.
Proof.
  apply (reachable_step _ _ SampleSystem.one_borrowed).
  - exact sample_reachable.
  - exact sample_warm_step.
Defined.

Lemma reachable_timerEvent_completes_witness :
  exists p', timerEvent Sample.app true 1031 Sample.warm = Some p'.
Proof.
  apply (reachable_timerEvent_completes Sample.app Sample.drv
           {| the_pool := Sample.warm;
              inUse := set_inUse 0 [] (inUse SampleSystem.one_borrowed) |}).
  - reflexivity.
  - simpl; lia.
  - exact sample_warm_reachable.
Defined.

(** X16: Teardown of a running pool.  With the subsystem available and at most 100
    databases configured, in every reachable state the destructor completes,
    and of the connections [init] registered it removes from the registry
    exactly those that are not borrowed: a connection a worker still holds
    stays registered, unchanged, under its name. *)
Theorem reachable_destructor_keeps_borrowed app drv s :
  isSqlDatabaseAvailable app = true ->
  sqlDatabaseSettingsCount app <= 100 ->
  reachable app drv s ->
  exists p',
    destructor app (the_pool s) = Some p'
    /\ forall d name,
         0 <= d < sqlDatabaseSettingsCount app ->
         name ∈ registered app drv d ->
         (name ∈ inUse s d -> dbDict p' !! name = dbDict (the_pool s) !! name
                              /\ handle_of p' name
                                 = {| isValid := true; connectionName := name |})
         /\ (name ∉ inUse s d -> dbDict p' !! name = None).
Proof.
  intros Hon Hsmall Hreach.
  pose proof (reachable_invariant app drv Hsmall s Hon Hreach) as Hinv.
  pose proof (reachable_consistent app drv s Hreach) as Hreg.
  destruct Hinv as ((Hlc & Hla & Hlt) & Hperm & Hhandle & _).
  destruct (destructor_for_spec (Z.to_nat (sqlDatabaseSettingsCount app)) 0
              (set_timer None (the_pool s))) as (p' & Hrun & Hd & _);
    [lia|cbn; lia|cbn; congruence|done|].
  rewrite (names_on_stacks_ext (the_pool s) (set_timer None (the_pool s))) in Hd by done.
  cbn [dbDict set_timer] in Hd.
  unfold destructor. rewrite Hrun. cbn [mbind option_bind].
  eexists. split; [done|]. cbn [dbDict set_cachedDatabase set_lastCachedTime
                                 set_availableNames].
  intros d name Hrange Hname.
  destruct (Hperm d Hrange) as (avail & cache & Ha & Hc & Hp).
  assert (Hnodup : NoDup (avail ++ cache ++ inUse s d))
    by (rewrite Hp; apply slot_names_NoDup).
  assert (Hon_stack : name ∈ names_on_stacks (the_pool s)
                               (Z.to_nat (sqlDatabaseSettingsCount app)) 0
                      <-> name ∈ avail ++ cache).
  { rewrite elem_of_names_on_stacks, elem_of_app. split.
    - intros (d' & stack & Hd' & Hs & Hin).
      destruct (Hperm d' ltac:(lia)) as (avail' & cache' & Ha' & Hc' & Hp').
      assert (Hname' : name ∈ registered app drv d').
      { rewrite <- Hp'. rewrite !elem_of_app.
        destruct Hs as [Hs|Hs]; rewrite Hs in *; simplify_eq; auto. }
      apply elem_of_registered in Hname as (x & _ & ->).
      apply elem_of_registered in Hname' as (x' & _ & Heq).
      apply CONN_NAME_inj in Heq as [-> _]; [|lia..].
      destruct Hs as [Hs|Hs]; rewrite Hs in *; simplify_eq; auto.
    - intros [Hin|Hin].
      + exists d, avail. split; [lia|]. split; [by right|done].
      + exists d, cache. split; [lia|]. split; [by left|done]. }
  split.
  - intros Hborrowed.
    assert (Hnot : name ∉ names_on_stacks (the_pool s)
                            (Z.to_nat (sqlDatabaseSettingsCount app)) 0).
    { rewrite Hon_stack. intros Hin.
      rewrite app_assoc in Hnodup. apply NoDup_app in Hnodup as (_ & Hdisj & _).
      by apply (Hdisj name). }
    assert (Hsame : remove_all (names_on_stacks (the_pool s)
                                  (Z.to_nat (sqlDatabaseSettingsCount app)) 0)
                      (dbDict (the_pool s)) !! name = dbDict (the_pool s) !! name)
      by (by apply remove_all_lookup_notin).
    rewrite Hd. split; [done|].
    rewrite <- (Hhandle d name Hrange Hname).
    unfold handle_of, TSqlDatabase_database. cbn. by rewrite Hd, Hsame.
  - intros Hfree. rewrite Hd. apply remove_all_lookup_in. rewrite Hon_stack.
    assert (Hin : name ∈ avail ++ cache ++ inUse s d) by (by rewrite Hp).
    rewrite !elem_of_app in Hin. rewrite elem_of_app. tauto.
Qed.

Lemma reachable_destructor_keeps_borrowed_witness :
  exists p',
    destructor Sample.app (the_pool SampleSystem.one_borrowed) = Some p'
    /\ forall d name,
         0 <= d < sqlDatabaseSettingsCount Sample.app ->
         name ∈ registered Sample.app Sample.drv d ->
         (name ∈ inUse SampleSystem.one_borrowed d ->
          dbDict p' !! name = dbDict (the_pool SampleSystem.one_borrowed) !! name
          /\ handle_of p' name = {| isValid := true; connectionName := name |})
         /\ (name ∉ inUse SampleSystem.one_borrowed d -> dbDict p' !! name = None).
Proof.
  apply (reachable_destructor_keeps_borrowed Sample.app Sample.drv).
  - reflexivity.
  - simpl; lia.
  - exact sample_reachable.
Defined.

(** ** Open connections and the stacks *)

(** The three ways [database] comes back when the cached connections are
    open and the available ones closed. *)
Lemma database_loop_cases open d fuel p out p' avail cache :
  at_index (availableNames p) d = Some avail ->
  at_index (cachedDatabase p) d = Some cache ->
  (forall name, name ∈ avail -> isOpen (TSqlDatabase_database p name) = false) ->
  (forall name, name ∈ cache -> isOpen (TSqlDatabase_database p name) = true) ->
  database_loop open d fuel p = Some (out, p') ->
  (exists name rest,
      cache = name :: rest /\ out = Returns (handle_of p name)
      /\ p' = set_cachedDatabase (<[Z.to_nat d := rest]> (cachedDatabase p)) p)
  \/ (exists name rest,
        cache = [] /\ avail = name :: rest /\ open name = true
        /\ out = Returns (handle_of p name)
        /\ dbDict p' = alter (setIsOpen true) name (dbDict p)
        /\ availableNames p' = <[Z.to_nat d := rest]> (availableNames p)
        /\ cachedDatabase p' = cachedDatabase p)
  \/ (exists name rest,
        cache = [] /\ avail = name :: rest /\ open name = false
        /\ out = Returns QSqlDatabase_invalid /\ p' = p).
Proof.
  intros Ha Hc Hclosed Hopen Hrun.
  destruct fuel as [|fuel]; [discriminate|].
  destruct cache as [|name rest].
  - destruct avail as [|name rest].
    { by rewrite database_loop_spins in Hrun. }
    assert (Hname : isOpen (TSqlDatabase_database p name) = false)
      by (apply Hclosed; by left).
    destruct (open name) eqn:Hok.
    + rewrite (database_loop_open_success open fuel d p name rest Hc Ha Hname Hok) in Hrun.
      injection Hrun as <- <-. right. left. exists name, rest. by repeat split.
    + rewrite (database_loop_open_failure open fuel d p name rest Hc Ha Hname Hok) in Hrun.
      injection Hrun as <- <-. right. right. exists name, rest. by repeat split.
  - left. exists name, rest. cbn [database_loop] in Hrun. rewrite Hc in Hrun.
    cbn [mbind option_bind] in Hrun.
    rewrite store_index_Some in Hrun by (by eapply at_index_range).
    cbn [mbind option_bind] in Hrun.
    change (TSqlDatabase_database (set_cachedDatabase _ p) name)
      with (TSqlDatabase_database p name) in Hrun.
    rewrite Hopen in Hrun by (by left). by injection Hrun as <- <-.
Qed.

Lemma lookup_after_alter b (name n : QString) (p p' : TSqlDatabasePool) :
  dbDict p' = alter (setIsOpen b) name (dbDict p) -> n <> name ->
  TSqlDatabase_database p' n = TSqlDatabase_database p n.
Proof.
  intros Hd Hne. unfold TSqlDatabase_database. by rewrite Hd, lookup_alter_ne.
Qed.

Lemma isOpen_after_alter b (name : QString) (p p' : TSqlDatabasePool) :
  dbDict p' = alter (setIsOpen b) name (dbDict p) ->
  isValid (handle_of p name) = true ->
  isOpen (TSqlDatabase_database p' name) = b.
Proof.
  intros Hd Hvalid. unfold handle_of, TSqlDatabase_database in *.
  rewrite Hd, lookup_alter_eq. by destruct (dbDict p !! name).
Qed.

Section OpenState.

Context (app : TWebApplication) (drv : SqlDriverLayer).

Hypothesis two_digits_suffice : sqlDatabaseSettingsCount app <= 100.

(** Names registered for different databases differ. *)
Lemma registered_disjoint d d' name name' :
  0 <= d -> 0 <= d' -> d <> d' ->
  name ∈ registered app drv d -> name' ∈ registered app drv d' -> name <> name'.
Proof using Type.
  intros Hd Hd' Hne (x & _ & ->)%elem_of_registered (x' & _ & ->)%elem_of_registered Heq.
  apply CONN_NAME_inj in Heq as [? _]; done.
Qed.

(** The state of a database is kept by a change that leaves its stacks, its
    borrowed names and the connections of its registered names alone. *)
Lemma open_state_at_frame p inuse p' inuse' d :
  pool_invariant app drv {| the_pool := p; inUse := inuse |} ->
  0 <= d < sqlDatabaseSettingsCount app ->
  open_state_at p inuse d ->
  at_index (availableNames p') d = at_index (availableNames p) d ->
  at_index (cachedDatabase p') d = at_index (cachedDatabase p) d ->
  inuse' d = inuse d ->
  (forall name, name ∈ registered app drv d ->
                TSqlDatabase_database p' name = TSqlDatabase_database p name) ->
  open_state_at p' inuse' d.
Proof using Type.
  intros (_ & Hperm & _) Hd Hold Ha Hc Hin Hsame avail cache Ha' Hc'.
  rewrite Ha in Ha'. rewrite Hc in Hc'.
  destruct (Hperm d Hd) as (avail0 & cache0 & Ha0 & Hc0 & Hp). cbn in *.
  rewrite Ha' in Ha0. rewrite Hc' in Hc0. injection Ha0 as <-. injection Hc0 as <-.
  destruct (Hold avail cache Ha' Hc') as [Hclosed Hopen].
  split.
  - intros name Hname. rewrite Hsame; [by apply Hclosed|].
    rewrite <- Hp. apply elem_of_app. by left.
  - intros name Hname. rewrite Hin in Hname. rewrite Hsame; [by apply Hopen|].
    rewrite <- Hp. apply elem_of_app. by right.
Qed.

End OpenState.

Ltac elem_of_tauto H :=
  repeat (rewrite elem_of_app in H || rewrite elem_of_cons in H);
  repeat (rewrite elem_of_app || rewrite elem_of_cons);
  tauto.

Section OpenStateSteps.

Context (app : TWebApplication) (drv : SqlDriverLayer).

Hypothesis two_digits_suffice : sqlDatabaseSettingsCount app <= 100.

(** What the invariant gives for one database. *)
Lemma invariant_at p inuse d :
  pool_invariant app drv {| the_pool := p; inUse := inuse |} ->
  0 <= d < sqlDatabaseSettingsCount app ->
  exists avail cache,
    at_index (availableNames p) d = Some avail
    /\ at_index (cachedDatabase p) d = Some cache
    /\ avail ++ cache ++ inuse d ≡ₚ registered app drv d
    /\ NoDup (avail ++ cache ++ inuse d)
    /\ (forall name, name ∈ avail ++ cache ++ inuse d ->
          name ∈ registered app drv d
          /\ handle_of p name = {| isValid := true; connectionName := name |}).
Proof using Type.
  intros (_ & Hperm & Hreg & _) Hd.
  destruct (Hperm d Hd) as (avail & cache & Ha & Hc & Hp). cbn in *.
  exists avail, cache. split; [done|]. split; [done|]. split; [done|].
  split; [rewrite Hp; apply slot_names_NoDup|].
  intros name Hin. rewrite Hp in Hin. split; [done|]. by apply (Hreg d).
Qed.

Lemma database_keeps_open_state open fuel d p inuse out p' :
  pool_invariant app drv {| the_pool := p; inUse := inuse |} ->
  open_state_consistent app {| the_pool := p; inUse := inuse |} ->
  database app open fuel d p = Some (out, p') ->
  match out with
  | Returns h =>
      if isValid h
      then open_state_consistent app
             {| the_pool := p';
                inUse := set_inUse d (connectionName h :: inuse d) inuse |}
      else open_state_consistent app {| the_pool := p'; inUse := inuse |}
  | Throws _ => open_state_consistent app {| the_pool := p'; inUse := inuse |}
  end.
Proof using Type.
  intros Hinv Hos Hrun. unfold database in Hrun.
  destruct (isSqlDatabaseAvailable app); cbn [negb] in Hrun.
  2: { by injection Hrun as <- <-. }
  destruct (Z.leb_spec 0 d) as [Hd0|Hd0]; cbn [andb] in Hrun.
  2: { by injection Hrun as <- <-. }
  destruct (Z.ltb_spec d (sqlDatabaseSettingsCount app)) as [Hd1|Hd1].
  2: { by injection Hrun as <- <-. }
  destruct (invariant_at p inuse d Hinv ltac:(lia))
    as (avail & cache & Ha & Hc & Hp & Hnodup & Hnames).
  destruct (Hos d ltac:(lia) avail cache Ha Hc) as [Hclosed Hopen]. cbn in *.
  pose proof (at_index_range _ _ _ Ha) as Hra.
  pose proof (at_index_range _ _ _ Hc) as Hrc.
  apply (database_loop_cases open d fuel p out p' avail cache Ha Hc Hclosed) in Hrun;
    [|intros n Hn; apply Hopen, elem_of_app; by left].
  destruct Hrun as [(name & rest & -> & -> & ->)
                   |[(name & rest & -> & -> & Hok & -> & Hd' & Ha' & Hc')
                    |(name & rest & -> & -> & Hok & -> & ->)]].
  - (* the fast path *)
    destruct (Hnames name) as [_ Hh];
      [rewrite !elem_of_app, elem_of_cons; auto|].
    rewrite Hh. cbn [isValid connectionName].
    intros d0 Hd0'. destruct (decide (d0 = d)) as [->|Hne].
    + intros avail' cache' Ha0 Hc0. cbn in *.
      rewrite Ha in Ha0. rewrite at_index_store_eq in Hc0 by done.
      injection Ha0 as <-. injection Hc0 as <-. rewrite set_inUse_eq.
      split; [exact Hclosed|].
      intros n Hn. apply Hopen. elem_of_tauto Hn.
    + apply (open_state_at_frame app drv p inuse); cbn; try done.
      * by apply Hos.
      * by rewrite at_index_store_ne by lia.
      * by apply set_inUse_ne.
  - (* the slow path, opened *)
    destruct (Hnames name) as [Hreg Hh]; [rewrite elem_of_app; left; by left|].
    rewrite Hh. cbn [isValid connectionName].
    cbn in Hnodup. apply NoDup_cons in Hnodup as [Hfresh Hnodup].
    intros d0 Hd0'. destruct (decide (d0 = d)) as [->|Hne].
    + intros avail' cache' Ha0 Hc0. cbn in *.
      rewrite Ha', at_index_store_eq in Ha0 by done.
      rewrite Hc', Hc in Hc0.
      injection Ha0 as <-. injection Hc0 as <-. rewrite set_inUse_eq.
      split.
      * intros n Hn.
        rewrite (lookup_after_alter true name n p p' Hd').
        -- apply Hclosed. by right.
        -- intros ->. apply Hfresh. apply elem_of_app. by left.
      * intros n Hn. cbn in Hn. apply elem_of_cons in Hn as [->|Hn].
        -- apply (isOpen_after_alter true name p p' Hd'). by rewrite Hh.
        -- rewrite (lookup_after_alter true name n p p' Hd').
           ++ apply Hopen. by cbn.
           ++ intros ->. apply Hfresh. apply elem_of_app. by right.
    + apply (open_state_at_frame app drv p inuse); cbn; try done.
      * by apply Hos.
      * rewrite Ha'. by rewrite at_index_store_ne by lia.
      * by rewrite Hc'.
      * by apply set_inUse_ne.
      * intros n Hn. apply (lookup_after_alter true name n p p' Hd').
        by apply (registered_disjoint app drv d0 d); try lia.
  - (* the slow path, open failure *)
    done.
Qed.

Lemma pool_keeps_open_state now name forceClose d before after p inuse p' h' :
  pool_invariant app drv {| the_pool := p; inUse := inuse |} ->
  open_state_consistent app {| the_pool := p; inUse := inuse |} ->
  inuse d = before ++ name :: after ->
  pool app now {| isValid := true; connectionName := name |} forceClose p
  = Some (p', h') ->
  open_state_consistent app
    {| the_pool := p'; inUse := set_inUse d (before ++ after) inuse |}.
Proof using two_digits_suffice.
  intros Hinv Hos Hborrowed Hrun.
  assert (Hd : 0 <= d < sqlDatabaseSettingsCount app).
  { destruct Hinv as (_ & _ & _ & Hout). cbn in Hout.
    destruct (decide (0 <= d < sqlDatabaseSettingsCount app)) as [|Hno]; [done|].
    rewrite (Hout d Hno) in Hborrowed. by destruct before. }
  destruct (invariant_at p inuse d Hinv Hd)
    as (avail & cache & Ha & Hc & Hp & Hnodup & Hnames).
  destruct (Hos d Hd avail cache Ha Hc) as [Hclosed Hopen]. cbn in *.
  destruct (Hnames name) as [Hreg Hh];
    [rewrite Hborrowed, !elem_of_app, elem_of_cons; auto|].
  pose proof (registered_parses_back app drv two_digits_suffice d name true Hd Hreg)
    as Hid.
  pose proof (at_index_range _ _ _ Ha) as Hra.
  pose proof (at_index_range _ _ _ Hc) as Hrc.
  assert (Hfresh : name ∉ avail ++ cache ++ before ++ after).
  { rewrite Hborrowed in Hnodup.
    assert (Hmid : avail ++ cache ++ before ++ name :: after
                   ≡ₚ name :: avail ++ cache ++ before ++ after)
      by (by rewrite !Permutation_middle).
    rewrite Hmid in Hnodup. by apply NoDup_cons in Hnodup as [? _]. }
  pose proof Hinv as ((Hlc & Hla & Hlt) & _). cbn [the_pool inUse] in *.
  unfold pool in Hrun. cbn [isValid connectionName] in Hrun. rewrite Hid in Hrun.
  destruct (Z.leb_spec 0 d); [|lia].
  destruct (Z.ltb_spec d (sqlDatabaseSettingsCount app)); [|lia].
  cbn [andb] in Hrun.
  destruct forceClose.
  - unfold closeDatabase in Hrun. cbn [connectionName] in Hrun. rewrite Hid in Hrun.
    erewrite push_available_Some in Hrun by (cbn; exact Ha).
    cbn in Hrun. injection Hrun as <- <-.
    intros d0 Hd0. destruct (decide (d0 = d)) as [->|Hne].
    + intros avail' cache' Ha0 Hc0. cbn in *.
      rewrite at_index_store_eq in Ha0 by done. rewrite Hc in Hc0.
      injection Ha0 as <-. injection Hc0 as <-. rewrite set_inUse_eq.
      split.
      * intros n [->|Hn]%elem_of_cons.
        -- eapply (isOpen_after_alter false name p); [done|]. by rewrite Hh.
        -- destruct (decide (n = name)) as [->|Hne'].
           ++ eapply (isOpen_after_alter false name p); [done|]. by rewrite Hh.
           ++ erewrite (lookup_after_alter false name n p) by done. by apply Hclosed.
      * intros n Hn.
        erewrite (lookup_after_alter false name n p); [|done|].
        -- apply Hopen. rewrite Hborrowed. elem_of_tauto Hn.
        -- intros ->. apply Hfresh. elem_of_tauto Hn.
    + eapply (open_state_at_frame app drv p inuse); cbn; try done.
      * by apply Hos.
      * by rewrite at_index_store_ne by lia.
      * by apply set_inUse_ne.
      * intros n Hn. eapply (lookup_after_alter false name n p); [done|].
        by apply (registered_disjoint app drv d0 d); try lia.
  - erewrite push_cached_Some in Hrun by exact Hc.
    cbn in Hrun. rewrite store_index_Some in Hrun by lia.
    cbn in Hrun. injection Hrun as <- <-.
    intros d0 Hd0. destruct (decide (d0 = d)) as [->|Hne].
    + intros avail' cache' Ha0 Hc0. cbn in *.
      rewrite at_index_store_eq in Hc0 by done. rewrite Ha in Ha0.
      injection Ha0 as <-. injection Hc0 as <-. rewrite set_inUse_eq.
      split; [exact Hclosed|].
      intros n Hn. apply Hopen. rewrite Hborrowed. elem_of_tauto Hn.
    + eapply (open_state_at_frame app drv p inuse); cbn; try done.
      * by apply Hos.
      * by rewrite at_index_store_ne by lia.
      * by apply set_inUse_ne.
Qed.

End OpenStateSteps.

Lemma NoDup_app3_disjoint {A} (a b c : list A) (x : A) :
  NoDup (a ++ b ++ c) -> x ∈ b -> x ∈ c -> False.
Proof.
  intros [_ [_ Hbc]]%NoDup_app Hb Hc.
  apply NoDup_app in Hbc as (_ & Hdisj & _). by apply (Hdisj x).
Qed.

Section OpenStateReach.

Context (app : TWebApplication) (drv : SqlDriverLayer).

Hypothesis two_digits_suffice : sqlDatabaseSettingsCount app <= 100.

Lemma timerEvent_keeps_open_state ownTimer now p inuse p' :
  pool_invariant app drv {| the_pool := p; inUse := inuse |} ->
  open_state_consistent app {| the_pool := p; inUse := inuse |} ->
  timerEvent app ownTimer now p = Some p' ->
  open_state_consistent app {| the_pool := p'; inUse := inuse |}.
Proof using two_digits_suffice.
  intros Hinv Hos Hrun. unfold timerEvent in Hrun.
  destruct ownTimer; [|by injection Hrun as <-].
  pose proof (invariant_cached_names_wf app drv two_digits_suffice _ Hinv) as Hwf.
  pose proof Hinv as ((Hlc & Hla & Hlt) & _). cbn [the_pool inUse] in *.
  destruct (timerEvent_for_dict now (Z.to_nat (sqlDatabaseSettingsCount app)) 0 p)
    as (p2 & Hrun2 & Hdict & _); [lia|lia|congruence|congruence|done|].
  destruct (timerEvent_for_spec now (Z.to_nat (sqlDatabaseSettingsCount app)) 0 p)
    as (p0 & Hrun0 & Hreap & _ & _ & _ & _ & _ & _ & _ & _ & Hcl & _);
    [lia|lia|congruence|congruence|done|].
  rewrite Hrun in Hrun2, Hrun0. injection Hrun2 as <-. injection Hrun0 as <-.
  intros d Hd. cbn [the_pool inUse].
  destruct (invariant_at app drv p inuse d Hinv Hd)
    as (avail & cache & Ha & Hc & Hp & Hnodup & Hnames).
  destruct (Hos d Hd avail cache Ha Hc) as [Hclosed Hopen]. cbn [the_pool inUse] in *.
  destruct (at_index_in_range (lastCachedTime p) d) as [t Ht]; [lia|].
  destruct (Hreap d ltac:(lia) t cache avail Ht Hc Ha) as [Hidle Hrecent].
  assert (Hkeep : forall n,
             n ∈ cache ++ inuse d ->
             (idle_too_long now t = true -> n ∈ inuse d) ->
             TSqlDatabase_database p' n = TSqlDatabase_database p n).
  { intros n Hn Hwhere. unfold TSqlDatabase_database.
    rewrite Hdict, close_all_lookup_notin; [done|].
    intros (d' & t' & cache' & Hd' & Ht' & Hc' & Hidle' & Hin')%elem_of_idle_names.
    destruct (invariant_at app drv p inuse d' Hinv ltac:(lia))
      as (avail2 & cache2 & _ & Hc2 & _ & _ & Hnames2).
    rewrite Hc' in Hc2. injection Hc2 as <-.
    destruct (Hnames n) as [Hreg _]; [elem_of_tauto Hn|].
    destruct (Hnames2 n) as [Hreg2 _]; [elem_of_tauto Hin'|].
    destruct (decide (d' = d)) as [->|Hne].
    - rewrite Ht in Ht'. rewrite Hc in Hc'. injection Ht' as <-. injection Hc' as <-.
      by apply (NoDup_app3_disjoint avail cache (inuse d) n Hnodup); [|apply Hwhere].
    - by apply (registered_disjoint app drv d d' n n); try lia. }
  intros avail' cache' Ha' Hc'.
  destruct (idle_too_long now t) eqn:Hit.
  - destruct Hidle as (Hc2 & Ha2 & Hclosed2); [done|].
    rewrite Hc2 in Hc'. rewrite Ha2 in Ha'. injection Hc' as <-. injection Ha' as <-.
    split.
    + intros n [Hn|Hn]%elem_of_app.
      * apply Hclosed2. by apply list_elem_of_In, in_rev, list_elem_of_In.
      * by apply Hcl, Hclosed.
    + intros n Hn. cbn in Hn. rewrite Hkeep; [|elem_of_tauto Hn|done].
      apply Hopen. elem_of_tauto Hn.
  - destruct Hrecent as (Hc2 & Ha2); [by left|].
    rewrite Hc2 in Hc'. rewrite Ha2 in Ha'. injection Hc' as <-. injection Ha' as <-.
    split.
    + intros n Hn. by apply Hcl, Hclosed.
    + intros n Hn. rewrite Hkeep; [by apply Hopen|done|done].
Qed.

Lemma instance_open_state p :
  isSqlDatabaseAvailable app = true ->
  instance app drv = Some p ->
  open_state_consistent app {| the_pool := p; inUse := fun _ => [] |}.
Proof using Type.
  intros Hon Hrun.
  destruct (instance_spec app drv Hon) as
    (p0 & Hrun0 & _ & Hav & Hca & _ & _ & _ & _ & _ & Hreg & _).
  rewrite Hrun in Hrun0. injection Hrun0 as <-.
  intros d Hd avail cache Ha Hc. cbn in *.
  rewrite Hav in Ha by done. rewrite Hca in Hc by done.
  injection Ha as <-. injection Hc as <-. split.
  - intros name Hin%list_elem_of_In%in_rev%list_elem_of_In.
    destruct (Hreg d name Hd Hin) as [Hentry _].
    unfold TSqlDatabase_database. rewrite Hentry. cbn.
    unfold slot_entry. by rewrite setDatabaseSettings_isOpen.
  - by intros name ?%elem_of_nil.
Qed.

Lemma step_keeps_open_state s s' :
  pool_invariant app drv s -> open_state_consistent app s -> step app s s' ->
  open_state_consistent app s'.
Proof using two_digits_suffice.
  intros Hinv Hos Hstep. destruct Hstep as
    [open fuel d p inuse h p' Hrun Hvalid
    |open fuel d p inuse h p' Hrun Hvalid
    |open fuel d p inuse what p' Hrun
    |now name forceClose d before after p inuse p' h' Hborrowed Hrun
    |now h forceClose p inuse p' h' Hvalid Hrun
    |ownTimer now p inuse p' Hrun].
  - pose proof (database_keeps_open_state app drv open fuel d p inuse _ p' Hinv Hos Hrun)
      as H.
    cbn in H. by rewrite Hvalid in H.
  - pose proof (database_keeps_open_state app drv open fuel d p inuse _ p' Hinv Hos Hrun)
      as H.
    cbn in H. by rewrite Hvalid in H.
  - exact (database_keeps_open_state app drv open fuel d p inuse _ p' Hinv Hos Hrun).
  - by eapply (pool_keeps_open_state app drv two_digits_suffice).
  - by rewrite (pool_invalid_unchanged app now h forceClose p p' h' Hvalid Hrun).
  - by eapply timerEvent_keeps_open_state.
Qed.

Lemma reachable_open_state s :
  isSqlDatabaseAvailable app = true ->
  reachable app drv s -> open_state_consistent app s.
Proof using two_digits_suffice.
  intros Hon Hreach. induction Hreach as [p Hrun|s s' Hreach IH Hstep].
  - by apply instance_open_state.
  - eapply step_keeps_open_state; [|done|done].
    by apply (reachable_invariant app drv two_digits_suffice).
Qed.

End OpenStateReach.

(** X17: Open state of a running pool.  With the subsystem available and at most
    100 databases configured, and with connections opened and closed by the
    pool alone, in every reachable state the connections whose names are on
    [availableNames[d]] are closed and those whose names are on
    [cachedDatabase[d]] or borrowed from [d] are open.  So when a name is
    cached for [d], [database(d)] returns the one on top by the fast path,
    whatever the driver would answer to [open()], and only pops it. *)
Theorem reachable_open_state_consistent app drv s :
  isSqlDatabaseAvailable app = true ->
  sqlDatabaseSettingsCount app <= 100 ->
  reachable app drv s ->
  (forall d avail cache,
      0 <= d < sqlDatabaseSettingsCount app ->
      at_index (availableNames (the_pool s)) d = Some avail ->
      at_index (cachedDatabase (the_pool s)) d = Some cache ->
      (forall name, name ∈ avail ->
         isOpen (TSqlDatabase_database (the_pool s) name) = false)
      /\ (forall name, name ∈ cache ++ inUse s d ->
            isOpen (TSqlDatabase_database (the_pool s) name) = true))
  /\ (forall d name rest open fuel,
        0 <= d < sqlDatabaseSettingsCount app ->
        at_index (cachedDatabase (the_pool s)) d = Some (name :: rest) ->
        database app open (S fuel) d (the_pool s)
        = Some (Returns {| isValid := true; connectionName := name |},
                set_cachedDatabase
                  (<[Z.to_nat d := rest]> (cachedDatabase (the_pool s))) (the_pool s))).
Proof.
  intros Hon Hsmall Hreach.
  pose proof (reachable_open_state app drv Hsmall s Hon Hreach) as Hos.
  pose proof (reachable_invariant app drv Hsmall s Hon Hreach) as Hinv.
  split.
  - intros d avail cache Hd Ha Hc. by apply (Hos d Hd).
  - intros d name rest open fuel Hd Hc.
    destruct s as [p inuse]. cbn [the_pool inUse] in *.
    destruct (invariant_at app drv p inuse d Hinv Hd)
      as (avail & cache & Ha & Hc' & _ & _ & Hnames).
    rewrite Hc in Hc'. injection Hc' as <-.
    destruct (Hos d Hd avail (name :: rest) Ha Hc) as [_ Hopen].
    cbn [the_pool inUse] in Hopen.
    destruct (Hnames name) as [_ Hh]; [rewrite !elem_of_app, elem_of_cons; auto|].
    rewrite database_in_range by done.
    cbn [database_loop]. rewrite Hc. cbn [mbind option_bind].
    rewrite store_index_Some by (by eapply at_index_range).
    cbn [mbind option_bind].
    change (TSqlDatabase_database (set_cachedDatabase _ p) name)
      with (TSqlDatabase_database p name).
    rewrite Hopen by (by left). fold (handle_of p name). by rewrite Hh.
Qed.

Lemma reachable_open_state_consistent_witness :
  let s := {| the_pool := Sample.warm;
              inUse := set_inUse 0 [] (inUse SampleSystem.one_borrowed) |} in
  (forall d avail cache,
      0 <= d < sqlDatabaseSettingsCount Sample.app ->
      at_index (availableNames (the_pool s)) d = Some avail ->
      at_index (cachedDatabase (the_pool s)) d = Some cache ->
      (forall name, name ∈ avail ->
         isOpen (TSqlDatabase_database (the_pool s) name) = false)
      /\ (forall name, name ∈ cache ++ inUse s d ->
            isOpen (TSqlDatabase_database (the_pool s) name) = true))
  /\ (forall d name rest open fuel,
        0 <= d < sqlDatabaseSettingsCount Sample.app ->
        at_index (cachedDatabase (the_pool s)) d = Some (name :: rest) ->
        database Sample.app open (S fuel) d (the_pool s)
        = Some (Returns {| isValid := true; connectionName := name |},
                set_cachedDatabase
                  (<[Z.to_nat d := rest]> (cachedDatabase (the_pool s))) (the_pool s))).
Proof.
  apply (reachable_open_state_consistent Sample.app Sample.drv).
  - reflexivity.
  - simpl; lia.
  - exact sample_warm_reachable.
Defined.

(** ** Names and settings at registration *)

(** X18: No name is registered twice.  After [instance()], whatever the number of
    databases and of workers, a name occurs at one place only on the
    available stacks: on one stack, at one position. *)
Theorem instance_names_distinct app drv p d d' stack stack' (k k' : nat) name :
  isSqlDatabaseAvailable app = true ->
  instance app drv = Some p ->
  at_index (availableNames p) d = Some stack ->
  at_index (availableNames p) d' = Some stack' ->
  stack !! k = Some name ->
  stack' !! k' = Some name ->
  d = d' /\ k = k'.
Proof.
  intros Hon Hrun Hs Hs' Hk Hk'.
  destruct (instance_spec app drv Hon) as (p0 & Hrun0 & Hsized & Hav & _).
  rewrite Hrun in Hrun0. injection Hrun0 as <-.
  assert (Hd : 0 <= d < sqlDatabaseSettingsCount app)
    by (eapply (in_range_of_sized app); eauto).
  assert (Hd' : 0 <= d' < sqlDatabaseSettingsCount app)
    by (eapply (in_range_of_sized app); eauto).
  rewrite Hav in Hs, Hs' by done. injection Hs as <-. injection Hs' as <-.
  assert (Hin : name ∈ registered app drv d).
  { apply list_elem_of_In, in_rev, list_elem_of_In, list_elem_of_lookup. eauto. }
  assert (Hin' : name ∈ registered app drv d').
  { apply list_elem_of_In, in_rev, list_elem_of_In, list_elem_of_lookup. eauto. }
  apply elem_of_registered in Hin as (x & _ & ->).
  apply elem_of_registered in Hin' as (x' & _ & Heq).
  apply CONN_NAME_inj in Heq as [-> _]; [|lia..].
  split; [done|].
  eapply NoDup_lookup; [|exact Hk|exact Hk'].
  rewrite <- Permutation_rev. apply slot_names_NoDup.
Qed.

Lemma instance_names_distinct_witness : (0 : Z) = 0 /\ 1%nat = 1%nat.
Proof.
  apply (instance_names_distinct Sample.app Sample.drv Sample.fresh 0 0
           ["rdb00_1"; "rdb00_0"] ["rdb00_1"; "rdb00_0"] 1 1 "rdb00_0");
    reflexivity.
Defined.

Lemma contains_rev_app (c : ascii) (s1 s2 : QString) :
  QStr.contains c (String.rev_app s1 s2) = QStr.contains c s1 || QStr.contains c s2.
Proof.
  revert s2. induction s1 as [|a s1 IH]; intros s2; cbn; [done|].
  rewrite IH. cbn. destruct (Ascii.eqb c a); [|done].
  by rewrite orb_true_r.
Qed.

Lemma split_go_fragments (sep : ascii) (cur s : QString) :
  QStr.contains sep cur = false ->
  Forall (fun f => QStr.contains sep f = false) (QStr.split_go sep cur s).
Proof.
  revert cur. induction s as [|c s IH]; intros cur Hcur; cbn.
  - constructor; [|constructor]. unfold String.rev.
    by rewrite contains_rev_app, Hcur.
  - destruct (Ascii.eqb c sep) eqn:Hc.
    + constructor; [|by apply IH].
      unfold String.rev. by rewrite contains_rev_app, Hcur.
    + apply IH. cbn. by rewrite Ascii.eqb_sym, Hc.
Qed.

Lemma split_SkipEmptyParts_fragments (sep : ascii) (s : QString) :
  Forall (fun f => QStr.isEmpty f = false /\ QStr.contains sep f = false)
    (QStr.split_SkipEmptyParts sep s).
Proof.
  apply Forall_forall. intros f Hin%list_elem_of_In.
  unfold QStr.split_SkipEmptyParts in Hin. apply filter_In in Hin as [Hin Hne].
  split; [by apply negb_true_iff|].
  pose proof (split_go_fragments sep "" s eq_refl) as Hall.
  rewrite Forall_forall in Hall. apply Hall. by apply list_elem_of_In.
Qed.

(** X19: The stored post-open statements.  When the setup applier succeeds on a
    slot that had no post-open statements, every statement it stores is a
    fragment of the configured string between two separators: it is not
    empty and contains no [;].  A fragment may still be blank. *)
Theorem setDatabaseSettings_stored_fragments app drv (db : TSqlDatabase) d :
  fst (setDatabaseSettings app drv db d) = true ->
  postOpenStatements db = [] ->
  Forall (fun st => QStr.isEmpty st = false /\ QStr.contains ";" st = false)
    (postOpenStatements (snd (setDatabaseSettings app drv db d))).
Proof.
  intros Hok Hnone. unfold setDatabaseSettings in *.
  destruct (QStr.isEmpty _); [discriminate|]. cbn.
  pose proof (split_SkipEmptyParts_fragments ";"
                (QStr.trimmed (QVariant.toString (sqlDatabaseSettings app d)
                                 "PostOpenStatements"))) as Hall.
  destruct (QStr.split_SkipEmptyParts _ _); [by rewrite Hnone|done].
Qed.

Lemma setDatabaseSettings_stored_fragments_witness :
  Forall (fun st => QStr.isEmpty st = false /\ QStr.contains ";" st = false)
    (postOpenStatements
       (snd (setDatabaseSettings Sample.app_blank_fragment Sample.drv
               (new_connection Sample.drv "QSQLITE" "rdb00_0") 0))).
Proof.
  apply setDatabaseSettings_stored_fragments; reflexivity.
Defined.

(** X20: A minimal configuration.  When the settings of a database give a
    DatabaseName and none of HostName, Port, UserName, Password,
    ConnectOptions, PostOpenStatements and EnableUpsert, the setup applier
    succeeds and leaves host, port, credentials, connect options and post-open
    statements of the slot as they were; it turns upsert off and attaches the
    extension of the slot's driver.  The handle, the driver name and the open
    state are never touched.  The database name stored is the trimmed
    setting, with the web root path in front when the driver is SQLite, the
    name has no colon and is a relative path. *)
Theorem setDatabaseSettings_missing_keys app drv (db : TSqlDatabase) d :
  QStr.isEmpty (QStr.trimmed (QVariant.toString (sqlDatabaseSettings app d) "DatabaseName"))
  = false ->
  (forall key, key ∈ ["HostName"; "Port"; "UserName"; "Password"; "ConnectOptions";
                      "PostOpenStatements"; "EnableUpsert"] ->
               sqlDatabaseSettings app d !! key = None) ->
  let slot := snd (setDatabaseSettings app drv db d) in
  fst (setDatabaseSettings app drv db d) = true
  /\ hostName slot = hostName db /\ port slot = port db
  /\ userName slot = userName db /\ password slot = password db
  /\ connectOptions slot = connectOptions db
  /\ postOpenStatements slot = postOpenStatements db
  /\ isUpsertEnabled slot = false
  /\ driverExtension slot = TSqlDriverExtensionFactory_create drv (driverName db)
  /\ sqlDatabase slot = sqlDatabase db /\ driverName slot = driverName db
  /\ isOpen slot = isOpen db
  /\ databaseName slot
     = (let name := QStr.trimmed
                      (QVariant.toString (sqlDatabaseSettings app d) "DatabaseName") in
        if dbmsType_isSQLite drv (driverName db) && negb (QStr.contains ":" name)
           && QFileInfo_isRelative drv name
        then webRootPath app +:+ name else name).
Proof.
  intros Hname Hmissing slot. subst slot. unfold setDatabaseSettings.
  rewrite Hname. cbn [fst snd].
  unfold QVariant.toInt, QVariant.toBool, QVariant.toString.
  rewrite (Hmissing "HostName"), (Hmissing "Port"), (Hmissing "UserName"),
    (Hmissing "Password"), (Hmissing "ConnectOptions"),
    (Hmissing "PostOpenStatements"), (Hmissing "EnableUpsert")
    by (apply list_elem_of_In; cbn; intuition).
  cbn. repeat split.
  destruct (dbmsType_isSQLite drv (driverName db)); [|done].
  destruct (QStr.contains ":" _); [done|]. by destruct (QFileInfo_isRelative drv _).
Qed.

Lemma setDatabaseSettings_missing_keys_witness :
  let db := new_connection Sample.drv "QPSQL" "rdb00_0" in
  let slot := snd (setDatabaseSettings SampleMinimal.app Sample.drv db 0) in
  fst (setDatabaseSettings SampleMinimal.app Sample.drv db 0) = true
  /\ hostName slot = hostName db /\ port slot = port db
  /\ userName slot = userName db /\ password slot = password db
  /\ connectOptions slot = connectOptions db
  /\ postOpenStatements slot = postOpenStatements db
  /\ isUpsertEnabled slot = false
  /\ driverExtension slot
     = TSqlDriverExtensionFactory_create Sample.drv (driverName db)
  /\ sqlDatabase slot = sqlDatabase db /\ driverName slot = driverName db
  /\ isOpen slot = isOpen db
  /\ databaseName slot = "blog".
Proof.
  apply (setDatabaseSettings_missing_keys SampleMinimal.app Sample.drv
           (new_connection Sample.drv "QPSQL" "rdb00_0") 0).
  - reflexivity.
  - intros key Hkey. repeat (apply elem_of_cons in Hkey as [->|Hkey]; [reflexivity|]).
    by apply elem_of_nil in Hkey.
Defined.
